(** * dask-awkward graph optimizer: column projection and layer-chain fusion

    A shallow embedding of [src/dask_awkward/lib/optimize.py].  Python objects
    that the optimizer shares and mutates (layer objects, their [io_deps]
    dictionaries) live in an explicit store; exceptions are results. *)

From stdpp Require Import gmap strings list fin_maps pretty.
From Stdlib Require Import ZArith Lia.

Open Scope string_scope.
Open Scope list_scope.
Open Scope nat_scope.

(** ** Exceptions and results *)

Inductive exn_class :=
  | KeyError
  | IndexError
  | ValueError
  | AssertionError
  | AttributeError
  | UserException (name : string)     (* any other subclass of [Exception] *)
  | BaseOnly (name : string).         (* [BaseException] outside [Exception] *)

Record exn := mk_exn { exn_type : exn_class; exn_str : string }.

(** [isinstance(err, Exception)], what [except Exception] catches. *)
Definition is_Exception (e : exn) : bool :=
  match exn_type e with BaseOnly _ => false | _ => true end.

Definition class_name (c : exn_class) : string :=
  match c with
  | KeyError => "KeyError"
  | IndexError => "IndexError"
  | ValueError => "ValueError"
  | AssertionError => "AssertionError"
  | AttributeError => "AttributeError"
  | UserException n => n
  | BaseOnly n => n
  end.

(** [str(type(err))] *)
Definition type_repr (e : exn) : string :=
  "<class '" +:+ class_name (exn_type e) +:+ "'>".

Inductive outcome (A : Type) :=
  | Ok (a : A)
  | Raise (e : exn)
  | OutOfFuel.
Arguments Ok {A} a.
Arguments Raise {A} e.
Arguments OutOfFuel {A}.

#[global] Instance outcome_ret : MRet outcome := λ A a, Ok a.
#[global] Instance outcome_bind : MBind outcome := λ A B f m,
  match m with
  | Ok a => f a
  | Raise e => Raise e
  | OutOfFuel => OutOfFuel
  end.

Definition raise {A} (c : exn_class) (msg : string) : outcome A :=
  Raise (mk_exn c msg).


(** ** Python values that occur in task tuples *)

Inductive callable :=
  | Fn_touch_all_data       (* [_touch_all_data] *)
  | Fn_touch_and_call_fn    (* [_touch_and_call_fn] *)
  | Fn_user (id : nat).     (* any callable supplied by the collection code *)

#[warnings="-register-all"]
Inductive pyarg :=
  | AStr (s : string)
  | AList (l : list pyarg)
  | ATuple (l : list pyarg)
  | ADict (d : list (string * pyarg))
  | AFunc (f : callable)
  | AObj (id : nat)         (* any other object, opaque *)
  | ANone.

(** A task is the tuple [(func, *args)]. *)
Abbreviation task := (list pyarg).

(** First component of an [indices] pair: a name or an opaque literal. *)
Inductive key :=
  | KStr (s : string)
  | KObj (id : nat).

#[global] Instance key_eq_dec : EqDecision key.
Proof. solve_decision. Defined.

Definition arg_of_key (k : key) : pyarg :=
  match k with KStr s => AStr s | KObj n => AObj n end.

(** [k == parent] for a string [parent] *)
Definition key_is (k : key) (parent : string) : bool :=
  match k with KStr s => bool_decide (s = parent) | KObj _ => false end.

(** One entry of [Blockwise.indices]: [(name, axes-or-None)]. *)
Definition slot : Type := key * option (list string).

(** ** Strings: [startswith], slicing, [int(...)], [str(int)] *)

Definition TOKEN_PREFIX : string := "__dask_blockwise__".

Definition startswith (s p : string) : bool := String.prefix p s.

Fixpoint string_drop (n : nat) (s : string) : string :=
  match n, s with
  | 0, _ => s
  | S n', String _ s' => string_drop n' s'
  | S _, EmptyString => EmptyString
  end.

Definition is_py_space (a : Ascii.ascii) : bool :=
  let n := Ascii.nat_of_ascii a in
  (n =? 32)%nat || ((9 <=? n)%nat && (n <=? 13)%nat) || ((28 <=? n)%nat && (n <=? 31)%nat).

Definition digit_of (a : Ascii.ascii) : option Z :=
  let n := Ascii.nat_of_ascii a in
  if ((48 <=? n)%nat && (n <=? 57)%nat)%bool then Some (Z.of_nat (n - 48)) else None.

Fixpoint lstrip (s : list Ascii.ascii) : list Ascii.ascii :=
  match s with
  | a :: r => if is_py_space a then lstrip r else s
  | [] => []
  end.

Definition strip (s : list Ascii.ascii) : list Ascii.ascii :=
  rev (lstrip (rev (lstrip s))).

(** Digits with single underscores allowed between digits. [prev_digit]
    tells whether the previous character was a digit. *)
Fixpoint digits_val (s : list Ascii.ascii) (acc : Z) (prev_digit : bool) : option Z :=
  match s with
  | [] => if prev_digit then Some acc else None
  | a :: r =>
      match digit_of a with
      | Some d => digits_val r (10 * acc + d)%Z true
      | None =>
          if (Ascii.eqb a (Ascii.ascii_of_nat 95) && prev_digit)%bool
          then digits_val r acc false
          else None
      end
  end.

(** [int(s)] on an ASCII string, base 10; [None] stands for [ValueError]. *)
Definition python_int (s : string) : option Z :=
  match strip (String.list_ascii_of_string s) with
  | [] => None
  | a :: r =>
      if Ascii.eqb a (Ascii.ascii_of_nat 45) then Z.opp <$> digits_val r 0 false
      else if Ascii.eqb a (Ascii.ascii_of_nat 43) then digits_val r 0 false
      else digits_val (a :: r) 0 false
  end.

(** [l[i]] for a Python integer index; [None] stands for [IndexError]. *)
Definition py_index {A} (l : list A) (i : Z) : option A :=
  let n := Z.of_nat (length l) in
  if (0 <=? i)%Z then l !! Z.to_nat i
  else if (- n <=? i)%Z then l !! Z.to_nat (n + i)
  else None.

(** [f"__dask_blockwise__{n}"] *)
Definition blockwise_token (n : nat) : string := TOKEN_PREFIX +:+ pretty n.

(** ** Layers, the store and the graph *)

Definition loc := nat.

Record Layer := mkLayer {
  isinstance_AwkwardInputLayer : bool;
  isinstance_AwkwardBlockwiseLayer : bool;
  is_projectable : bool;
  has_mock : bool;                               (* hasattr(lay, "mock") *)
  has_opt_touch_all : bool;                      (* hasattr(v, "_opt_touch_all") *)
  annotations : option (gmap string bool);       (* values by truthiness *)
  indices : list slot;
  numblocks : list (key * list (option nat));    (* dict, insertion order *)
  io_deps : loc;                                 (* reference to a dict object *)
  dsk : gmap string task;
  output_indices : list string;
  inputs : option (list nat);                    (* attribute may be absent *)
  _dims : option nat;                            (* cached, may be absent *)
  _cached_dict : option nat;                     (* cached, may be absent *)
}.

Record heap := mkHeap {
  layer_objs : gmap loc Layer;
  dict_objs : gmap loc (gmap string nat);
}.

Record HighLevelGraph := mkHLG {
  layers : gmap string loc;
  dependencies : gmap string (gset string);
}.

(** [layer.indices], under a name that local variables do not shadow *)
Definition layer_indices (layer : Layer) : list slot := indices layer.

(** [layer.dsk], likewise *)
Definition layer_dsk (layer : Layer) : gmap string task := dsk layer.

(** ** [_recursive_replace] *)

Fixpoint _recursive_replace_arg (layer : Layer) (parent : string)
    (arg : pyarg) (indices : list slot) {struct arg} : outcome (pyarg * list slot) :=
  let loop :=
    fix loop (args : list pyarg) (args2 : list pyarg) (indices : list slot)
        : outcome (list pyarg * list slot) :=
      match args with
      | [] => Ok (args2, indices)
      | a :: rest =>
          '(a2, indices') ← _recursive_replace_arg layer parent a indices;
          loop rest (args2 ++ [a2]) indices'
      end in
  match arg with
  | AStr s =>
      if startswith s TOKEN_PREFIX then
        match python_int (string_drop 18 s) with
        | None => raise ValueError "invalid literal for int() with base 10"
        | Some ind =>
            match py_index (layer_indices layer) ind with
            | None => raise IndexError "tuple index out of range"
            | Some (name, None) => Ok (arg_of_key name, indices)
            | Some (name, Some ax) =>
                if key_is name parent then Ok (AStr parent, indices)
                else
                  let indices' := indices ++ [(name, Some ax)] in
                  Ok (AStr (blockwise_token (length indices' - 1)), indices')
            end
        end
      else Ok (arg, indices)
  | AList l =>
      '(l2, indices') ← loop l [] indices; Ok (AList l2, indices')
  | ATuple l =>
      '(l2, indices') ← loop l [] indices; Ok (ATuple l2, indices')
  | _ => Ok (arg, indices)
  end.

(** The [for arg in args] loop, with its accumulator [args2]. *)
Fixpoint replace_loop (layer : Layer) (parent : string)
    (args : list pyarg) (args2 : list pyarg) (indices : list slot)
    : outcome (list pyarg * list slot) :=
  match args with
  | [] => Ok (args2, indices)
  | a :: rest =>
      '(a2, indices') ← _recursive_replace_arg layer parent a indices;
      replace_loop layer parent rest (args2 ++ [a2]) indices'
  end.

Definition _recursive_replace (args : list pyarg) (layer : Layer)
    (parent : string) (indices : list slot) : outcome (list pyarg * list slot) :=
  replace_loop layer parent args [] indices.


(** ** The graph container *)

(** Modelled from the spec: [HighLevelGraph] is the host library's container,
    absent from the sources.  "[dependents] is exactly the inverse of
    [dependencies], including empty sets for sinks": a key of the dependents
    mapping is any name that has a dependencies entry or occurs in one. *)
Definition referenced (deps : gmap string (gset string)) : gset string :=
  ⋃ (map snd (map_to_list deps)).

Definition dependents_of (deps : gmap string (gset string)) (k : string) : gset string :=
  dom (filter (λ kv, k ∈ kv.2) deps).

Definition dependents (dsk : HighLevelGraph) (k : string) : option (gset string) :=
  if decide (k ∈ dom (dependencies dsk) ∪ referenced (dependencies dsk))
  then Some (dependents_of (dependencies dsk) k)
  else None.

#[global] Instance Layer_inhabited : Inhabited Layer :=
  populate (mkLayer false false false false false None [] [] 0 ∅ [] None None None).

(** Dereference an object reference. References held by a graph are never
    dangling in Python; the default only makes the lookup total. *)
Definition layer_at (h : heap) (l : loc) : Layer := layer_objs h !!! l.
Definition dict_at (h : heap) (d : loc) : gmap string nat := dict_objs h !!! d.

(** [dsk.layers[name]] *)
Definition getitem_layers (dsk : HighLevelGraph) (name : string) : outcome loc :=
  match layers dsk !! name with
  | Some l => Ok l
  | None => raise KeyError name
  end.

(** [dsk.dependencies[name]] *)
Definition getitem_dependencies (dsk : HighLevelGraph) (name : string)
    : outcome (gset string) :=
  match dependencies dsk !! name with
  | Some s => Ok s
  | None => raise KeyError name
  end.

(** [dsk.dependents[name]] *)
Definition getitem_dependents (dsk : HighLevelGraph) (name : string)
    : outcome (gset string) :=
  match dependents dsk name with
  | Some s => Ok s
  | None => raise KeyError name
  end.

(** [all_layers.remove(x)] on the set of unvisited layers, kept as the list
    of its elements in the order [pop] would deliver them. *)
Definition set_remove (x : string) (s : list string) : outcome (list string) :=
  if decide (x ∈ s) then Ok (filter (λ y, y ≠ x) s) else raise KeyError x.

(** ** Store updates *)

Definition alloc_layer (v : Layer) (h : heap) : loc * heap :=
  let l := fresh (dom (layer_objs h)) in
  (l, mkHeap (<[l := v]> (layer_objs h)) (dict_objs h)).

Definition alloc_dict (d : gmap string nat) (h : heap) : loc * heap :=
  let l := fresh (dom (dict_objs h)) in
  (l, mkHeap (layer_objs h) (<[l := d]> (dict_objs h))).

(** [copy.copy(layer)]: a new object whose attributes refer to the same
    objects as the original's. *)
Definition copy_copy (l : loc) (h : heap) : loc * heap :=
  alloc_layer (layer_at h l) h.

Definition update_layer (l : loc) (f : Layer → Layer) (h : heap) : heap :=
  mkHeap (alter f l (layer_objs h)) (dict_objs h).

(** [d[k] = v] on the dict object at [d] *)
Definition dict_setitem (d : loc) (k : string) (v : nat) (h : heap) : heap :=
  mkHeap (layer_objs h) (alter (λ m, <[k := v]> m) d (dict_objs h)).

Definition set_io_deps (d : loc) (v : Layer) : Layer :=
  mkLayer (isinstance_AwkwardInputLayer v) (isinstance_AwkwardBlockwiseLayer v)
    (is_projectable v) (has_mock v) (has_opt_touch_all v) (annotations v)
    (indices v) (numblocks v) d (dsk v) (output_indices v) (inputs v)
    (_dims v) (_cached_dict v).

Definition set_numblocks (nb : list (key * list (option nat))) (v : Layer) : Layer :=
  mkLayer (isinstance_AwkwardInputLayer v) (isinstance_AwkwardBlockwiseLayer v)
    (is_projectable v) (has_mock v) (has_opt_touch_all v) (annotations v)
    (indices v) nb (io_deps v) (dsk v) (output_indices v) (inputs v)
    (_dims v) (_cached_dict v).

Definition set_dsk (m : gmap string task) (v : Layer) : Layer :=
  mkLayer (isinstance_AwkwardInputLayer v) (isinstance_AwkwardBlockwiseLayer v)
    (is_projectable v) (has_mock v) (has_opt_touch_all v) (annotations v)
    (indices v) (numblocks v) (io_deps v) m (output_indices v) (inputs v)
    (_dims v) (_cached_dict v).

Definition del_dims (v : Layer) : Layer :=
  mkLayer (isinstance_AwkwardInputLayer v) (isinstance_AwkwardBlockwiseLayer v)
    (is_projectable v) (has_mock v) (has_opt_touch_all v) (annotations v)
    (indices v) (numblocks v) (io_deps v) (dsk v) (output_indices v) (inputs v)
    None (_cached_dict v).

Definition set_indices (ix : list slot) (v : Layer) : Layer :=
  mkLayer (isinstance_AwkwardInputLayer v) (isinstance_AwkwardBlockwiseLayer v)
    (is_projectable v) (has_mock v) (has_opt_touch_all v) (annotations v)
    ix (numblocks v) (io_deps v) (dsk v) (output_indices v) (inputs v)
    (_dims v) (_cached_dict v).

Definition set_output_indices (oi : list string) (v : Layer) : Layer :=
  mkLayer (isinstance_AwkwardInputLayer v) (isinstance_AwkwardBlockwiseLayer v)
    (is_projectable v) (has_mock v) (has_opt_touch_all v) (annotations v)
    (indices v) (numblocks v) (io_deps v) (dsk v) oi (inputs v)
    (_dims v) (_cached_dict v).

Definition set_inputs (i : option (list nat)) (v : Layer) : Layer :=
  mkLayer (isinstance_AwkwardInputLayer v) (isinstance_AwkwardBlockwiseLayer v)
    (is_projectable v) (has_mock v) (has_opt_touch_all v) (annotations v)
    (indices v) (numblocks v) (io_deps v) (dsk v) (output_indices v) i
    (_dims v) (_cached_dict v).

Definition del_cached_dict (v : Layer) : Layer :=
  mkLayer (isinstance_AwkwardInputLayer v) (isinstance_AwkwardBlockwiseLayer v)
    (is_projectable v) (has_mock v) (has_opt_touch_all v) (annotations v)
    (indices v) (numblocks v) (io_deps v) (dsk v) (output_indices v) (inputs v)
    (_dims v) None.

(** ** [rewrite_layer_chains] *)

Section fusion.

(** [len(layer)]: the host library's [Layer.__len__], the number of output
    keys (partitions) of a layer. Its code is not part of these sources. *)
Variable layer_len : Layer → nat.

(** The condition of the forward [while]: [Some child] when it holds. *)
Definition forward_cond (dsk : HighLevelGraph) (h : heap)
    (lay : string) (children : gset string) : outcome (option string) :=
  match elements children with
  | [child] =>
      ds ← getitem_dependencies dsk child;
      if bool_decide (ds = {[lay]}) then
        lc ← getitem_layers dsk child;
        if isinstance_AwkwardBlockwiseLayer (layer_at h lc) then
          ll ← getitem_layers dsk lay;
          Ok (if Nat.eqb (layer_len (layer_at h ll)) (layer_len (layer_at h lc))
              then Some child else None)
        else Ok None
      else Ok None
  | _ => Ok None
  end.

(** The condition of the backward [while]. *)
Definition backward_cond (dsk : HighLevelGraph) (h : heap)
    (lay : string) (parents : gset string) : outcome (option string) :=
  match elements parents with
  | [par] =>
      ds ← getitem_dependents dsk par;
      if bool_decide (ds = {[lay]}) then
        lp ← getitem_layers dsk par;
        if isinstance_AwkwardBlockwiseLayer (layer_at h lp) then
          ll ← getitem_layers dsk lay;
          Ok (if Nat.eqb (layer_len (layer_at h ll)) (layer_len (layer_at h lp))
              then Some par else None)
        else Ok None
      else Ok None
  | _ => Ok None
  end.

Fixpoint walk_forward (fuel : nat) (dsk : HighLevelGraph) (h : heap)
    (lay : string) (children : gset string)
    (chain all_layers : list string) : outcome (list string * list string) :=
  match fuel with
  | 0 => OutOfFuel
  | S fuel' =>
      c ← forward_cond dsk h lay children;
      match c with
      | None => Ok (chain, all_layers)
      | Some lay' =>
          all_layers' ← set_remove lay' all_layers;
          children' ← getitem_dependents dsk lay';
          walk_forward fuel' dsk h lay' children' (chain ++ [lay']) all_layers'
      end
  end.

Fixpoint walk_backward (fuel : nat) (dsk : HighLevelGraph) (h : heap)
    (lay : string) (parents : gset string)
    (chain all_layers : list string) : outcome (list string * list string) :=
  match fuel with
  | 0 => OutOfFuel
  | S fuel' =>
      c ← backward_cond dsk h lay parents;
      match c with
      | None => Ok (chain, all_layers)
      | Some lay' =>
          all_layers' ← set_remove lay' all_layers;
          parents' ← getitem_dependencies dsk lay';
          walk_backward fuel' dsk h lay' parents' (lay' :: chain) all_layers'
      end
  end.

(** State of the discovery loop: the chains found, the output [layers]
    dict, and the store (extended by the shallow copies). *)
Definition found : Type := list (list string) * gmap string loc * heap.

(** The body of [while all_layers:] after [lay = all_layers.pop()]. *)
Definition visit (dsk : HighLevelGraph) (lay : string) (all_layers : list string)
    (st : found) : outcome (list string * found) :=
  let '(chains, layers2, h) := st in
  val ← getitem_layers dsk lay;
  if negb (isinstance_AwkwardBlockwiseLayer (layer_at h val)) then
    Ok (all_layers, (chains, <[lay := val]> layers2, h))
  else
    children ← getitem_dependents dsk lay;
    '(chain, all_layers) ←
      walk_forward (S (length all_layers)) dsk h lay children [lay] all_layers;
    parents ← getitem_dependencies dsk lay;
    '(chain, all_layers) ←
      walk_backward (S (length all_layers)) dsk h lay parents chain all_layers;
    if Nat.ltb 1 (length chain) then
      match last chain with
      | None => raise IndexError "list index out of range"
      | Some outkey =>
          src ← getitem_layers dsk outkey;
          let '(l, h') := copy_copy src h in
          Ok (all_layers, (chains ++ [chain], <[outkey := l]> layers2, h'))
      end
    else Ok (all_layers, (chains, <[lay := val]> layers2, h)).

Fixpoint find_chains (fuel : nat) (dsk : HighLevelGraph)
    (all_layers : list string) (st : found) : outcome found :=
  match fuel with
  | 0 => OutOfFuel
  | S fuel' =>
      match all_layers with
      | [] => Ok st
      | lay :: rest =>
          '(all_layers', st') ← visit dsk lay rest st;
          find_chains fuel' dsk all_layers' st'
      end
  end.

(** [[nb[0] for nb in numblocks.values() if nb[0] is not None]] *)
Fixpoint partitioned_counts (nbs : list (key * list (option nat)))
    : outcome (list nat) :=
  match nbs with
  | [] => Ok []
  | (_, nb) :: rest =>
      match nb with
      | [] => raise IndexError "tuple index out of range"
      | Some n :: _ => r ← partitioned_counts rest; Ok (n :: r)
      | None :: _ => partitioned_counts rest
      end
  end.

Definition first_numblocks (nbs : list (key * list (option nat))) : outcome nat :=
  l ← partitioned_counts nbs;
  match l with
  | n :: _ => Ok n
  | [] => raise IndexError "list index out of range"
  end.

(** [[deps.pop(ch) for ch in members]] *)
Fixpoint pop_all (members : list string) (deps : gmap string (gset string))
    : outcome (gmap string (gset string)) :=
  match members with
  | [] => Ok deps
  | ch :: rest =>
      match deps !! ch with
      | None => raise KeyError ch
      | Some _ => pop_all rest (delete ch deps)
      end
  end.

(** [for k in layer.io_deps: outlayer.io_deps[k] = layer.io_deps[k]], with
    [out_d] the dict [outlayer.io_deps] refers to and [member_d] the dict
    [layer.io_deps] refers to. *)
Fixpoint merge_io_deps (ks : list string) (out_d member_d : loc) (h : heap)
    : outcome heap :=
  match ks with
  | [] => Ok h
  | k :: rest =>
      match dict_at h member_d !! k with
      | None => raise KeyError k
      | Some v => merge_io_deps rest out_d member_d (dict_setitem out_d k v h)
      end
  end.

(** [d[k] = v] on a dict kept in insertion order *)
Fixpoint dict_set {V} (k : key) (v : V) (d : list (key * V)) : list (key * V) :=
  match d with
  | [] => [(k, v)]
  | (k', v') :: rest =>
      if decide (k' = k) then (k, v) :: rest else (k', v') :: dict_set k v rest
  end.

(** [{i[0]: (numblocks,) for i in indices if i[1] is not None}] *)
Definition fused_numblocks (n : nat) (ix : list slot)
    : list (key * list (option nat)) :=
  foldl (λ d (i : slot), if i.2 is Some _ then dict_set i.1 [Some n] d else d) [] ix.

(** [tuple((i[0], (".0",) if i[1] is not None else None) for i in indices)] *)
Definition fused_indices (ix : list slot) : list slot :=
  map (λ i : slot, (i.1, if i.2 is Some _ then Some [".0"] else None)) ix.

(** State of the loop over [chain[1:]]. *)
Record fuse_state := mkFuse {
  f_subgraph : gmap string task;
  f_indices : list slot;
  f_parent : string;
  f_heap : heap;
}.

(** One iteration of [for chain_member in chain[1:]]. *)
Definition fuse_member (dsk : HighLevelGraph) (outlayer : loc)
    (chain_member : string) (st : fuse_state) : outcome fuse_state :=
  lm ← getitem_layers dsk chain_member;
  let h := f_heap st in
  let layer := layer_at h lm in
  let member_d := io_deps layer in
  let out_d := io_deps (layer_at h outlayer) in
  h' ← merge_io_deps (map fst (map_to_list (dict_at h member_d))) out_d member_d h;
  match layer_dsk layer !! chain_member with
  | None => raise KeyError chain_member
  | Some [] => raise ValueError "not enough values to unpack"
  | Some (func :: args) =>
      '(args2, indices') ←
        _recursive_replace args layer (f_parent st) (f_indices st);
      Ok (mkFuse (<[chain_member := func :: args2]> (f_subgraph st))
                 indices' chain_member h')
  end.

Fixpoint fuse_members (dsk : HighLevelGraph) (outlayer : loc)
    (members : list string) (st : fuse_state) : outcome fuse_state :=
  match members with
  | [] => Ok st
  | m :: rest =>
      st' ← fuse_member dsk outlayer m st;
      fuse_members dsk outlayer rest st'
  end.

(** The body of [for chain in chains:]. *)
Definition rewrite_chain (dsk : HighLevelGraph) (layers2 : gmap string loc)
    (chain : list string) (acc : gmap string (gset string) * heap)
    : outcome (gmap string (gset string) * heap) :=
  let '(deps, h) := acc in
  match last chain, chain with
  | Some outkey, c0 :: _ =>
      l0 ← getitem_layers dsk c0;
      let layer0 := layer_at h l0 in
      match layers2 !! outkey with
      | None => raise KeyError outkey
      | Some outlayer =>
          nb ← first_numblocks (numblocks layer0);
          match deps !! c0 with
          | None => raise KeyError c0
          | Some d0 =>
              deps ← pop_all (removelast chain) (<[outkey := d0]> deps);
              let subgraph := layer_dsk layer0 in
              let ix := indices layer0 in
              let h := update_layer outlayer (set_io_deps (io_deps layer0)) h in
              st ← fuse_members dsk outlayer (tail chain)
                     (mkFuse subgraph ix c0 h);
              let ix := f_indices st in
              let h := f_heap st in
              let h := update_layer outlayer (set_numblocks (fused_numblocks nb ix)) h in
              let h := update_layer outlayer (set_dsk (f_subgraph st)) h in
              let h := update_layer outlayer del_dims h in
              let h := update_layer outlayer (set_indices (fused_indices ix)) h in
              let h := update_layer outlayer (set_output_indices [".0"]) h in
              let h := update_layer outlayer
                         (set_inputs (Some (default [] (inputs layer0)))) h in
              let h := update_layer outlayer del_cached_dict h in
              Ok (deps, h)
          end
      end
  | _, _ => raise IndexError "list index out of range"
  end.

Fixpoint rewrite_chains (dsk : HighLevelGraph) (layers2 : gmap string loc)
    (chains : list (list string)) (acc : gmap string (gset string) * heap)
    : outcome (gmap string (gset string) * heap) :=
  match chains with
  | [] => Ok acc
  | chain :: rest =>
      acc' ← rewrite_chain dsk layers2 chain acc;
      rewrite_chains dsk layers2 rest acc'
  end.

(** [order] lists the elements of [set(dsk.layers)] in the order in which
    [pop] delivers them. *)
Definition discover (order : list string) (dsk : HighLevelGraph) (h : heap)
    : outcome found :=
  find_chains (S (length order)) dsk order ([], ∅, h).

Definition rewrite_layer_chains (order : list string) (dsk : HighLevelGraph)
    (h : heap) : outcome (HighLevelGraph * heap) :=
  '(chains, layers2, h1) ← discover order dsk h;
  '(deps, h2) ← rewrite_chains dsk layers2 chains (dependencies dsk, h1);
  Ok (mkHLG layers2 deps, h2).

End fusion.

(** ** Column projection: [optimize_columns] *)

Definition NL : string := String (Ascii.ascii_of_nat 10) EmptyString.

(** [COLUMN_OPT_FAILED_WARNING_MSG.format(exception=..., message=...)] *)
Definition COLUMN_OPT_FAILED_WARNING_MSG (exception message : string) : string :=
  "The necessary columns optimization failed; exception raised:" +:+ NL +:+ NL
  +:+ exception +:+ " with message " +:+ message +:+ "." +:+ NL +:+ NL
  +:+ "Please see the FAQ section of the docs for more information:" +:+ NL
  +:+ "https://dask-awkward.readthedocs.io/en/stable/more/faq.html" +:+ NL +:+ NL.

Definition PASS_DEBUG_MSG : string :=
  "Column projection optimization failed; optimization skipped.".

Definition invalid_on_fail_msg (on_fail : string) : string :=
  "Invalid awkward.optimization.on-fail option: " +:+ on_fail +:+ "." +:+ NL
  +:+ "Valid options are 'warn', 'pass', or 'raise'.".

(** What running a task does, as far as the optimizer's own wrappers decide
    it: touches of arguments and calls of the collection's callables. *)
Inductive event :=
  | Touch (a : pyarg)
  | Call (f : nat) (args : list pyarg).

(** [_touch_all_data], on its positional arguments *)
Definition _touch_all_data (args : list pyarg) : list event := map Touch args.

(** Applying the head of a task tuple to the rest of it.
    [_touch_and_call_fn] touches the arguments after [fn], then calls [fn] on them. *)
Fixpoint run_task (t : task) : list event :=
  match t with
  | AFunc Fn_touch_all_data :: args => _touch_all_data args
  | AFunc Fn_touch_and_call_fn :: rest => _touch_all_data (tail rest) ++ run_task rest
  | AFunc (Fn_user f) :: args => [Call f args]
  | _ => []
  end.

(** Values returned by the evaluator. *)
Inductive pyresult :=
  | RArray (id : nat)      (* ak.Array *)
  | RRecord (id : nat)     (* ak.Record *)
  | ROther (id : nat).

(** The external collaborators of the pass (layer methods, the synchronous
    evaluator); their code is outside these sources. A report lists the
    results whose buffers were touched. *)
Record collaborators := mkCollab {
  mock_input : Layer → outcome (Layer * nat);
  mock_other : Layer → outcome Layer;
  project : Layer → nat → list nat → outcome Layer;
  get_sync : HighLevelGraph → heap → list (string * nat) → outcome (list pyresult * list nat);
}.

(** Observable state of a run: the store, the warnings issued, the
    debug-level log, and the evaluation requests made. *)
Record run_state := mkRun {
  st_heap : heap;
  st_warnings : list string;
  st_debug : list string;
  st_evals : list (list (string * nat));
}.

Definition with_heap (h : heap) (st : run_state) : run_state :=
  mkRun h (st_warnings st) (st_debug st) (st_evals st).

Definition is_projectable_input (v : Layer) : bool :=
  isinstance_AwkwardInputLayer v && is_projectable v.

Definition _has_projectable_awkward_io_layer (dsk : HighLevelGraph) (h : heap) : bool :=
  existsb (λ nv : string * loc, is_projectable_input (layer_at h nv.2))
          (map_to_list (layers dsk)).

Definition _projectable_input_layer_names (dsk : HighLevelGraph) (h : heap)
    : list string :=
  map fst (filter (λ nv : string * loc, is_projectable_input (layer_at h nv.2) = true)
                  (map_to_list (layers dsk))).

(** [(v.annotations or {}).get(key)], by truthiness *)
Definition annotation_truthy (v : Layer) (k : string) : bool :=
  match annotations v with
  | None => false
  | Some m => default false (m !! k)
  end.

Definition _layers_with_annotation (dsk : HighLevelGraph) (h : heap) (k : string)
    : list string :=
  map fst (filter (λ nv : string * loc, annotation_truthy (layer_at h nv.2) k = true)
                  (map_to_list (layers dsk))).

Definition _ak_output_layer_names (dsk : HighLevelGraph) (h : heap) : list string :=
  _layers_with_annotation dsk h "ak_output".

Definition _opt_touch_all_layer_names (dsk : HighLevelGraph) (h : heap) : list string :=
  map fst (filter (λ nv : string * loc, has_opt_touch_all (layer_at h nv.2) = true)
                  (map_to_list (layers dsk))).

(** [copy.deepcopy(layer)]: a new object with its own [io_deps] dict. *)
Definition deepcopy (l : loc) (h : heap) : loc * heap :=
  let v := layer_at h l in
  let '(d, h1) := alloc_dict (dict_at h (io_deps v)) h in
  alloc_layer (set_io_deps d v) h1.

Definition _mock_output (layer : loc) (h : heap) : outcome (loc * heap) :=
  if negb (Nat.eqb (size (layer_dsk (layer_at h layer))) 1)
  then raise AssertionError ""
  else
    let '(new_layer, h1) := deepcopy layer h in
    let mp := (λ t : task, AFunc Fn_touch_all_data :: tail t)
                <$> layer_dsk (layer_at h1 new_layer) in
    Ok (new_layer, update_layer new_layer (set_dsk mp) h1).

Definition _touch_and_call (layer : loc) (h : heap) : outcome (loc * heap) :=
  if negb (Nat.eqb (size (layer_dsk (layer_at h layer))) 1)
  then raise AssertionError ""
  else
    let '(new_layer, h1) := deepcopy layer h in
    let mp := (λ t : task, AFunc Fn_touch_and_call_fn :: t)
                <$> layer_dsk (layer_at h1 new_layer) in
    Ok (new_layer, update_layer new_layer (set_dsk mp) h1).

(** State of the construction of the tracer graph. *)
Definition building : Type := gmap string loc * gmap string nat * heap.

(** [for name, lay in dsk.layers.items(): ...] (lines 120-126) *)
Fixpoint mock_layers (C : collaborators) (projectable : list string)
    (items : list (string * loc)) (b : building) : outcome building :=
  match items with
  | [] => Ok b
  | (name, lay) :: rest =>
      let '(pl, states, h) := b in
      if bool_decide (name ∈ projectable) then
        '(m, s) ← mock_input C (layer_at h lay);
        let '(l, h') := alloc_layer m h in
        mock_layers C projectable rest (<[name := l]> pl, <[name := s]> states, h')
      else if has_mock (layer_at h lay) then
        m ← mock_other C (layer_at h lay);
        let '(l, h') := alloc_layer m h in
        mock_layers C projectable rest (<[name := l]> pl, states, h')
      else mock_layers C projectable rest b
  end.

(** [for name in names: projection_layers[name] = wrap(projection_layers[name])] *)
Fixpoint wrap_layers (wrap : loc → heap → outcome (loc * heap))
    (names : list string) (pl : gmap string loc) (h : heap)
    : outcome (gmap string loc * heap) :=
  match names with
  | [] => Ok (pl, h)
  | name :: rest =>
      match pl !! name with
      | None => raise KeyError name
      | Some l =>
          '(l', h') ← wrap l h;
          wrap_layers wrap rest (<[name := l']> pl) h'
      end
  end.

(** Lines 117-134: the tracer graph and the recorded projection states. *)
Definition build_tracer_graph (C : collaborators) (dsk : HighLevelGraph) (h : heap)
    : outcome (HighLevelGraph * gmap string nat * heap) :=
  '(pl, states, h1) ←
    mock_layers C (_projectable_input_layer_names dsk h)
      (map_to_list (layers dsk)) (layers dsk, ∅, h);
  '(pl, h2) ← wrap_layers _mock_output (_ak_output_layer_names dsk h) pl h1;
  '(pl, h3) ← wrap_layers _touch_and_call (_opt_touch_all_layer_names dsk h) pl h2;
  Ok (mkHLG pl (dependencies dsk), states, h3).

(** The task stored under [k] by layer [name] of the tracer graph. *)
Definition tracer_task (C : collaborators) (dsk : HighLevelGraph) (h : heap)
    (name k : string) : option task :=
  match build_tracer_graph C dsk h with
  | Ok (hlg, _, h') =>
      match layers hlg !! name with
      | Some l => layer_dsk (layer_at h' l) !! k
      | None => None
      end
  | _ => None
  end.

(** [[(k, 0) for k, v in dsk.dependents.items() if ... len(v) == 0]] *)
Definition leaf_layers_keys (dsk : HighLevelGraph) : list (string * nat) :=
  let deps := dependencies dsk in
  map (λ k, (k, 0))
      (filter (λ k, dependents_of deps k = ∅) (elements (dom deps ∪ referenced deps))).

(** [layer.__dict__.pop("_cached_dict", None)] for every layer of [hlg] *)
Definition pop_cached_dicts (hlg : HighLevelGraph) (h : heap) : heap :=
  foldl (λ h (nv : string * loc), update_layer nv.2 del_cached_dict h) h
        (map_to_list (layers hlg)).

(** [ak.typetracer.touch_data(out)] for the array and record results *)
Definition touch_results (results : list pyresult) : list nat :=
  omap (λ r, match r with RArray i | RRecord i => Some i | ROther _ => None end) results.

(** The body of [try:] (lines 153-158): the store after it, and either the
    touch report or the exception raised. *)
Definition try_body (C : collaborators) (hlg : HighLevelGraph)
    (keys : list (string * nat)) (h : heap) : heap * outcome (list nat) :=
  let h1 := pop_cached_dicts hlg h in
  (h1, '(results, report) ← get_sync C hlg h1 keys; Ok (report ++ touch_results results)).

(** [layers[name] = layers[name].project(state)] for every recorded state *)
Fixpoint project_layers (C : collaborators) (report : list nat)
    (items : list (string * nat)) (lys : gmap string loc) (h : heap)
    : outcome (gmap string loc * heap) :=
  match items with
  | [] => Ok (lys, h)
  | (name, state) :: rest =>
      match lys !! name with
      | None => raise KeyError name
      | Some l =>
          p ← project C (layer_at h l) state report;
          let '(l', h') := alloc_layer p h in
          project_layers C report rest (<[name := l']> lys) h'
      end
  end.

(** The [except Exception as err:] handler (lines 160-177). *)
Definition on_failure (on_fail : string) (err : exn) (dsk : HighLevelGraph)
    (st : run_state) : outcome HighLevelGraph * run_state :=
  if String.eqb on_fail "warn" then
    (Ok dsk,
     mkRun (st_heap st)
       (st_warnings st ++ [COLUMN_OPT_FAILED_WARNING_MSG (type_repr err) (exn_str err)])
       (st_debug st) (st_evals st))
  else if String.eqb on_fail "pass" then
    (Ok dsk,
     mkRun (st_heap st) (st_warnings st) (st_debug st ++ [PASS_DEBUG_MSG]) (st_evals st))
  else if String.eqb on_fail "raise" then (Raise err, st)
  else (raise ValueError (invalid_on_fail_msg on_fail), st).

(** [on_fail] is the value of the configuration key
    [awkward.optimization.on-fail], read when the handler runs. *)
Definition optimize_columns (C : collaborators) (on_fail : string)
    (dsk : HighLevelGraph) (st : run_state) : outcome HighLevelGraph * run_state :=
  let h := st_heap st in
  if negb (_has_projectable_awkward_io_layer dsk h) then (Ok dsk, st)
  else
    match build_tracer_graph C dsk h with
    | Raise e => (Raise e, st)
    | OutOfFuel => (OutOfFuel, st)
    | Ok (hlg, states, h1) =>
        let keys := leaf_layers_keys dsk in
        let '(h2, r) := try_body C hlg keys h1 in
        let st2 := mkRun h2 (st_warnings st) (st_debug st) (st_evals st ++ [keys]) in
        match r with
        | Raise err =>
            if is_Exception err then on_failure on_fail err dsk st2
            else (Raise err, st2)
        | OutOfFuel => (OutOfFuel, st2)
        | Ok report =>
            match project_layers C report (map_to_list states) (layers dsk) h2 with
            | Ok (lys, h3) => (Ok (mkHLG lys (dependencies dsk)), with_heap h3 st2)
            | Raise e => (Raise e, st2)
            | OutOfFuel => (OutOfFuel, st2)
            end
        end
    end.

(** ** The dispatcher: [optimize] *)

(** The configuration read by the passes: [awkward.optimization.enabled],
    [awkward.optimization.which] (a list of pass names) and
    [awkward.optimization.on-fail]. *)
Record config := mkConfig {
  cfg_enabled : bool;
  cfg_which : list string;
  cfg_on_fail : string;
}.

(** [pop_order] gives, for the graph handed to the fusion pass, the order in
    which [pop] delivers the elements of [set(dsk.layers)]. The argument
    [keys] is not used by the code. When fusion raises, the state reported
    is the one before fusion: the store a failed fusion leaves behind is not
    tracked. *)
Definition optimize (C : collaborators) (layer_len : Layer → nat)
    (pop_order : HighLevelGraph → list string) (cfg : config)
    (dsk : HighLevelGraph) (st : run_state) : outcome HighLevelGraph * run_state :=
  if cfg_enabled cfg then
    let '(r, st1) :=
      if bool_decide ("columns" ∈ cfg_which cfg)
      then optimize_columns C (cfg_on_fail cfg) dsk st
      else (Ok dsk, st) in
    match r with
    | Ok dsk1 =>
        if bool_decide ("layer-chains" ∈ cfg_which cfg) then
          match rewrite_layer_chains layer_len (pop_order dsk1) dsk1 (st_heap st1) with
          | Ok (dsk2, h2) => (Ok dsk2, with_heap h2 st1)
          | Raise e => (Raise e, st1)
          | OutOfFuel => (OutOfFuel, st1)
          end
        else (Ok dsk1, st1)
    | Raise e => (Raise e, st1)
    | OutOfFuel => (OutOfFuel, st1)
    end
  else (Ok dsk, st).

(** ** [_buffer_keys_for_layer] *)

(** [{k for k in buffer_keys if k in known_buffer_keys}] *)
Definition _buffer_keys_for_layer (buffer_keys : list string)
    (known_buffer_keys : gset string) : gset string :=
  list_to_set (filter (λ k, k ∈ known_buffer_keys) buffer_keys).

(** ** Concrete graphs *)

Module Ex.

(** A Blockwise layer with the given slots, block counts, [io_deps]
    reference and task template. *)
Definition blockwise (ix : list slot) (nb : list (key * list (option nat)))
    (d : loc) (t : gmap string task) : Layer :=
  mkLayer false true false true false None ix nb d t ["i"] None None (Some 7).

Definition tok (n : nat) : pyarg := AStr (blockwise_token n).

(** Every layer has three partitions. *)
Definition len3 (_ : Layer) : nat := 3.


(** [A -> B]: [B] reads [A], a literal and an external collection [ext], and
    carries one [io_deps] entry. *)
Definition LA : Layer :=
  blockwise [(KStr "src", Some ["i"])] [(KStr "src", [Some 3])] 0
    {[ "A" := [AFunc (Fn_user 1); tok 0] ]}.

Definition LB : Layer :=
  blockwise [(KStr "A", Some ["i"]); (KObj 5, None); (KStr "ext", Some ["i"])]
    [(KStr "A", [Some 3]); (KStr "ext", [Some 3])] 1
    {[ "B" := [AFunc (Fn_user 2); tok 0; AList [tok 1; tok 2]; AStr "lit"] ]}.

Definition h_chain : heap :=
  mkHeap (<[0 := LA]> (<[1 := LB]> ∅)) (<[0 := ∅]> (<[1 := {[ "k" := 9 ]}]> ∅)).

Definition g_chain : HighLevelGraph :=
  mkHLG (<["A" := 0]> (<["B" := 1]> ∅)) (<["A" := ∅]> (<["B" := {["A"]}]> ∅)).

(** Fan-out: [B] and [C] both read [A]. *)
Definition LC : Layer :=
  blockwise [(KStr "A", Some ["i"])] [(KStr "A", [Some 3])] 2
    {[ "C" := [AFunc (Fn_user 3); tok 0] ]}.

Definition LB1 : Layer :=
  blockwise [(KStr "A", Some ["i"])] [(KStr "A", [Some 3])] 1
    {[ "B" := [AFunc (Fn_user 2); tok 0] ]}.

Definition h_fan : heap :=
  mkHeap (<[0 := LA]> (<[1 := LB1]> (<[2 := LC]> ∅)))
         (<[0 := ∅]> (<[1 := ∅]> (<[2 := ∅]> ∅))).

Definition g_fan : HighLevelGraph :=
  mkHLG (<["A" := 0]> (<["B" := 1]> (<["C" := 2]> ∅)))
        (<["A" := ∅]> (<["B" := {["A"]}]> (<["C" := {["A"]}]> ∅))).

(** A chain head without any partitioned block count. *)
Definition LA_lit : Layer :=
  blockwise [(KObj 4, None)] [] 0 {[ "A" := [AFunc (Fn_user 1); tok 0] ]}.

Definition h_lit : heap :=
  mkHeap (<[0 := LA_lit]> (<[1 := LB1]> ∅)) (<[0 := ∅]> (<[1 := ∅]> ∅)).

(** A projectable input layer [src] read by an output layer [out]. *)
Definition L_src : Layer :=
  mkLayer true true true true false None
    [(KStr "io", Some ["i"])] [(KStr "io", [Some 3])] 0
    {[ "src" := [AFunc (Fn_user 10); tok 0] ]} ["i"] (Some [1; 2; 3]) None None.

Definition ak_output_ann : option (gmap string bool) := Some {[ "ak_output" := true ]}.

Definition L_out : Layer :=
  mkLayer false true false false false ak_output_ann
    [(KStr "src", Some ["i"])] [(KStr "src", [Some 3])] 1
    {[ "out" := [AFunc (Fn_user 7); tok 0] ]} ["i"] None None (Some 5).

(** An output layer holding two tasks. *)
Definition L_out2 : Layer :=
  mkLayer false false false false false ak_output_ann [] [] 1
    {[ "out-0" := [AFunc (Fn_user 7); AStr "src"];
       "out-1" := [AFunc (Fn_user 7); AStr "src"] ]} [] None None None.

Definition g_io : HighLevelGraph :=
  mkHLG (<["src" := 0]> (<["out" := 1]> ∅)) (<["src" := ∅]> (<["out" := {["src"]}]> ∅)).

Definition h_io : heap :=
  mkHeap (<[0 := L_src]> (<[1 := L_out]> ∅)) (<[0 := ∅]> (<[1 := ∅]> ∅)).

Definition h_io2 : heap :=
  mkHeap (<[0 := L_src]> (<[1 := L_out2]> ∅)) (<[0 := ∅]> (<[1 := ∅]> ∅)).

(** A layer of another kind, without [mock], holding a cached task dict. *)
Definition L_plain : Layer :=
  mkLayer false false false false false None [] [] 1
    {[ "out" := [AFunc (Fn_user 7); AStr "src"] ]} [] None None (Some 5).

Definition h_io3 : heap :=
  mkHeap (<[0 := L_src]> (<[1 := L_plain]> ∅)) (<[0 := ∅]> (<[1 := ∅]> ∅)).

Definition run0 (h : heap) : run_state := mkRun h [] [] [].

(** Collaborators that mock and project a layer as itself; the evaluator
    returns one array. *)
Definition C_ok : collaborators :=
  mkCollab (λ v, Ok (v, 0)) (λ v, Ok v) (λ v _ _, Ok v) (λ _ _ _, Ok ([RArray 1], [])).

(** The same, with an evaluator that fails. *)
Definition boom : exn := mk_exn (UserException "TypeError") "bad operand".

Definition C_fail : collaborators :=
  mkCollab (λ v, Ok (v, 0)) (λ v, Ok v) (λ v _ _, Ok v) (λ _ _ _, Raise boom).

End Ex.

(** * Properties *)

(** ** Generalities on results *)

Lemma bind_Ok {A B} (m : outcome A) (f : A → outcome B) (b : B) :
  m ≫= f = Ok b ↔ ∃ a, m = Ok a ∧ f a = Ok b.
Proof.
  destruct m as [a| |]; simpl; split.
  - eauto.
  - by intros (a' & [= <-] & ?).
  - done.
  - by intros (? & ? & ?).
  - done.
  - by intros (? & ? & ?).
Qed.

Lemma bind_not_fuel {A B} (m : outcome A) (f : A → outcome B) :
  m ≠ OutOfFuel → (∀ a, m = Ok a → f a ≠ OutOfFuel) → m ≫= f ≠ OutOfFuel.
Proof. destruct m; simpl; auto. Qed.

Ltac inv_bind H :=
  repeat match type of H with
  | (_ ≫= _) = Ok _ =>
      let a := fresh "r" in
      let E := fresh "E" in
      apply bind_Ok in H; destruct H as (a & E & H)
  end.

(** ** Argument rewriting *)

(** The loop nested in [_recursive_replace_arg] is the loop of
    [_recursive_replace]. *)
Lemma nested_loop_eq layer parent (l args2 : list pyarg) (ix : list slot) :
  (fix loop (args args2 : list pyarg) (indices : list slot)
     : outcome (list pyarg * list slot) :=
     match args with
     | [] => Ok (args2, indices)
     | a :: rest =>
         '(a2, indices') ← _recursive_replace_arg layer parent a indices;
         loop rest (args2 ++ [a2]) indices'
     end) l args2 ix
  = replace_loop layer parent l args2 ix.
Proof.
  revert args2 ix. induction l as [|a l IH]; intros args2 ix; simpl; [done|].
  destruct (_recursive_replace_arg layer parent a ix) as [[a2 i']| |]; simpl; auto.
Qed.



Lemma recursive_replace_list layer parent l ix :
  _recursive_replace_arg layer parent (AList l) ix =
    '(l2, i') ← _recursive_replace l layer parent ix; Ok (AList l2, i').
Proof. unfold _recursive_replace. simpl. by rewrite nested_loop_eq. Qed.

Lemma recursive_replace_tuple layer parent l ix :
  _recursive_replace_arg layer parent (ATuple l) ix =
    '(l2, i') ← _recursive_replace l layer parent ix; Ok (ATuple l2, i').
Proof. unfold _recursive_replace. simpl. by rewrite nested_loop_eq. Qed.

Lemma recursive_replace_str layer parent s ix :
  _recursive_replace_arg layer parent (AStr s) ix =
    if startswith s TOKEN_PREFIX then
      match python_int (string_drop 18 s) with
      | None => raise ValueError "invalid literal for int() with base 10"
      | Some ind =>
          match py_index (layer_indices layer) ind with
          | None => raise IndexError "tuple index out of range"
          | Some (name, None) => Ok (arg_of_key name, ix)
          | Some (name, Some ax) =>
              if key_is name parent then Ok (AStr parent, ix)
              else Ok (AStr (blockwise_token (length (ix ++ [(name, Some ax)]) - 1)),
                       ix ++ [(name, Some ax)])
          end
      end
    else Ok (AStr s, ix).
Proof. reflexivity. Qed.




(** ** The store only grows *)

Arguments alloc_layer : simpl never.
Arguments alloc_dict : simpl never.
Arguments copy_copy : simpl never.
Arguments deepcopy : simpl never.
Arguments update_layer : simpl never.
Arguments dict_setitem : simpl never.

(** Every object of [h] is in [h'], unchanged. *)
Definition heap_ext (h h' : heap) : Prop :=
  layer_objs h ⊆ layer_objs h' ∧ dict_objs h ⊆ dict_objs h'.

#[global] Instance heap_ext_refl : Reflexive heap_ext.
Proof. by intros h; split. Qed.

#[global] Instance heap_ext_trans : Transitive heap_ext.
Proof. intros h1 h2 h3 [? ?] [? ?]; split; by etrans. Qed.

Lemma alloc_layer_fresh v h l h' :
  alloc_layer v h = (l, h') →
  layer_objs h !! l = None ∧ layer_objs h' = <[l := v]> (layer_objs h)
  ∧ dict_objs h' = dict_objs h.
Proof.
  intros [= <- <-]. simpl. split_and!; try done.
  apply not_elem_of_dom, is_fresh.
Qed.

Lemma alloc_layer_ext v h l h' : alloc_layer v h = (l, h') → heap_ext h h'.
Proof.
  intros H. apply alloc_layer_fresh in H as (Hf & Hl & Hd).
  split; [rewrite Hl; by apply insert_subseteq|by rewrite Hd].
Qed.

Lemma alloc_dict_ext d h l h' : alloc_dict d h = (l, h') → heap_ext h h'.
Proof.
  intros [= <- <-]. split; simpl; [done|].
  apply insert_subseteq, not_elem_of_dom, is_fresh.
Qed.

Lemma heap_ext_layer_at h h' l v :
  heap_ext h h' → layer_objs h !! l = Some v → layer_at h' l = v.
Proof.
  intros [Hs _] Hl. unfold layer_at.
  by rewrite (lookup_total_correct _ _ _ (lookup_weaken _ _ _ _ Hl Hs)).
Qed.

(** Updating an object that [h] does not hold keeps the extension. *)
Lemma update_layer_ext_fresh h h' l f :
  heap_ext h h' → layer_objs h !! l = None → heap_ext h (update_layer l f h').
Proof.
  intros [Hs Hd] Hn. split; simpl; [|done].
  apply map_subseteq_spec. intros i x Hi.
  rewrite lookup_alter_ne by congruence.
  by eapply lookup_weaken.
Qed.

Lemma deepcopy_ext l h l' h' :
  deepcopy l h = (l', h') → heap_ext h h' ∧ layer_objs h !! l' = None.
Proof.
  unfold deepcopy. destruct (alloc_dict _ h) as [d h1] eqn:Hd.
  intros Ha. pose proof (alloc_dict_ext _ _ _ _ Hd) as He1.
  pose proof (alloc_layer_ext _ _ _ _ Ha) as He2.
  apply alloc_layer_fresh in Ha as (Hf & _ & _).
  split; [by etrans|].
  injection Hd as <- <-. done.
Qed.

Lemma mock_output_ext l h l' h' : _mock_output l h = Ok (l', h') → heap_ext h h'.
Proof.
  unfold _mock_output. case_match; [done|].
  destruct (deepcopy l h) as [nl h1] eqn:Hd. intros [= <- <-].
  apply deepcopy_ext in Hd as [He Hf]. by apply update_layer_ext_fresh.
Qed.

Lemma touch_and_call_ext l h l' h' : _touch_and_call l h = Ok (l', h') → heap_ext h h'.
Proof.
  unfold _touch_and_call. case_match; [done|].
  destruct (deepcopy l h) as [nl h1] eqn:Hd. intros [= <- <-].
  apply deepcopy_ext in Hd as [He Hf]. by apply update_layer_ext_fresh.
Qed.

Lemma wrap_layers_ext wrap names pl h pl' h' :
  (∀ l h l' h', wrap l h = Ok (l', h') → heap_ext h h') →
  wrap_layers wrap names pl h = Ok (pl', h') → heap_ext h h'.
Proof.
  intros Hw. revert pl h. induction names as [|n names IH]; intros pl h; simpl.
  - by intros [= <- <-].
  - destruct (pl !! n) as [l|]; [|done]. intros H.
    apply bind_Ok in H as ([l1 h1] & E & H).
    etrans; [by eapply Hw|by eapply IH].
Qed.

Lemma mock_layers_ext C proj items pl states h pl' states' h' :
  mock_layers C proj items (pl, states, h) = Ok (pl', states', h') → heap_ext h h'.
Proof.
  revert pl states h. induction items as [|[name lay] items IH]; intros pl states h; simpl.
  - by intros [= <- <- <-].
  - case_bool_decide.
    + intros Hm. apply bind_Ok in Hm as ([m s] & E & Hm).
      etrans; [exact (alloc_layer_ext m h _ _ eq_refl)|by eapply IH].
    + destruct (has_mock (layer_at h lay)); [|by apply IH].
      intros Hm. apply bind_Ok in Hm as (m & E & Hm).
      etrans; [exact (alloc_layer_ext m h _ _ eq_refl)|by eapply IH].
Qed.

Lemma build_tracer_graph_ext C dsk h hlg states h' :
  build_tracer_graph C dsk h = Ok (hlg, states, h') → heap_ext h h'.
Proof.
  unfold build_tracer_graph. intros H.
  apply bind_Ok in H as ([[pl1 st1] h1] & E1 & H).
  apply bind_Ok in H as ([pl2 h2] & E2 & H).
  apply bind_Ok in H as ([pl3 h3] & E3 & H).
  injection H as <- <- <-.
  etrans; [by eapply mock_layers_ext|].
  etrans; [eapply wrap_layers_ext; [apply mock_output_ext|done]|].
  eapply wrap_layers_ext; [apply touch_and_call_ext|done].
Qed.

(** Dropping cached task dictionaries changes no other attribute of any
    layer and no dict. *)
Definition same_but_cache (h h' : heap) : Prop :=
  dict_objs h' = dict_objs h ∧
  ∀ l, layer_objs h' !! l = layer_objs h !! l
     ∨ layer_objs h' !! l = del_cached_dict <$> layer_objs h !! l.

Lemma del_cached_dict_idemp v : del_cached_dict (del_cached_dict v) = del_cached_dict v.
Proof. done. Qed.

Lemma layer_objs_update l f h :
  layer_objs (update_layer l f h) = alter f l (layer_objs h).
Proof. done. Qed.

Lemma dict_objs_update l f h : dict_objs (update_layer l f h) = dict_objs h.
Proof. done. Qed.

Lemma pop_cached_dicts_same hlg h : same_but_cache h (pop_cached_dicts hlg h).
Proof.
  unfold pop_cached_dicts.
  induction (map_to_list (layers hlg)) as [|[n l] items IH] using rev_ind; simpl.
  - split; [done|]. intros l; by left.
  - rewrite foldl_app. simpl. destruct IH as [Hd Hl].
    split; [by rewrite dict_objs_update|].
    intros l'. rewrite layer_objs_update. destruct (decide (l = l')) as [->|Hne].
    + rewrite lookup_alter_eq. destruct (Hl l') as [->| ->].
      * by right.
      * right. destruct (layer_objs h !! l'); simpl; [|done].
        by rewrite del_cached_dict_idemp.
    + rewrite lookup_alter_ne by done. apply Hl.
Qed.

(** ** Column projection: fast path and failure policy *)

Lemma has_projectable_false dsk h :
  (∀ name l, layers dsk !! name = Some l →
     ¬ (isinstance_AwkwardInputLayer (layer_at h l) = true
        ∧ is_projectable (layer_at h l) = true)) →
  _has_projectable_awkward_io_layer dsk h = false.
Proof.
  intros Hno. unfold _has_projectable_awkward_io_layer.
  apply not_true_is_false. intros Hex.
  apply existsb_exists in Hex as ([name l] & Hin & Hp).
  apply list_elem_of_In, elem_of_map_to_list in Hin.
  apply (Hno name l Hin). unfold is_projectable_input in Hp. simpl in Hp.
  by apply andb_true_iff in Hp.
Qed.

(** C7. When no layer of the graph is both an [AwkwardInputLayer] and
    projectable, [optimize_columns] returns the graph it was given (same
    layers, same dependencies) and leaves the whole run state as it was:
    nothing is allocated or rewritten, no warning or log entry is issued and
    the evaluator is never called. *)
Theorem C7_no_projectable_layer_is_noop (C : collaborators) (on_fail : string)
    (dsk : HighLevelGraph) (st : run_state) :
  (∀ name l, layers dsk !! name = Some l →
     ¬ (isinstance_AwkwardInputLayer (layer_at (st_heap st) l) = true
        ∧ is_projectable (layer_at (st_heap st) l) = true)) →
  optimize_columns C on_fail dsk st = (Ok dsk, st).
Proof.
  intros Hno. unfold optimize_columns.
  by rewrite (has_projectable_false _ _ Hno).
Qed.

Lemma C7_noop_on_chain :
  optimize_columns Ex.C_fail "raise" Ex.g_chain (Ex.run0 Ex.h_chain)
  = (Ok Ex.g_chain, Ex.run0 Ex.h_chain).
Proof.
  apply C7_no_projectable_layer_is_noop.
  intros name l Hl [Hi _]. revert Hi. simpl.
  unfold Ex.g_chain in Hl. simpl in Hl.
  apply lookup_insert_Some in Hl as [[_ <-]|[_ Hl]]; [done|].
  apply lookup_insert_Some in Hl as [[_ <-]|[_ Hl]]; [done|].
  by rewrite lookup_empty in Hl.
Defined.

(** What [optimize_columns] does once the tracer graph is built. *)
Lemma optimize_columns_built C on_fail dsk st hlg states h1 :
  _has_projectable_awkward_io_layer dsk (st_heap st) = true →
  build_tracer_graph C dsk (st_heap st) = Ok (hlg, states, h1) →
  optimize_columns C on_fail dsk st =
    let keys := leaf_layers_keys dsk in
    let h2 := (try_body C hlg keys h1).1 in
    let st2 := mkRun h2 (st_warnings st) (st_debug st) (st_evals st ++ [keys]) in
    match (try_body C hlg keys h1).2 with
    | Raise err =>
        if is_Exception err then on_failure on_fail err dsk st2 else (Raise err, st2)
    | OutOfFuel => (OutOfFuel, st2)
    | Ok report =>
        match project_layers C report (map_to_list states) (layers dsk) h2 with
        | Ok (lys, h3) => (Ok (mkHLG lys (dependencies dsk)), with_heap h3 st2)
        | Raise e => (Raise e, st2)
        | OutOfFuel => (OutOfFuel, st2)
        end
    end.
Proof.
  intros Hp Hb. unfold optimize_columns. rewrite Hp, Hb. simpl.
  by destruct (try_body C hlg (leaf_layers_keys dsk) h1).
Qed.

(** The layer objects of the input graph after the [try] body: they are the
    objects the graph had, with at most the cached task dictionary dropped,
    and their dicts are untouched. *)
Lemma try_body_frame C dsk h hlg states h1 l v :
  build_tracer_graph C dsk h = Ok (hlg, states, h1) →
  layer_objs h !! l = Some v →
  let h2 := (try_body C hlg (leaf_layers_keys dsk) h1).1 in
  (layer_objs h2 !! l = Some v ∨ layer_objs h2 !! l = Some (del_cached_dict v))
  ∧ dict_objs h ⊆ dict_objs h2.
Proof.
  intros Hb Hl. simpl.
  apply build_tracer_graph_ext in Hb as [Hs Hd].
  destruct (pop_cached_dicts_same hlg h1) as [Hd' Hl'].
  pose proof (lookup_weaken _ _ _ _ Hl Hs) as Hl1.
  split; [|by rewrite Hd'].
  destruct (Hl' l) as [->| ->]; rewrite Hl1; auto.
Qed.




Example warning_text :
  COLUMN_OPT_FAILED_WARNING_MSG "<class 'TypeError'>" "bad operand" =
  "The necessary columns optimization failed; exception raised:" +:+ NL +:+ NL +:+
  "<class 'TypeError'> with message bad operand." +:+ NL +:+ NL +:+
  "Please see the FAQ section of the docs for more information:" +:+ NL +:+
  "https://dask-awkward.readthedocs.io/en/stable/more/faq.html" +:+ NL +:+ NL.
Proof. reflexivity. Qed.

(** Exceptions outside [Exception] are not handled at all. *)
Lemma base_exception_propagates C on_fail dsk st hlg states h1 err :
  _has_projectable_awkward_io_layer dsk (st_heap st) = true →
  build_tracer_graph C dsk (st_heap st) = Ok (hlg, states, h1) →
  (try_body C hlg (leaf_layers_keys dsk) h1).2 = Raise err →
  is_Exception err = false →
  (optimize_columns C on_fail dsk st).1 = Raise err.
Proof.
  intros Hp Hb Ht He.
  rewrite (optimize_columns_built C on_fail dsk st hlg states h1 Hp Hb).
  cbv zeta. by rewrite Ht, He.
Qed.

(** C10, as the code has it. The configured value is read only inside the
    handler: when the [try] body raises an [Exception] and the value is
    none of ['warn'], ['pass'], ['raise'], the pass raises a [ValueError]
    whose message quotes the value and lists the three valid options. *)
Theorem C10_invalid_on_fail_value (C : collaborators) (on_fail : string)
    (dsk : HighLevelGraph) (st : run_state) hlg states h1 (err : exn) :
  _has_projectable_awkward_io_layer dsk (st_heap st) = true →
  build_tracer_graph C dsk (st_heap st) = Ok (hlg, states, h1) →
  (try_body C hlg (leaf_layers_keys dsk) h1).2 = Raise err →
  is_Exception err = true →
  on_fail ≠ "warn" → on_fail ≠ "pass" → on_fail ≠ "raise" →
  (optimize_columns C on_fail dsk st).1 =
    Raise (mk_exn ValueError
             ("Invalid awkward.optimization.on-fail option: " +:+ on_fail +:+ "."
              +:+ NL +:+ "Valid options are 'warn', 'pass', or 'raise'.")).
Proof.
  intros Hp Hb Ht He Hw Hpa Hr.
  rewrite (optimize_columns_built C on_fail dsk st hlg states h1 Hp Hb).
  cbv zeta. rewrite Ht, He. unfold on_failure.
  apply String.eqb_neq in Hw, Hpa, Hr. by rewrite Hw, Hpa, Hr.
Qed.

Lemma C10_bogus_value_on_failure :
  (optimize_columns Ex.C_fail "bogus" Ex.g_io (Ex.run0 Ex.h_io)).1 =
    Raise (mk_exn ValueError
             ("Invalid awkward.optimization.on-fail option: bogus." +:+ NL
              +:+ "Valid options are 'warn', 'pass', or 'raise'.")).
Proof.
  destruct (build_tracer_graph Ex.C_fail Ex.g_io Ex.h_io)
    as [[[hlg states] h1]|e|] eqn:Hb;
    [|vm_compute in Hb; discriminate Hb..].
  apply (C10_invalid_on_fail_value Ex.C_fail "bogus" Ex.g_io (Ex.run0 Ex.h_io)
           hlg states h1 Ex.boom).
  - vm_compute. reflexivity.
  - exact Hb.
  - reflexivity.
  - reflexivity.
  - discriminate.
  - discriminate.
  - discriminate.
Defined.

(** C10, as stated, fails when nothing goes wrong: with an invalid value and
    a successful evaluation the pass returns the projected graph. *)
Lemma C10_invalid_value_unnoticed :
  "bogus" ≠ "warn" ∧ "bogus" ≠ "pass" ∧ "bogus" ≠ "raise"
  ∧ _has_projectable_awkward_io_layer Ex.g_io Ex.h_io = true
  ∧ (optimize_columns Ex.C_ok "bogus" Ex.g_io (Ex.run0 Ex.h_io)).1
    = Ok (mkHLG (<["src" := 4]> (layers Ex.g_io)) (dependencies Ex.g_io)).
Proof. split_and!; try discriminate; vm_compute; reflexivity. Qed.

(** C2 fails on the code. Fusing [A -> B] stores [B]'s [io_deps] entry in
    the dict of the input layer [A]: that dict was empty before the pass and
    holds the entry afterwards, while [A] is still the layer object of the
    given graph. *)
Lemma C2_io_deps_of_chain_head_mutated :
  layers Ex.g_chain !! "A" = Some 0
  ∧ io_deps (layer_at Ex.h_chain 0) = 0
  ∧ dict_at Ex.h_chain 0 !! "k" = None
  ∧ match rewrite_layer_chains Ex.len3 ["A"; "B"] Ex.g_chain Ex.h_chain with
    | Ok (_, h') => io_deps (layer_at h' 0) = 0 ∧ dict_at h' 0 !! "k" = Some 9
    | _ => False
    end.
Proof. vm_compute. done. Qed.

(** In [optimize_columns], a layer that is neither mocked nor wrapped is
    shared between the given graph and the tracer graph, and loses its
    cached task dictionary in place. *)
Lemma cached_dict_dropped_in_place :
  _cached_dict (layer_at Ex.h_io3 1) = Some 5
  ∧ _cached_dict
      (layer_at (st_heap (optimize_columns Ex.C_ok "warn" Ex.g_io (Ex.run0 Ex.h_io3)).2) 1)
    = None.
Proof. vm_compute. done. Qed.

(** ** Output layers in the tracer graph *)

Lemma layer_at_update_eq l f h v :
  layer_objs h !! l = Some v → layer_at (update_layer l f h) l = f v.
Proof.
  intros Hl. unfold layer_at. rewrite layer_objs_update.
  apply lookup_total_correct. by rewrite lookup_alter_eq, Hl.
Qed.

Lemma layer_at_update_ne l l' f h :
  l ≠ l' → layer_at (update_layer l f h) l' = layer_at h l'.
Proof.
  intros. unfold layer_at. rewrite layer_objs_update.
  by apply lookup_total_alter_ne.
Qed.

Lemma deepcopy_spec l h l' h' :
  deepcopy l h = (l', h') →
  ∃ d, dict_objs h !! d = None
     ∧ layer_objs h' !! l' = Some (set_io_deps d (layer_at h l))
     ∧ dict_objs h' !! d = Some (dict_at h (io_deps (layer_at h l))).
Proof.
  unfold deepcopy. destruct (alloc_dict _ h) as [d h1] eqn:Hd. intros Ha.
  exists d. injection Hd as <- <-. injection Ha as <- <-. simpl. split_and!.
  - apply not_elem_of_dom, is_fresh.
  - by rewrite lookup_insert_eq.
  - by rewrite lookup_insert_eq.
Qed.

(** [_mock_output] on a layer: the result is a new object, the layer held
    one task, and in the copy every task has [_touch_all_data] in place of
    its callable, in front of the same arguments. *)
Lemma mock_output_spec l h l' h' :
  _mock_output l h = Ok (l', h') →
  layer_objs h !! l' = None
  ∧ is_Some (layer_objs h' !! l')
  ∧ size (layer_dsk (layer_at h l)) = 1
  ∧ layer_dsk (layer_at h' l') =
      (λ t : task, AFunc Fn_touch_all_data :: tail t) <$> layer_dsk (layer_at h l).
Proof.
  unfold _mock_output.
  destruct (size (layer_dsk (layer_at h l)) =? 1)%nat eqn:Hs; cbn [negb]; [|done].
  destruct (deepcopy l h) as [nl h1] eqn:Hd. intros [= <- <-].
  pose proof (deepcopy_ext _ _ _ _ Hd) as [He Hf].
  apply deepcopy_spec in Hd as (d & _ & Hnl & _).
  split_and!.
  - done.
  - rewrite layer_objs_update, lookup_alter_eq, Hnl. by eexists.
  - by apply Nat.eqb_eq.
  - rewrite (layer_at_update_eq _ _ _ _ Hnl).
    assert (layer_at h1 nl = set_io_deps d (layer_at h l)) as ->; [|done].
    unfold layer_at at 1. by rewrite (lookup_total_correct _ _ _ Hnl).
Qed.

Lemma wrap_layers_notin wrap names pl h pl' h' name :
  name ∉ names →
  wrap_layers wrap names pl h = Ok (pl', h') → pl' !! name = pl !! name.
Proof.
  revert pl h. induction names as [|n names IH]; intros pl h Hn; simpl.
  - by intros [= <- <-].
  - apply not_elem_of_cons in Hn as [Hne Hn].
    destruct (pl !! n) as [l|]; [|done]. intros H.
    apply bind_Ok in H as ([l1 h1] & E & H).
    rewrite (IH _ _ Hn H). by rewrite lookup_insert_ne.
Qed.

(** A name that is wrapped: the object it had before the loop is wrapped in
    some later store, and the loop leaves the wrapper under that name. *)
Lemma wrap_layers_in wrap names pl h pl' h' name :
  (∀ l h l' h', wrap l h = Ok (l', h') → heap_ext h h') →
  NoDup names → name ∈ names →
  wrap_layers wrap names pl h = Ok (pl', h') →
  ∃ l ha l' hb,
    pl !! name = Some l ∧ heap_ext h ha ∧ wrap l ha = Ok (l', hb)
    ∧ heap_ext hb h' ∧ pl' !! name = Some l'.
Proof.
  intros Hw. revert pl h. induction names as [|n names IH]; intros pl h Hnd Hin; simpl.
  - by apply elem_of_nil in Hin.
  - apply NoDup_cons in Hnd as [Hn Hnd].
    destruct (pl !! n) as [l|] eqn:Hl; [|done]. intros H.
    apply bind_Ok in H as ([l1 h1] & E & H).
    apply elem_of_cons in Hin as [->|Hin].
    + exists l, h, l1, h1. split_and!; try done.
      * by eapply wrap_layers_ext.
      * rewrite (wrap_layers_notin _ _ _ _ _ _ _ Hn H). by rewrite lookup_insert_eq.
    + destruct (IH _ _ Hnd Hin H) as (l0 & ha & l' & hb & Hp & Hea & Hwr & Heb & Hp').
      exists l0, ha, l', hb. split_and!; try done.
      * rewrite lookup_insert_ne in Hp; [done|]. intros ->. done.
      * etrans; [by eapply Hw|done].
Qed.

Lemma NoDup_fst_filter {A B} (P : A * B → Prop) `{!∀ x, Decision (P x)}
    (l : list (A * B)) :
  NoDup (map fst l) → NoDup (map fst (filter P l)).
Proof.
  induction l as [|x l IH]; simpl; [done|].
  intros Hnd. apply NoDup_cons in Hnd as [Hx Hnd].
  rewrite filter_cons. case_decide; simpl; [|by apply IH].
  apply NoDup_cons. split; [|by apply IH].
  intros Hin. apply Hx.
  apply list_elem_of_fmap in Hin as (y & -> & Hy).
  apply list_elem_of_fmap. exists y. split; [done|].
  by apply list_elem_of_filter in Hy as [_ ?].
Qed.

Lemma ak_output_names_NoDup dsk h : NoDup (_ak_output_layer_names dsk h).
Proof. apply NoDup_fst_filter, NoDup_fst_map_to_list. Qed.

(** C6, as the code has it. For every layer annotated with a truthy
    ['ak_output'] (and without the touch-all marker), the tracer graph holds,
    under the same name, a new copy of the layer as it was after mocking;
    the layer held exactly one task, and the copy's task has [_touch_all_data]
    in place of the original callable, in front of the original arguments.
    Running it touches each of those arguments and calls nothing else. *)
Theorem C6_output_layer_touches_its_arguments (C : collaborators)
    (dsk : HighLevelGraph) (h : heap) hlg states h' (name : string) :
  build_tracer_graph C dsk h = Ok (hlg, states, h') →
  name ∈ _ak_output_layer_names dsk h →
  name ∉ _opt_touch_all_layer_names dsk h →
  ∃ pl1 st1 h1 l ha l',
    mock_layers C (_projectable_input_layer_names dsk h)
      (map_to_list (layers dsk)) (layers dsk, ∅, h) = Ok (pl1, st1, h1)
    ∧ pl1 !! name = Some l
    ∧ heap_ext h1 ha ∧ heap_ext ha h'
    ∧ layers hlg !! name = Some l'
    ∧ layer_objs ha !! l' = None
    ∧ size (layer_dsk (layer_at ha l)) = 1
    ∧ ∀ k t, layer_dsk (layer_at ha l) !! k = Some t →
        layer_dsk (layer_at h' l') !! k = Some (AFunc Fn_touch_all_data :: tail t)
        ∧ run_task (AFunc Fn_touch_all_data :: tail t) = map Touch (tail t).
Proof.
  unfold build_tracer_graph. intros H Hout Hta.
  apply bind_Ok in H as ([[pl1 st1] h1] & E1 & H).
  apply bind_Ok in H as ([pl2 h2] & E2 & H).
  apply bind_Ok in H as ([pl3 h3] & E3 & H).
  injection H as <- <- <-.
  destruct (wrap_layers_in _ _ _ _ _ _ name mock_output_ext
              (ak_output_names_NoDup dsk h) Hout E2)
    as (l & ha & l' & hb & Hl & Hea & Hwr & Heb & Hl').
  exists pl1, st1, h1, l, ha, l'.
  pose proof (mock_output_ext _ _ _ _ Hwr) as Hab.
  pose proof (wrap_layers_ext _ _ _ _ _ _ touch_and_call_ext E3) as H23.
  apply mock_output_spec in Hwr as (Hfresh & [v Hv] & Hsz & Hdsk).
  split_and!; try done.
  - etrans; [done|]. by etrans.
  - simpl. by rewrite (wrap_layers_notin _ _ _ _ _ _ _ Hta E3).
  - intros k t Hk. split; [|done].
    assert (heap_ext hb h3) as Hb3 by by etrans.
    rewrite (heap_ext_layer_at hb h3 l' v Hb3 Hv).
    assert (layer_at hb l' = v) as Hv'.
    { unfold layer_at. by rewrite (lookup_total_correct _ _ _ Hv). }
    rewrite <- Hv', Hdsk, lookup_fmap, Hk. done.
Qed.

Lemma C6_output_layer_of_io_graph :
  tracer_task Ex.C_ok Ex.g_io Ex.h_io "out" "out"
  = Some [AFunc Fn_touch_all_data; Ex.tok 0].
Proof.
  unfold tracer_task.
  destruct (build_tracer_graph Ex.C_ok Ex.g_io Ex.h_io)
    as [[[hlg states] h']|e|] eqn:Hb;
    [|vm_compute in Hb; discriminate Hb..].
  destruct (C6_output_layer_touches_its_arguments Ex.C_ok Ex.g_io Ex.h_io
              hlg states h' "out" Hb)
    as (pl1 & st1 & h1 & l & ha & l' & _ & _ & _ & _ & Hl' & _).
  - vm_compute. apply list_elem_of_here.
  - vm_compute. apply not_elem_of_nil.
  - rewrite Hl'. revert Hb Hl'. vm_compute. intros [= <- <- <-] [= <-]. reflexivity.
Defined.

(** C6, as stated, fails: the task of the output layer [out] calls the
    callable [7] on the first slot, but the task the tracer graph holds for it
    only touches that slot; the original callable is gone, so the original
    result is never computed. *)
Lemma C6_original_callable_is_dropped :
  annotation_truthy Ex.L_out "ak_output" = true
  ∧ run_task [AFunc (Fn_user 7); Ex.tok 0] = [Call 7 [Ex.tok 0]]
  ∧ (run_task <$> tracer_task Ex.C_ok Ex.g_io Ex.h_io "out" "out")
    = Some [Touch (Ex.tok 0)].
Proof. vm_compute. done. Qed.

(** ** The dependents relation *)

Lemma elem_of_referenced deps k :
  k ∈ referenced deps ↔ ∃ d vs, deps !! d = Some vs ∧ k ∈ vs.
Proof.
  unfold referenced. rewrite elem_of_union_list. split.
  - intros (vs & Hvs & Hk). apply list_elem_of_fmap in Hvs as ([d vs'] & -> & Hin).
    apply elem_of_map_to_list in Hin. by exists d, vs'.
  - intros (d & vs & Hd & Hk). exists vs. split; [|done].
    apply list_elem_of_fmap. exists (d, vs). split; [done|].
    by apply elem_of_map_to_list.
Qed.

Lemma elem_of_dependents_of deps k d :
  d ∈ dependents_of deps k ↔ ∃ vs, deps !! d = Some vs ∧ k ∈ vs.
Proof.
  unfold dependents_of. rewrite elem_of_dom. split.
  - intros [vs Hvs]. apply map_lookup_filter_Some in Hvs as [Hd Hk]. by exists vs.
  - intros (vs & Hd & Hk). exists vs. by apply map_lookup_filter_Some.
Qed.

Lemma dependents_Some dsk k s :
  dependents dsk k = Some s →
  s = dependents_of (dependencies dsk) k
  ∧ (k ∈ dom (dependencies dsk) ∨ k ∈ referenced (dependencies dsk)).
Proof.
  unfold dependents. case_decide as Hk; [|done]. intros [= <-].
  split; [done|]. by apply elem_of_union in Hk.
Qed.

Lemma dependents_of_key dsk k :
  is_Some (dependencies dsk !! k) →
  dependents dsk k = Some (dependents_of (dependencies dsk) k).
Proof.
  intros Hk. unfold dependents. rewrite decide_True; [done|].
  apply elem_of_union_l. by apply elem_of_dom.
Qed.

Lemma dependents_of_referenced dsk d vs k :
  dependencies dsk !! d = Some vs → k ∈ vs →
  dependents dsk k = Some (dependents_of (dependencies dsk) k).
Proof.
  intros Hd Hk. unfold dependents. rewrite decide_True; [done|].
  apply elem_of_union_r, elem_of_referenced. eauto.
Qed.

Lemma elements_singleton_inv (s : gset string) (x : string) :
  elements s = [x] → s = {[x]}.
Proof.
  intros He. apply set_eq. intros y.
  rewrite <- elem_of_elements, He, list_elem_of_singleton. set_solver.
Qed.

Lemma elements_gset_singleton (x : string) : elements ({[x]} : gset string) = [x].
Proof. apply elements_singleton. Qed.

(** ** Chains are made of one-to-one edges between Blockwise layers *)

Section chains.

Variable layer_len : Layer → nat.
Variable dsk : HighLevelGraph.
Variable h0 : heap.

(** The layer object a name stands for when the pass starts. *)
Definition layer_of (x : string) : option Layer :=
  l ← layers dsk !! x; layer_objs h0 !! l.

Definition is_blockwise (x : string) : Prop :=
  ∃ v, layer_of x = Some v ∧ isinstance_AwkwardBlockwiseLayer v = true.

(** The edge from [u] to [d] is one-to-one ([d] is the only dependent of [u]
    and [u] the only dependency of [d]), both ends are Blockwise layers, and
    they have the same number of partitions. *)
Definition fusable (u d : string) : Prop :=
  dependents dsk u = Some {[d]}
  ∧ dependencies dsk !! d = Some {[u]}
  ∧ ∃ vu vd, layer_of u = Some vu ∧ layer_of d = Some vd
      ∧ isinstance_AwkwardBlockwiseLayer vu = true
      ∧ isinstance_AwkwardBlockwiseLayer vd = true
      ∧ layer_len vu = layer_len vd.

(** Every pair of consecutive members is a fusable edge. *)
Fixpoint linked (chain : list string) : Prop :=
  match chain with
  | u :: (d :: _) as rest => fusable u d ∧ linked rest
  | _ => True
  end.

(** No reference held by the graph is dangling. *)
Definition graph_allocated : Prop :=
  ∀ x l, layers dsk !! x = Some l → is_Some (layer_objs h0 !! l).

Lemma linked_lookup chain i u d :
  linked chain → chain !! i = Some u → chain !! S i = Some d → fusable u d.
Proof.
  revert i. induction chain as [|a [|b rest] IH]; intros i Hl Hu Hd; try done.
  destruct Hl as [Hab Hl]. destruct i as [|i].
  - simpl in Hu, Hd. by simplify_eq.
  - by eapply IH.
Qed.

Lemma linked_snoc chain u d :
  last chain = Some u → linked chain → fusable u d → linked (chain ++ [d]).
Proof.
  induction chain as [|a [|b rest] IH]; intros Hlast Hl Hf; try done.
  - simpl in *. by simplify_eq.
  - destruct Hl as [Hab Hl]. split; [done|]. by apply IH.
Qed.

Lemma linked_cons p chain u :
  head chain = Some u → linked chain → fusable p u → linked (p :: chain).
Proof. destruct chain as [|a rest]; intros Hh Hl Hf; simpl in *; by simplify_eq. Qed.

Lemma fusable_blockwise u d : fusable u d → is_blockwise u ∧ is_blockwise d.
Proof.
  intros (_ & _ & vu & vd & Hu & Hd & Bu & Bd & _). split; [by exists vu|by exists vd].
Qed.

Section reading.

Variable h : heap.
Hypothesis Hext : layer_objs h0 ⊆ layer_objs h.
Hypothesis Halloc : graph_allocated.

(** Reading a layer of the graph in a later store. *)
Lemma getitem_layers_of x l :
  getitem_layers dsk x = Ok l →
  layers dsk !! x = Some l ∧ layer_of x = Some (layer_at h l).
Proof.
  unfold getitem_layers. destruct (layers dsk !! x) as [l'|] eqn:Hl; [|done].
  intros [= <-]. split; [done|]. unfold layer_of. rewrite Hl. simpl.
  destruct (Halloc _ _ Hl) as [v Hv]. rewrite Hv. f_equal.
  unfold layer_at. symmetry. apply lookup_total_correct.
  by eapply lookup_weaken.
Qed.

Lemma forward_cond_Some lay children c :
  is_blockwise lay → dependents dsk lay = Some children →
  forward_cond layer_len dsk h lay children = Ok (Some c) → fusable lay c.
Proof.
  intros (vl & Hvl & Bl) Hdep. unfold forward_cond.
  destruct (elements children) as [|child [|? ?]] eqn:He; try done.
  apply elements_singleton_inv in He as ->.
  intros Hc. apply bind_Ok in Hc as (ds & Eds & Hc).
  unfold getitem_dependencies in Eds.
  destruct (dependencies dsk !! child) as [ds'|] eqn:Hds; [|done].
  injection Eds as ->. case_bool_decide as Hs; [|done]. subst ds.
  apply bind_Ok in Hc as (lc & Elc & Hc).
  apply getitem_layers_of in Elc as [Hlc Hvc].
  destruct (isinstance_AwkwardBlockwiseLayer (layer_at h lc)) eqn:Bc; [|done].
  apply bind_Ok in Hc as (ll & Ell & Hc).
  apply getitem_layers_of in Ell as [Hll Hvl'].
  destruct (layer_len (layer_at h ll) =? layer_len (layer_at h lc))%nat eqn:Hlen;
    [|done].
  injection Hc as <-. apply Nat.eqb_eq in Hlen.
  split_and!; [done..|].
  exists (layer_at h ll), (layer_at h lc). split_and!; try done.
  rewrite Hvl in Hvl'. by injection Hvl' as <-.
Qed.

Lemma backward_cond_Some lay parents p :
  is_blockwise lay → dependencies dsk !! lay = Some parents →
  backward_cond layer_len dsk h lay parents = Ok (Some p) → fusable p lay.
Proof.
  intros (vl & Hvl & Bl) Hdep. unfold backward_cond.
  destruct (elements parents) as [|par [|? ?]] eqn:He; try done.
  apply elements_singleton_inv in He as ->.
  intros Hc. apply bind_Ok in Hc as (ds & Eds & Hc).
  unfold getitem_dependents in Eds.
  destruct (dependents dsk par) as [ds'|] eqn:Hds; [|done].
  injection Eds as ->. case_bool_decide as Hs; [|done]. subst ds.
  apply bind_Ok in Hc as (lp & Elp & Hc).
  apply getitem_layers_of in Elp as [Hlp Hvp].
  destruct (isinstance_AwkwardBlockwiseLayer (layer_at h lp)) eqn:Bp; [|done].
  apply bind_Ok in Hc as (ll & Ell & Hc).
  apply getitem_layers_of in Ell as [Hll Hvl'].
  destruct (layer_len (layer_at h ll) =? layer_len (layer_at h lp))%nat eqn:Hlen;
    [|done].
  injection Hc as <-. apply Nat.eqb_eq in Hlen.
  split_and!; [done..|].
  exists (layer_at h lp), (layer_at h ll). split_and!; try done.
  rewrite Hvl in Hvl'. by injection Hvl' as <-.
Qed.

Lemma walk_forward_linked fuel lay children chain al chain' al' :
  dependents dsk lay = Some children →
  last chain = Some lay → linked chain → Forall is_blockwise chain →
  walk_forward layer_len fuel dsk h lay children chain al = Ok (chain', al') →
  linked chain' ∧ Forall is_blockwise chain' ∧ length chain ≤ length chain'
  ∧ head chain' = head chain.
Proof.
  revert lay children chain al.
  induction fuel as [|fuel IH]; intros lay children chain al Hdep Hlast Hl Hb; simpl;
    [done|].
  intros Hw. apply bind_Ok in Hw as (c & Ec & Hw).
  destruct c as [lay'|]; [|by injection Hw as <- <-].
  apply bind_Ok in Hw as (al1 & E1 & Hw).
  apply bind_Ok in Hw as (ch1 & E2 & Hw).
  assert (is_blockwise lay) as Blay.
  { rewrite Forall_forall in Hb. apply Hb. by apply last_Some_elem_of. }
  pose proof (forward_cond_Some _ _ _ Blay Hdep Ec) as Hf.
  unfold getitem_dependents in E2.
  destruct (dependents dsk lay') as [ch1'|] eqn:Hd1; [|done]. injection E2 as ->.
  destruct (IH lay' ch1 (chain ++ [lay']) al1) as (H1 & H2 & H3 & H4); try done.
  - by rewrite last_snoc.
  - by eapply linked_snoc.
  - apply Forall_app. split; [done|]. apply Forall_singleton.
    by apply fusable_blockwise in Hf as [_ ?].
  - split_and!; try done.
    + rewrite length_app in H3. lia.
    + rewrite H4. by destruct chain.
Qed.

Lemma walk_backward_linked fuel lay parents chain al chain' al' :
  dependencies dsk !! lay = Some parents →
  head chain = Some lay → linked chain → Forall is_blockwise chain →
  walk_backward layer_len fuel dsk h lay parents chain al = Ok (chain', al') →
  linked chain' ∧ Forall is_blockwise chain' ∧ length chain ≤ length chain'
  ∧ last chain' = last chain.
Proof.
  revert lay parents chain al.
  induction fuel as [|fuel IH]; intros lay parents chain al Hdep Hhd Hl Hb; simpl;
    [done|].
  intros Hw. apply bind_Ok in Hw as (c & Ec & Hw).
  destruct c as [lay'|]; [|by injection Hw as <- <-].
  apply bind_Ok in Hw as (al1 & E1 & Hw).
  apply bind_Ok in Hw as (ps1 & E2 & Hw).
  assert (is_blockwise lay) as Blay.
  { rewrite Forall_forall in Hb. apply Hb. by apply head_Some_elem_of. }
  pose proof (backward_cond_Some _ _ _ Blay Hdep Ec) as Hf.
  unfold getitem_dependencies in E2.
  destruct (dependencies dsk !! lay') as [ps1'|] eqn:Hd1; [|done]. injection E2 as ->.
  destruct (IH lay' ps1 (lay' :: chain) al1) as (H1 & H2 & H3 & H4); try done.
  - by eapply linked_cons.
  - apply Forall_cons. split; [|done]. by apply fusable_blockwise in Hf as [? _].
  - split_and!; try done.
    + simpl in H3. lia.
    + rewrite H4. by destruct chain.
Qed.

End reading.

(** What is known of every chain found. *)
Definition good_chain (chain : list string) : Prop :=
  2 ≤ length chain ∧ linked chain ∧ Forall is_blockwise chain.

End chains.

Arguments layer_of _ _ _ : assert.
Arguments is_blockwise _ _ _ : assert.

(** The graph is acyclic: layers can be ranked so that every layer ranks
    above its dependencies. *)
Definition acyclic (dsk : HighLevelGraph) : Prop :=
  ∃ rank : string → nat,
    ∀ d ds u, dependencies dsk !! d = Some ds → u ∈ ds → rank u < rank d.

Section discovery.

Variable layer_len : Layer → nat.
Variable dsk : HighLevelGraph.
Variable h0 : heap.
Hypothesis Halloc : graph_allocated dsk h0.

Local Abbreviation good := (good_chain layer_len dsk h0).

(** What the discovery loop keeps true: the chains found so far are good,
    the store has only grown, every name taken from [order] is still to be
    visited, or has a layer in the output, or is a member of a chain, and
    the last member of every chain has a layer in the output. *)
Definition found_ok (order al : list string) (st : found) : Prop :=
  let '(chains, layers2, h) := st in
  Forall good chains
  ∧ layer_objs h0 ⊆ layer_objs h
  ∧ (∀ x, x ∈ order → x ∈ al ∨ is_Some (layers2 !! x) ∨ ∃ c, c ∈ chains ∧ x ∈ c)
  ∧ (∀ c o, c ∈ chains → last c = Some o → is_Some (layers2 !! o)).

Lemma set_remove_elem x al al' y :
  set_remove x al = Ok al' → y ∈ al → y ∈ al' ∨ y = x.
Proof.
  unfold set_remove. case_decide; [|done]. intros [= <-] Hy.
  destruct (decide (y = x)) as [->|Hne]; [by right|left].
  by apply list_elem_of_filter.
Qed.

Lemma walk_forward_elem fuel h lay children chain al chain' al' y :
  walk_forward layer_len fuel dsk h lay children chain al = Ok (chain', al') →
  (y ∈ al → y ∈ al' ∨ y ∈ chain') ∧ (y ∈ chain → y ∈ chain').
Proof.
  revert lay children chain al.
  induction fuel as [|fuel IH]; intros lay children chain al; simpl; [done|].
  intros Hw. apply bind_Ok in Hw as (c & Ec & Hw).
  destruct c as [lay'|]; [|injection Hw as <- <-; auto].
  apply bind_Ok in Hw as (al1 & E1 & Hw).
  apply bind_Ok in Hw as (ch1 & E2 & Hw).
  destruct (IH _ _ _ _ Hw) as [Ha Hc]. split.
  - intros Hy. destruct (set_remove_elem _ _ _ _ E1 Hy) as [Hy'| ->]; [auto|].
    right. apply Hc. apply elem_of_app. right. apply list_elem_of_here.
  - intros Hy. apply Hc. apply elem_of_app. by left.
Qed.

Lemma walk_backward_elem fuel h lay parents chain al chain' al' y :
  walk_backward layer_len fuel dsk h lay parents chain al = Ok (chain', al') →
  (y ∈ al → y ∈ al' ∨ y ∈ chain') ∧ (y ∈ chain → y ∈ chain').
Proof.
  revert lay parents chain al.
  induction fuel as [|fuel IH]; intros lay parents chain al; simpl; [done|].
  intros Hw. apply bind_Ok in Hw as (c & Ec & Hw).
  destruct c as [lay'|]; [|injection Hw as <- <-; auto].
  apply bind_Ok in Hw as (al1 & E1 & Hw).
  apply bind_Ok in Hw as (ps1 & E2 & Hw).
  destruct (IH _ _ _ _ Hw) as [Ha Hc]. split.
  - intros Hy. destruct (set_remove_elem _ _ _ _ E1 Hy) as [Hy'| ->]; [auto|].
    right. apply Hc. apply list_elem_of_here.
  - intros Hy. apply Hc. by apply list_elem_of_further.
Qed.

Lemma visit_ok order lay al st al' st' :
  found_ok order (lay :: al) st →
  visit layer_len dsk lay al st = Ok (al', st') →
  found_ok order al' st'.
Proof.
  destruct st as [[chains layers2] h]. intros (Hg & Hext & Hcov & Hlast).
  unfold visit. intros Hv.
  apply bind_Ok in Hv as (val & Eval & Hv).
  pose proof (getitem_layers_of dsk h0 h Hext Halloc _ _ Eval) as [Hlv Hof].
  destruct (isinstance_AwkwardBlockwiseLayer (layer_at h val)) eqn:Bv; cbn [negb] in Hv.
  - (* a Blockwise layer *)
    apply bind_Ok in Hv as (children & Ech & Hv).
    apply bind_Ok in Hv as ([chain1 al1] & Ef & Hv).
    apply bind_Ok in Hv as (parents & Epa & Hv).
    apply bind_Ok in Hv as ([chain2 al2] & Eb & Hv).
    unfold getitem_dependents in Ech.
    destruct (dependents dsk lay) as [ch'|] eqn:Hdep; [|done]. injection Ech as ->.
    unfold getitem_dependencies in Epa.
    destruct (dependencies dsk !! lay) as [pa'|] eqn:Hpar; [|done]. injection Epa as ->.
    assert (is_blockwise dsk h0 lay) as Blay by by exists (layer_at h val).
    destruct (walk_forward_linked layer_len dsk h0 h Hext Halloc
                (S (length al)) lay children [lay] al chain1 al1
                Hdep eq_refl I (proj2 (Forall_singleton _ _) Blay) Ef)
      as (Hl1 & Hb1 & Hn1 & Hh1).
    destruct (walk_backward_linked layer_len dsk h0 h Hext Halloc _ _ _ _ _ _ _
                Hpar Hh1 Hl1 Hb1 Eb)
      as (Hl2 & Hb2 & Hn2 & Hla2).
    assert (∀ y, y ∈ lay :: al → y ∈ al2 ∨ y ∈ chain2) as Hmove.
    { intros y Hy.
      destruct (walk_forward_elem _ _ _ _ _ _ _ _ y Ef) as [Fa Fc].
      destruct (walk_backward_elem _ _ _ _ _ _ _ _ y Eb) as [Ba Bc].
      apply elem_of_cons in Hy as [->|Hy].
      - right. apply Bc, Fc, list_elem_of_here.
      - destruct (Fa Hy) as [?|?]; [by apply Ba|right; by apply Bc]. }
    destruct (1 <? length chain2) eqn:Hlen.
    + apply Nat.ltb_lt in Hlen.
      destruct (last chain2) as [outkey|] eqn:Hout; [|done].
      apply bind_Ok in Hv as (src & Esrc & Hv).
      destruct (copy_copy src h) as [l h'] eqn:Hcp. injection Hv as <- <-.
      split_and!.
      * apply Forall_app. split; [done|]. apply Forall_singleton.
        split_and!; [lia|done..].
      * etrans; [done|]. by apply (alloc_layer_ext _ _ _ _ Hcp).
      * intros x Hx. destruct (Hcov x Hx) as [Hal|[Hl|(c & Hc & Hxc)]].
        -- destruct (Hmove x Hal) as [?|?]; [by left|].
           right. right. exists chain2. split; [|done].
           apply elem_of_app. right. apply list_elem_of_here.
        -- right. left. destruct (decide (outkey = x)) as [->|?].
           ++ rewrite lookup_insert_eq. by eexists.
           ++ by rewrite lookup_insert_ne.
        -- right. right. exists c. split; [|done]. apply elem_of_app. by left.
      * intros c o Hc Ho. destruct (decide (outkey = o)) as [->|?].
        -- rewrite lookup_insert_eq. by eexists.
        -- rewrite lookup_insert_ne by done.
           apply elem_of_app in Hc as [Hc|Hc]; [by eapply Hlast|].
           apply list_elem_of_singleton in Hc as ->. congruence.
    + apply Nat.ltb_ge in Hlen. injection Hv as <- <-.
      assert (chain2 = [lay]) as ->.
      { destruct chain2 as [|a2 [|b2 r2]]; simpl in Hlen, Hn2; [| |lia].
        - simpl in Hn1. lia.
        - destruct chain1 as [|a [|b r]]; simpl in Hn1, Hn2, Hh1, Hla2; [lia| |lia].
          by simplify_eq. }
      split_and!; try done.
      * intros x Hx. destruct (Hcov x Hx) as [Hal|[Hl|(c & Hc & Hxc)]].
        -- destruct (Hmove x Hal) as [?|Hxl]; [by left|].
           apply list_elem_of_singleton in Hxl as ->.
           right. left. rewrite lookup_insert_eq. by eexists.
        -- right. left. destruct (decide (lay = x)) as [->|?].
           ++ rewrite lookup_insert_eq. by eexists.
           ++ by rewrite lookup_insert_ne.
        -- right. right. by exists c.
      * intros c o Hc Ho. destruct (decide (lay = o)) as [->|?].
        -- rewrite lookup_insert_eq. by eexists.
        -- rewrite lookup_insert_ne by done. by eapply Hlast.
  - (* any other layer passes through *)
    injection Hv as <- <-. split_and!; try done.
    + intros x Hx. destruct (Hcov x Hx) as [Hal|[Hl|(c & Hc & Hxc)]].
      * apply elem_of_cons in Hal as [->|Hal]; [|by left].
        right. left. rewrite lookup_insert_eq. by eexists.
      * right. left. destruct (decide (lay = x)) as [->|?].
        -- rewrite lookup_insert_eq. by eexists.
        -- by rewrite lookup_insert_ne.
      * right. right. by exists c.
    + intros c o Hc Ho. destruct (decide (lay = o)) as [->|?].
      * rewrite lookup_insert_eq. by eexists.
      * rewrite lookup_insert_ne by done. by eapply Hlast.
Qed.

Lemma find_chains_ok order fuel al st st' :
  found_ok order al st →
  find_chains layer_len fuel dsk al st = Ok st' →
  found_ok order [] st'.
Proof.
  revert al st. induction fuel as [|fuel IH]; intros al st Hok; simpl; [done|].
  destruct al as [|lay rest]; [by intros [= <-]|].
  intros Hf. apply bind_Ok in Hf as ([al1 st1] & Ev & Hf).
  eapply IH; [|done]. by eapply visit_ok.
Qed.

Lemma discover_ok order chains layers2 h1 :
  discover layer_len order dsk h0 = Ok (chains, layers2, h1) →
  found_ok order [] (chains, layers2, h1).
Proof.
  unfold discover. apply find_chains_ok. split_and!; try done.
  - intros x Hx. by left.
  - intros c o Hc. by apply elem_of_nil in Hc.
Qed.

End discovery.

Lemma fusable_rank layer_len dsk h (rank : string → nat) u d :
  (∀ d ds u, dependencies dsk !! d = Some ds → u ∈ ds → rank u < rank d) →
  fusable layer_len dsk h u d → rank u < rank d.
Proof.
  intros Hr (_ & Hd & _). eapply Hr; [done|]. by apply elem_of_singleton.
Qed.

Lemma linked_rank layer_len dsk h (rank : string → nat) chain i k u d :
  (∀ d ds u, dependencies dsk !! d = Some ds → u ∈ ds → rank u < rank d) →
  linked layer_len dsk h chain →
  chain !! i = Some u → chain !! (i + S k) = Some d → rank u < rank d.
Proof.
  intros Hr Hl Hu. revert d. induction k as [|k IH]; intros d Hd.
  - replace (i + 1) with (S i) in Hd by lia.
    eapply fusable_rank; [done|]. by eapply linked_lookup.
  - destruct (lookup_lt_is_Some_2 chain (i + S k)) as [m Hm].
    { apply lookup_lt_Some in Hd. lia. }
    replace (i + S (S k)) with (S (i + S k)) in Hd by lia.
    etrans; [by apply IH|].
    eapply fusable_rank; [done|]. by eapply linked_lookup.
Qed.

(** C3. Every chain found by [rewrite_layer_chains] has at least two members,
    and each pair of consecutive members is a one-to-one edge between two
    Blockwise layers of equal length. In particular a layer with two or more
    dependents is never followed by another member in a chain; in an acyclic
    graph no chain holds it together with one of its dependents; and it keeps
    a layer of its own, under its own name, in the output. *)
Theorem C3_chains_only_along_one_to_one_edges (layer_len : Layer → nat)
    (order : list string) (dsk : HighLevelGraph) (h : heap)
    (chains : list (list string)) (layers2 : gmap string loc) (h1 : heap) :
  graph_allocated dsk h →
  discover layer_len order dsk h = Ok (chains, layers2, h1) →
  (∀ chain, chain ∈ chains →
     2 ≤ length chain
     ∧ ∀ i u d, chain !! i = Some u → chain !! S i = Some d →
         fusable layer_len dsk h u d)
  ∧ (∀ a ds, dependents dsk a = Some ds → 2 ≤ size ds →
       (∀ chain i, chain ∈ chains → chain !! i = Some a → chain !! S i = None)
       ∧ (acyclic dsk →
          ∀ chain d, chain ∈ chains → d ∈ ds → ¬ (a ∈ chain ∧ d ∈ chain))
       ∧ (a ∈ order → is_Some (layers2 !! a))).
Proof.
  intros Halloc Hd.
  destruct (discover_ok layer_len dsk h Halloc _ _ _ _ Hd) as (Hg & _ & Hcov & Hlast).
  rewrite Forall_forall in Hg.
  assert (∀ chain i, chain ∈ chains → ∀ a ds,
            dependents dsk a = Some ds → 2 ≤ size ds →
            chain !! i = Some a → chain !! S i = None) as Hend.
  { intros chain i Hc a ds Hds Hsz Ha.
    destruct (chain !! S i) as [d'|] eqn:Hd'; [|done]. exfalso.
    destruct (Hg _ Hc) as (_ & Hl & _).
    destruct (linked_lookup _ _ _ _ _ _ _ Hl Ha Hd') as (Hdep & _).
    rewrite Hds in Hdep. injection Hdep as ->.
    rewrite size_singleton in Hsz. lia. }
  split.
  - intros chain Hc. destruct (Hg _ Hc) as (Hlen & Hl & _).
    split; [done|]. intros i u d. by apply linked_lookup.
  - intros a ds Hds Hsz. split_and!.
    + intros chain i Hc. by eapply Hend.
    + intros (rank & Hr) chain d Hc Hdin [Ha Hdc].
      destruct (Hg _ Hc) as (_ & Hl & _).
      apply list_elem_of_lookup in Ha as [i Hi].
      apply list_elem_of_lookup in Hdc as [j Hj].
      pose proof (Hend chain i Hc a ds Hds Hsz Hi) as Hni.
      apply dependents_Some in Hds as [-> _].
      apply elem_of_dependents_of in Hdin as (vs & Hvs & Hin).
      pose proof (Hr _ _ _ Hvs Hin) as Hlt.
      apply lookup_ge_None in Hni. apply lookup_lt_Some in Hj as Hjl.
      destruct (decide (j = i)) as [->|Hne].
      * rewrite Hi in Hj. injection Hj as ->. lia.
      * assert (j < i) as Hji by lia.
        replace i with (j + S (i - j - 1)) in Hi by lia.
        pose proof (linked_rank _ _ _ rank _ _ _ _ _ Hr Hl Hj Hi). lia.
    + intros Hin. destruct (Hcov a Hin) as [Hal|[Hl|(c & Hc & Hac)]].
      * by apply elem_of_nil in Hal.
      * done.
      * apply list_elem_of_lookup in Hac as [i Hi].
        pose proof (Hend c i Hc a ds Hds Hsz Hi) as Hni.
        eapply Hlast; [done|].
        rewrite last_lookup. apply lookup_ge_None in Hni.
        apply lookup_lt_Some in Hi as Hil.
        by replace (Init.Nat.pred (length c)) with i by lia.
Qed.

Lemma C3_edge_of_the_fused_chain : fusable Ex.len3 Ex.g_chain Ex.h_chain "A" "B".
Proof.
  assert (graph_allocated Ex.g_chain Ex.h_chain) as Halloc.
  { intros x l Hl. unfold Ex.g_chain in Hl. simpl in Hl.
    apply lookup_insert_Some in Hl as [[_ <-]|[_ Hl]]; [by eexists|].
    apply lookup_insert_Some in Hl as [[_ <-]|[_ Hl]]; [by eexists|].
    by rewrite lookup_empty in Hl. }
  destruct (discover Ex.len3 ["A"; "B"] Ex.g_chain Ex.h_chain)
    as [[[chains layers2] h1]|e|] eqn:Hd;
    [|vm_compute in Hd; discriminate Hd..].
  destruct (C3_chains_only_along_one_to_one_edges Ex.len3 ["A"; "B"]
              Ex.g_chain Ex.h_chain chains layers2 h1 Halloc Hd) as [Hch _].
  assert (chains = [["A"; "B"]]) as ->.
  { revert Hd. vm_compute. by intros [= <- _ _]. }
  destruct (Hch ["A"; "B"]) as [_ Hl]; [apply list_elem_of_here|].
  by apply (Hl 0).
Defined.

(** The fan-out scenario: with [B] and [C] both reading [A], no chain is
    found and the pass returns the graph and the store as they were. *)
Example fan_out_scenario :
  discover Ex.len3 ["A"; "B"; "C"] Ex.g_fan Ex.h_fan
    = Ok ([], layers Ex.g_fan, Ex.h_fan)
  ∧ rewrite_layer_chains Ex.len3 ["C"; "A"; "B"] Ex.g_fan Ex.h_fan
    = Ok (Ex.g_fan, Ex.h_fan).
Proof. split; vm_compute; reflexivity. Qed.

(** ** Well-formed graphs *)

(** The arguments [_recursive_replace] can rewrite without failing: every
    string with the token prefix ends in an integer that indexes the layer's
    [indices]. *)
Fixpoint valid_arg (ix : list slot) (a : pyarg) : bool :=
  match a with
  | AStr s =>
      if startswith s TOKEN_PREFIX then
        match python_int (string_drop 18 s) with
        | Some ind => bool_decide (is_Some (py_index ix ind))
        | None => false
        end
      else true
  | AList l => forallb (valid_arg ix) l
  | ATuple l => forallb (valid_arg ix) l
  | _ => true
  end.

(** A Blockwise layer named [x] with a one-entry task template keyed by its
    own name, tokens that refer to its [indices], block counts that are
    non-empty tuples, and at least one partitioned input. *)
Definition valid_blockwise (x : string) (v : Layer) : Prop :=
  (∃ func args, layer_dsk v = {[x := func :: args]}
                ∧ forallb (valid_arg (layer_indices v)) args = true)
  ∧ ∃ n r, partitioned_counts (numblocks v) = Ok (n :: r).

Record well_formed (order : list string) (dsk : HighLevelGraph) (h : heap) : Prop := {
  wf_order_NoDup : NoDup order;
  wf_order_dom : ∀ x, x ∈ order ↔ is_Some (layers dsk !! x);
  wf_deps_dom : ∀ x, is_Some (dependencies dsk !! x) ↔ is_Some (layers dsk !! x);
  wf_closed : ∀ d ds u, dependencies dsk !! d = Some ds → u ∈ ds →
                is_Some (layers dsk !! u);
  wf_acyclic : acyclic dsk;
  wf_alloc : graph_allocated dsk h;
  wf_blockwise : ∀ x v, layer_of dsk h x = Some v →
                   isinstance_AwkwardBlockwiseLayer v = true → valid_blockwise x v;
}.

Lemma pyarg_nested_ind (P : pyarg → Prop) :
  (∀ s, P (AStr s)) →
  (∀ l, Forall P l → P (AList l)) →
  (∀ l, Forall P l → P (ATuple l)) →
  (∀ d, P (ADict d)) →
  (∀ f, P (AFunc f)) →
  (∀ n, P (AObj n)) →
  P ANone →
  ∀ a, P a.
Proof.
  intros Hs Hl Ht Hd Hf Ho Hn.
  fix IH 1. intros [s|l|l|d|f|n|].
  - apply Hs.
  - apply Hl. induction l as [|a l IHl]; constructor; [apply IH|apply IHl].
  - apply Ht. induction l as [|a l IHl]; constructor; [apply IH|apply IHl].
  - apply Hd.
  - apply Hf.
  - apply Ho.
  - apply Hn.
Qed.

Lemma replace_loop_total layer parent (l : list pyarg) :
  Forall (λ a, ∀ ix, valid_arg (layer_indices layer) a = true →
                ∃ r, _recursive_replace_arg layer parent a ix = Ok r) l →
  ∀ acc ix, forallb (valid_arg (layer_indices layer)) l = true →
    ∃ r, replace_loop layer parent l acc ix = Ok r.
Proof.
  induction 1 as [|a l Ha _ IH]; intros acc ix Hv; simpl.
  - by eexists.
  - simpl in Hv. apply andb_true_iff in Hv as [Hva Hvl].
    destruct (Ha ix Hva) as [[a2 i'] ->]. simpl. by apply IH.
Qed.

Lemma valid_arg_str ix s :
  valid_arg ix (AStr s) =
    if startswith s TOKEN_PREFIX then
      match python_int (string_drop 18 s) with
      | Some ind => bool_decide (is_Some (py_index ix ind))
      | None => false
      end
    else true.
Proof. reflexivity. Qed.

Lemma recursive_replace_arg_total layer parent a :
  ∀ ix, valid_arg (layer_indices layer) a = true →
    ∃ r, _recursive_replace_arg layer parent a ix = Ok r.
Proof.
  induction a as [s|l IH|l IH| | | |] using pyarg_nested_ind; intros ix Hv;
    try (by eexists).
  - rewrite recursive_replace_str. rewrite valid_arg_str in Hv.
    destruct (startswith s TOKEN_PREFIX); [|by eexists].
    destruct (python_int (string_drop 18 s)) as [ind|]; [|done].
    apply bool_decide_eq_true in Hv as [[name [ax|]] ->].
    + destruct (key_is name parent); by eexists.
    + by eexists.
  - rewrite recursive_replace_list. unfold _recursive_replace.
    destruct (replace_loop_total layer parent l IH [] ix Hv) as [[l2 i'] ->].
    by eexists.
  - rewrite recursive_replace_tuple. unfold _recursive_replace.
    destruct (replace_loop_total layer parent l IH [] ix Hv) as [[l2 i'] ->].
    by eexists.
Qed.

Lemma recursive_replace_total args layer parent ix :
  forallb (valid_arg (layer_indices layer)) args = true →
  ∃ r, _recursive_replace args layer parent ix = Ok r.
Proof.
  intros Hv. apply replace_loop_total; [|done].
  apply Forall_forall. intros a _. apply recursive_replace_arg_total.
Qed.

Lemma elem_of_concat {A} (x : A) (ls : list (list A)) :
  x ∈ concat ls ↔ ∃ l, l ∈ ls ∧ x ∈ l.
Proof.
  rewrite list_elem_of_In, in_concat. split.
  - intros (l & Hl & Hx). exists l. by rewrite !list_elem_of_In.
  - intros (l & Hl & Hx). exists l. by rewrite <- !list_elem_of_In.
Qed.

Lemma set_remove_perm (x : string) (l l' : list string) :
  NoDup l → set_remove x l = Ok l' → l ≡ₚ x :: l'.
Proof.
  unfold set_remove. case_decide as Hx; [|done]. intros Hnd [= <-].
  induction l as [|a l IH]; [by apply elem_of_nil in Hx|].
  apply NoDup_cons in Hnd as [Ha Hnd]. rewrite filter_cons.
  destruct (decide (a = x)) as [->|Hne].
  - rewrite decide_False by (by intros ?).
    f_equiv. clear IH Hx. induction l as [|b l IH]; [done|].
    apply not_elem_of_cons in Ha as [Hb Ha]. apply NoDup_cons in Hnd as [_ Hnd].
    rewrite filter_cons, decide_True by done. f_equiv. by apply IH.
  - rewrite decide_True by done.
    apply elem_of_cons in Hx as [->|Hx]; [done|].
    rewrite (IH Hx Hnd) at 1. apply Permutation_swap.
Qed.

Lemma set_remove_total (x : string) (l : list string) :
  x ∈ l → ∃ l', set_remove x l = Ok l'.
Proof. intros Hx. unfold set_remove. rewrite decide_True by done. by eexists. Qed.

(** ** Discovery on a well-formed graph *)

Section wf_discovery.

Variable layer_len : Layer → nat.
Variable dsk : HighLevelGraph.
Variable h0 : heap.
Variable rank : string → nat.

Hypothesis Hdom : ∀ x, is_Some (dependencies dsk !! x) ↔ is_Some (layers dsk !! x).
Hypothesis Hclosed :
  ∀ d ds u, dependencies dsk !! d = Some ds → u ∈ ds → is_Some (layers dsk !! u).
Hypothesis Hrank :
  ∀ d ds u, dependencies dsk !! d = Some ds → u ∈ ds → rank u < rank d.
Hypothesis Halloc : graph_allocated dsk h0.

Local Abbreviation F := (fusable layer_len dsk h0).
Local Abbreviation blockwise := (is_blockwise dsk h0).
Local Abbreviation link := (linked layer_len dsk h0).

Lemma fusable_succ_unique u d d' : F u d → F u d' → d = d'.
Proof.
  intros (H1 & _) (H2 & _).
  assert (({[d]} : gset string) = {[d']}) as Heq by congruence.
  assert (d ∈ ({[d']} : gset string)) as Hd by (rewrite <- Heq; set_solver).
  set_solver.
Qed.

Lemma fusable_pred_unique u u' d : F u d → F u' d → u = u'.
Proof.
  intros (_ & H1 & _) (_ & H2 & _).
  assert (({[u]} : gset string) = {[u']}) as Heq by congruence.
  assert (u ∈ ({[u']} : gset string)) as Hu by (rewrite <- Heq; set_solver).
  set_solver.
Qed.

Lemma layer_of_Some x v :
  layer_of dsk h0 x = Some v →
  ∃ l, layers dsk !! x = Some l ∧ layer_objs h0 !! l = Some v.
Proof.
  unfold layer_of. destruct (layers dsk !! x) as [l|]; [|done]. simpl. eauto.
Qed.

Lemma fusable_in_graph u d :
  F u d → is_Some (layers dsk !! u) ∧ is_Some (layers dsk !! d).
Proof.
  intros (_ & _ & vu & vd & Hu & Hd & _).
  apply layer_of_Some in Hu as (lu & -> & _).
  apply layer_of_Some in Hd as (ld & -> & _). split; by eexists.
Qed.

Lemma blockwise_in_graph x : blockwise x → is_Some (layers dsk !! x).
Proof. intros (v & Hv & _). apply layer_of_Some in Hv as (l & -> & _). by eexists. Qed.

Lemma chain_rank_last chain lay x :
  link chain → last chain = Some lay → x ∈ chain → rank x ≤ rank lay.
Proof.
  intros Hl Hlast Hx. apply list_elem_of_lookup in Hx as [i Hi].
  rewrite last_lookup in Hlast. apply lookup_lt_Some in Hi as Hlt.
  destruct (decide (i = Init.Nat.pred (length chain))) as [->|Hne].
  - rewrite Hi in Hlast. injection Hlast as ->. lia.
  - replace (Init.Nat.pred (length chain)) with (i + S (length chain - i - 2))
      in Hlast by lia.
    pose proof (linked_rank _ _ _ rank _ _ _ _ _ Hrank Hl Hi Hlast). lia.
Qed.

Lemma chain_rank_head chain lay x :
  link chain → head chain = Some lay → x ∈ chain → rank lay ≤ rank x.
Proof.
  intros Hl Hh Hx. apply list_elem_of_lookup in Hx as [i Hi].
  rewrite head_lookup in Hh.
  destruct i as [|i].
  - rewrite Hi in Hh. injection Hh as ->. lia.
  - pose proof (linked_rank _ _ _ rank _ 0 i _ _ Hrank Hl Hh Hi). lia.
Qed.

(** Inside a chain, every member but the head has its predecessor in the
    chain, and every member but the last its successor. *)
Lemma linked_pred chain x :
  link chain → x ∈ chain → head chain = Some x ∨ ∃ p, p ∈ chain ∧ F p x.
Proof.
  intros Hl Hx. apply list_elem_of_lookup in Hx as [i Hi].
  destruct i as [|i].
  - left. by rewrite head_lookup.
  - right. destruct (lookup_lt_is_Some_2 chain i) as [p Hp].
    { apply lookup_lt_Some in Hi. lia. }
    exists p. split; [by eapply list_elem_of_lookup_2|].
    by eapply linked_lookup.
Qed.

Lemma linked_succ chain x :
  link chain → x ∈ chain → last chain = Some x ∨ ∃ s, s ∈ chain ∧ F x s.
Proof.
  intros Hl Hx. apply list_elem_of_lookup in Hx as [i Hi].
  destruct (chain !! S i) as [s|] eqn:Hs.
  - right. exists s. split; [by eapply list_elem_of_lookup_2|].
    by eapply linked_lookup.
  - left. rewrite last_lookup. apply lookup_ge_None in Hs.
    apply lookup_lt_Some in Hi as Hlt.
    by replace (Init.Nat.pred (length chain)) with i by lia.
Qed.

Section conditions.

Variable h : heap.
Hypothesis Hext : layer_objs h0 ⊆ layer_objs h.

Lemma layer_of_at x v :
  layer_of dsk h0 x = Some v →
  ∃ l, layers dsk !! x = Some l ∧ layer_at h l = v.
Proof.
  intros Hv. apply layer_of_Some in Hv as (l & Hl & Hv). exists l. split; [done|].
  unfold layer_at. apply lookup_total_correct. by eapply lookup_weaken.
Qed.

Lemma getitem_layers_Some x l :
  layers dsk !! x = Some l → getitem_layers dsk x = Ok l.
Proof. intros Hl. unfold getitem_layers. by rewrite Hl. Qed.

Lemma forward_cond_fusable lay children s :
  F lay s → dependents dsk lay = Some children →
  forward_cond layer_len dsk h lay children = Ok (Some s).
Proof.
  intros (Hdep & Hdeps & vu & vd & Hu & Hd & Bu & Bd & Hlen) Hch.
  rewrite Hdep in Hch. injection Hch as <-.
  apply layer_of_at in Hu as (lu & Hlu & <-).
  apply layer_of_at in Hd as (ld & Hld & <-).
  unfold forward_cond. rewrite elements_gset_singleton.
  unfold getitem_dependencies. rewrite Hdeps. simpl.
  rewrite bool_decide_eq_true_2 by done.
  rewrite (getitem_layers_Some _ _ Hld). simpl. rewrite Bd.
  rewrite (getitem_layers_Some _ _ Hlu). simpl.
  by rewrite Hlen, Nat.eqb_refl.
Qed.

Lemma forward_cond_total lay children :
  is_Some (layers dsk !! lay) → dependents dsk lay = Some children →
  ∃ r, forward_cond layer_len dsk h lay children = Ok r.
Proof.
  intros [ll Hll] Hdep. unfold forward_cond.
  destruct (elements children) as [|c [|? ?]] eqn:He; try by eexists.
  apply elements_singleton_inv in He as ->.
  apply dependents_Some in Hdep as [Hdep _].
  assert (c ∈ dependents_of (dependencies dsk) lay) as Hc.
  { rewrite <- Hdep. by apply elem_of_singleton. }
  apply elem_of_dependents_of in Hc as (vs & Hvs & _).
  unfold getitem_dependencies. rewrite Hvs. simpl.
  case_bool_decide; [|by eexists].
  destruct (proj1 (Hdom c)) as [lc Hlc]; [by eexists|].
  rewrite (getitem_layers_Some _ _ Hlc). simpl.
  destruct (isinstance_AwkwardBlockwiseLayer (layer_at h lc)); [|by eexists].
  rewrite (getitem_layers_Some _ _ Hll). simpl. by eexists.
Qed.

Lemma forward_cond_spec lay children :
  blockwise lay → dependents dsk lay = Some children →
  (∃ s, forward_cond layer_len dsk h lay children = Ok (Some s) ∧ F lay s)
  ∨ (forward_cond layer_len dsk h lay children = Ok None ∧ ∀ s, ¬ F lay s).
Proof.
  intros Bl Hdep.
  destruct (forward_cond_total lay children (blockwise_in_graph _ Bl) Hdep)
    as [[s|] Hr].
  - left. exists s. split; [done|].
    by eapply (forward_cond_Some layer_len dsk h0 h Hext Halloc).
  - right. split; [done|]. intros s Hs.
    rewrite (forward_cond_fusable _ _ _ Hs Hdep) in Hr. done.
Qed.

Lemma backward_cond_fusable lay parents p :
  F p lay → dependencies dsk !! lay = Some parents →
  backward_cond layer_len dsk h lay parents = Ok (Some p).
Proof.
  intros (Hdep & Hdeps & vu & vd & Hu & Hd & Bu & Bd & Hlen) Hpa.
  rewrite Hdeps in Hpa. injection Hpa as <-.
  apply layer_of_at in Hu as (lu & Hlu & <-).
  apply layer_of_at in Hd as (ld & Hld & <-).
  unfold backward_cond. rewrite elements_gset_singleton.
  unfold getitem_dependents. rewrite Hdep. simpl.
  rewrite bool_decide_eq_true_2 by done.
  rewrite (getitem_layers_Some _ _ Hlu). simpl. rewrite Bu.
  rewrite (getitem_layers_Some _ _ Hld). simpl.
  by rewrite Hlen, Nat.eqb_refl.
Qed.

Lemma backward_cond_total lay parents :
  is_Some (layers dsk !! lay) → dependencies dsk !! lay = Some parents →
  ∃ r, backward_cond layer_len dsk h lay parents = Ok r.
Proof.
  intros [ll Hll] Hdep. unfold backward_cond.
  destruct (elements parents) as [|p [|? ?]] eqn:He; try by eexists.
  apply elements_singleton_inv in He as ->.
  assert (p ∈ ({[p]} : gset string)) as Hp by by apply elem_of_singleton.
  unfold getitem_dependents.
  rewrite (dependents_of_referenced _ _ _ _ Hdep Hp). simpl.
  case_bool_decide; [|by eexists].
  destruct (Hclosed _ _ _ Hdep Hp) as [lp Hlp].
  rewrite (getitem_layers_Some _ _ Hlp). simpl.
  destruct (isinstance_AwkwardBlockwiseLayer (layer_at h lp)); [|by eexists].
  rewrite (getitem_layers_Some _ _ Hll). simpl. by eexists.
Qed.

Lemma backward_cond_spec lay parents :
  blockwise lay → dependencies dsk !! lay = Some parents →
  (∃ p, backward_cond layer_len dsk h lay parents = Ok (Some p) ∧ F p lay)
  ∨ (backward_cond layer_len dsk h lay parents = Ok None ∧ ∀ p, ¬ F p lay).
Proof.
  intros Bl Hdep.
  destruct (backward_cond_total lay parents (blockwise_in_graph _ Bl) Hdep)
    as [[p|] Hr].
  - left. exists p. split; [done|].
    by eapply (backward_cond_Some layer_len dsk h0 h Hext Halloc).
  - right. split; [done|]. intros p Hp.
    rewrite (backward_cond_fusable _ _ _ Hp Hdep) in Hr. done.
Qed.

End conditions.

Section walks.

Variable h : heap.
Hypothesis Hext : layer_objs h0 ⊆ layer_objs h.

(** The forward walk from the last member [lay] of [chain]: it succeeds,
    moves the members it adds from [al] to the end of the chain, keeps the
    chain linked, and stops at a member without a fusable successor. *)
Lemma walk_forward_spec fuel lay children chain al :
  length al < fuel → NoDup al →
  dependents dsk lay = Some children →
  last chain = Some lay → link chain → Forall blockwise chain →
  (∀ x, x ∈ chain → x ∉ al) →
  (∀ u d, F u d → (u ∈ chain ∨ u ∈ al) → (d ∈ chain ∨ d ∈ al)) →
  ∃ chain' al' added,
    walk_forward layer_len fuel dsk h lay children chain al = Ok (chain', al')
    ∧ chain' = chain ++ added ∧ al ≡ₚ added ++ al'
    ∧ link chain' ∧ Forall blockwise chain'
    ∧ ∃ o, last chain' = Some o ∧ ∀ s, ¬ F o s.
Proof.
  revert lay children chain al.
  induction fuel as [|fuel IH]; intros lay children chain al Hfuel Hnd Hdep Hlast Hl Hb
    Hdisj Hcl; [lia|].
  simpl.
  assert (blockwise lay) as Blay.
  { rewrite Forall_forall in Hb. apply Hb. by apply last_Some_elem_of. }
  destruct (forward_cond_spec h Hext lay children Blay Hdep)
    as [(c & -> & Hf)|(-> & Hno)]; simpl.
  - assert (c ∈ al) as Hc.
    { destruct (Hcl lay c Hf) as [Hin|Hin]; [left; by apply last_Some_elem_of| |done].
      pose proof (chain_rank_last chain lay c Hl Hlast Hin).
      pose proof (fusable_rank _ _ _ rank _ _ Hrank Hf). lia. }
    destruct (set_remove_total c al Hc) as [al1 Hrm]. rewrite Hrm. simpl.
    pose proof (set_remove_perm c al al1 Hnd Hrm) as Hperm.
    destruct Hf as (Hfd & Hfdeps & Hfrest).
    assert (F lay c) as Hf by done.
    unfold getitem_dependents.
    rewrite (dependents_of_key dsk c) by (by eexists). simpl.
    assert (NoDup (c :: al1)) as Hnd1 by by rewrite <- Hperm.
    apply NoDup_cons in Hnd1 as [Hc1 Hnd1].
    destruct (IH c (dependents_of (dependencies dsk) c) (chain ++ [c]) al1)
      as (chain' & al' & added & Hw & Hch & Hp & Hl' & Hb' & Ho).
    + rewrite Hperm in Hfuel. simpl in Hfuel. lia.
    + done.
    + apply dependents_of_key. by eexists.
    + by rewrite last_snoc.
    + by eapply linked_snoc.
    + apply Forall_app. split; [done|]. apply Forall_singleton.
      by apply fusable_blockwise in Hf as [_ ?].
    + intros x Hx Hx1. apply elem_of_app in Hx as [Hx|Hx].
      * apply (Hdisj x Hx). rewrite Hperm. by apply list_elem_of_further.
      * apply list_elem_of_singleton in Hx as ->. done.
    + intros u d Hud Hu.
      assert (u ∈ chain ∨ u ∈ al) as Hu'.
      { destruct Hu as [Hu|Hu].
        - apply elem_of_app in Hu as [Hu|Hu]; [by left|].
          apply list_elem_of_singleton in Hu as ->. by right.
        - right. rewrite Hperm. by apply list_elem_of_further. }
      destruct (Hcl u d Hud Hu') as [Hd|Hd].
      * left. apply elem_of_app. by left.
      * rewrite Hperm in Hd. apply elem_of_cons in Hd as [->|Hd].
        -- left. apply elem_of_app. right. apply list_elem_of_here.
        -- by right.
    + exists chain', al', (c :: added). split_and!; try done.
      * rewrite Hch. by rewrite <- app_assoc.
      * rewrite Hperm, Hp. done.
  - exists chain, al, []. split_and!; try done.
    + by rewrite app_nil_r.
    + by exists lay.
Qed.

(** The backward walk from the head [lay] of [chain]. *)
Lemma walk_backward_spec fuel lay parents chain al :
  length al < fuel → NoDup al →
  dependencies dsk !! lay = Some parents →
  head chain = Some lay → link chain → Forall blockwise chain →
  (∀ x, x ∈ chain → x ∉ al) →
  (∀ u d, F u d → (d ∈ chain ∨ d ∈ al) → (u ∈ chain ∨ u ∈ al)) →
  ∃ chain' al' added,
    walk_backward layer_len fuel dsk h lay parents chain al = Ok (chain', al')
    ∧ chain' = added ++ chain ∧ al ≡ₚ added ++ al'
    ∧ link chain' ∧ Forall blockwise chain'
    ∧ ∃ hd, head chain' = Some hd ∧ ∀ p, ¬ F p hd.
Proof.
  revert lay parents chain al.
  induction fuel as [|fuel IH]; intros lay parents chain al Hfuel Hnd Hdep Hhd Hl Hb
    Hdisj Hcl; [lia|].
  simpl.
  assert (blockwise lay) as Blay.
  { rewrite Forall_forall in Hb. apply Hb. by apply head_Some_elem_of. }
  destruct (backward_cond_spec h Hext lay parents Blay Hdep)
    as [(p & -> & Hf)|(-> & Hno)]; simpl.
  - assert (p ∈ al) as Hp.
    { destruct (Hcl p lay Hf) as [Hin|Hin]; [left; by apply head_Some_elem_of| |done].
      pose proof (chain_rank_head chain lay p Hl Hhd Hin).
      pose proof (fusable_rank _ _ _ rank _ _ Hrank Hf). lia. }
    destruct (set_remove_total p al Hp) as [al1 Hrm]. rewrite Hrm. simpl.
    pose proof (set_remove_perm p al al1 Hnd Hrm) as Hperm.
    destruct (fusable_in_graph _ _ Hf) as [Hpg _].
    apply Hdom in Hpg as [ps Hps].
    unfold getitem_dependencies. rewrite Hps. simpl.
    assert (NoDup (p :: al1)) as Hnd1 by by rewrite <- Hperm.
    apply NoDup_cons in Hnd1 as [Hp1 Hnd1].
    destruct (IH p ps (p :: chain) al1)
      as (chain' & al' & added & Hw & Hch & Hpm & Hl' & Hb' & Ho).
    + rewrite Hperm in Hfuel. simpl in Hfuel. lia.
    + done.
    + done.
    + done.
    + by eapply linked_cons.
    + apply Forall_cons. split; [|done]. by apply fusable_blockwise in Hf as [? _].
    + intros x Hx Hx1. apply elem_of_cons in Hx as [->|Hx]; [done|].
      apply (Hdisj x Hx). rewrite Hperm. by apply list_elem_of_further.
    + intros u d Hud Hd.
      assert (d ∈ chain ∨ d ∈ al) as Hd'.
      { destruct Hd as [Hd|Hd].
        - apply elem_of_cons in Hd as [->|Hd]; [by right|by left].
        - right. rewrite Hperm. by apply list_elem_of_further. }
      destruct (Hcl u d Hud Hd') as [Hu|Hu].
      * left. by apply list_elem_of_further.
      * rewrite Hperm in Hu. apply elem_of_cons in Hu as [->|Hu].
        -- left. apply list_elem_of_here.
        -- by right.
    + exists chain', al', (added ++ [p]). split_and!; try done.
      * rewrite Hch. by rewrite <- app_assoc.
      * rewrite Hperm, Hpm. rewrite <- app_assoc. simpl.
        by rewrite Permutation_middle.
  - exists chain, al, []. split_and!; try done. by exists lay.
Qed.

End walks.

Lemma removelast_elem (c : list string) o x :
  last c = Some o → x ∈ removelast c → x ∈ c.
Proof.
  intros Hl Hx. apply last_Some in Hl as [c' ->].
  rewrite removelast_last in Hx. apply elem_of_app. by left.
Qed.

Lemma removelast_not_last (c : list string) o x :
  NoDup c → last c = Some o → x ∈ removelast c → x ≠ o.
Proof.
  intros Hnd Hl Hx. apply last_Some in Hl as [c' ->].
  rewrite removelast_last in Hx. apply NoDup_app in Hnd as (_ & Hd & _).
  intros ->. apply (Hd o Hx). apply list_elem_of_here.
Qed.

(** The invariant of the discovery loop on a well-formed graph. [al] is the
    set of layers still to visit, a union of whole fusable paths. *)
Record disc_inv (al : list string) (chains : list (list string))
    (layers2 : gmap string loc) (h : heap) : Prop := {
  di_nodup : NoDup (al ++ concat chains);
  di_al_dom : ∀ x, x ∈ al → is_Some (layers dsk !! x);
  di_closed : ∀ u d, F u d → (u ∈ al ↔ d ∈ al);
  di_good : Forall (good_chain layer_len dsk h0) chains;
  di_max : ∀ c, c ∈ chains →
             (∀ hd, head c = Some hd → ∀ p, ¬ F p hd)
             ∧ (∀ o, last c = Some o → ∀ s, ¬ F o s);
  di_layers : layer_objs h0 ⊆ layer_objs h;
  di_dicts : dict_objs h = dict_objs h0;
  di_out_alloc : ∀ x l, layers2 !! x = Some l → is_Some (layer_objs h !! l);
  di_out_al : ∀ x, is_Some (layers2 !! x) → x ∉ al;
  di_out : ∀ x l, layers2 !! x = Some l →
      ((x ∉ concat chains) ∧ layers dsk !! x = Some l
       ∧ (∀ s, ¬ F x s) ∧ (∀ p, ¬ F p x))
      ∨ (∃ c l0, c ∈ chains ∧ last c = Some x ∧ layers dsk !! x = Some l0
           ∧ layer_objs h0 !! l = None
           ∧ layer_objs h !! l = layer_objs h0 !! l0
           ∧ ∀ y, layers2 !! y = Some l → y = x);
  di_nonlast : ∀ c x, c ∈ chains → x ∈ removelast c → layers2 !! x = None;
  di_last : ∀ c o, c ∈ chains → last c = Some o → is_Some (layers2 !! o);
  di_cover : ∀ x, is_Some (layers dsk !! x) →
               x ∈ al ∨ is_Some (layers2 !! x) ∨ x ∈ concat chains;
  di_nochain : chains = [] → h = h0;
}.

(** A layer that is fused with nothing passes through. *)
Lemma disc_inv_single lay val al al2 chains layers2 h :
  disc_inv (lay :: al) chains layers2 h →
  al2 ≡ₚ al →
  layers dsk !! lay = Some val →
  (∀ s, ¬ F lay s) → (∀ p, ¬ F p lay) →
  disc_inv al2 chains (<[lay := val]> layers2) h.
Proof.
  intros [Hnd Hald Hcl Hg Hmax Hly Hdi Hoa Hoal Hout Hnl Hla Hcov Hnc] Hp Hval Hns Hnp.
  assert (NoDup (lay :: al ++ concat chains)) as Hnd' by done.
  apply NoDup_cons in Hnd' as [Hlay Hnd'].
  assert ((lay ∉ al) ∧ (lay ∉ concat chains)) as [Hlay1 Hlay2].
  { split; intros ?; apply Hlay, elem_of_app; auto. }
  split.
  - by rewrite Hp.
  - intros x Hx. apply Hald. rewrite Hp in Hx. by apply list_elem_of_further.
  - intros u d Hud. rewrite !Hp. pose proof (Hcl u d Hud) as Hiff.
    rewrite !elem_of_cons in Hiff.
    assert (u ≠ lay) as Hu by (intros ->; by eapply Hns).
    assert (d ≠ lay) as Hd by (intros ->; by eapply Hnp).
    split; intros Hin.
    + by destruct (proj1 Hiff (or_intror Hin)) as [?|?].
    + by destruct (proj2 Hiff (or_intror Hin)) as [?|?].
  - done.
  - done.
  - done.
  - done.
  - intros x l Hx. destruct (decide (lay = x)) as [->|Hne].
    + rewrite lookup_insert_eq in Hx. injection Hx as <-.
      destruct (Halloc _ _ Hval) as [v Hv]. exists v. by eapply lookup_weaken.
    + rewrite lookup_insert_ne in Hx by done. by eapply Hoa.
  - intros x Hx. rewrite Hp. destruct (decide (lay = x)) as [->|Hne]; [done|].
    rewrite lookup_insert_ne in Hx by done.
    intros Hin. apply (Hoal x Hx). by apply list_elem_of_further.
  - intros x l Hx. destruct (decide (lay = x)) as [->|Hne].
    + rewrite lookup_insert_eq in Hx. injection Hx as <-. left. done.
    + rewrite lookup_insert_ne in Hx by done.
      destruct (Hout x l Hx) as [?|(c & l0 & Hc & Hlc & Hl0 & Hfr & Hcp & Huniq)];
        [by left|right].
      exists c, l0. split_and!; try done.
      intros y Hy. destruct (decide (lay = y)) as [->|Hney].
      * rewrite lookup_insert_eq in Hy. injection Hy as ->.
        destruct (Halloc _ _ Hval) as [v Hv]. congruence.
      * rewrite lookup_insert_ne in Hy by done. by apply Huniq.
  - intros c x Hc Hx. rewrite lookup_insert_ne; [by eapply Hnl|].
    intros <-. apply Hlay2. apply elem_of_concat. exists c. split; [done|].
    destruct (last c) as [o|] eqn:Ho.
    + by eapply removelast_elem.
    + apply last_None in Ho. subst c. by apply elem_of_nil in Hx.
  - intros c o Hc Ho. destruct (decide (lay = o)) as [->|Hne].
    + rewrite lookup_insert_eq. by eexists.
    + rewrite lookup_insert_ne by done. by eapply Hla.
  - intros x Hx. destruct (Hcov x Hx) as [Hin|[Hin|Hin]].
    + apply elem_of_cons in Hin as [->|Hin].
      * right. left. rewrite lookup_insert_eq. by eexists.
      * left. by rewrite Hp.
    + right. left. destruct (decide (lay = x)) as [->|Hne].
      * rewrite lookup_insert_eq. by eexists.
      * by rewrite lookup_insert_ne.
    + by right; right.
  - done.
Qed.

(** A whole fusable path becomes a chain; its last member gets a copy. *)
Lemma disc_inv_chain lay al al2 chain2 chains layers2 h o src l h' :
  disc_inv (lay :: al) chains layers2 h →
  lay :: al ≡ₚ chain2 ++ al2 →
  good_chain layer_len dsk h0 chain2 →
  (∀ hd, head chain2 = Some hd → ∀ p, ¬ F p hd) →
  last chain2 = Some o → (∀ s, ¬ F o s) →
  layers dsk !! o = Some src →
  copy_copy src h = (l, h') →
  disc_inv al2 (chains ++ [chain2]) (<[o := l]> layers2) h'.
Proof.
  intros [Hnd Hald Hcl Hg Hmax Hly Hdi Hoa Hoal Hout Hnl Hla Hcov Hnc]
    Hp Hgood Hhd Hlast Hns Hsrc Hcp.
  pose proof Hgood as (Hlen & Hlk & Hbw).
  unfold copy_copy in Hcp.
  pose proof (alloc_layer_ext _ _ _ _ Hcp) as [Hext1 _].
  apply alloc_layer_fresh in Hcp as (Hfresh & Hlobjs & Hdobjs).
  assert (NoDup ((chain2 ++ al2) ++ concat chains)) as Hnd2 by by rewrite <- Hp.
  apply NoDup_app in Hnd2 as (Hnd2 & Hd23 & Hndc).
  apply NoDup_app in Hnd2 as (Hndch & Hd12 & Hndal).
  assert (∀ x, x ∈ chain2 → x ∈ lay :: al) as Hsub.
  { intros x Hx. rewrite Hp. apply elem_of_app. by left. }
  assert (∀ x, x ∈ al2 → x ∈ lay :: al) as Hsub2.
  { intros x Hx. rewrite Hp. apply elem_of_app. by right. }
  assert (∀ x, x ∈ lay :: al → x ∈ chain2 ∨ x ∈ al2) as Hsplit.
  { intros x Hx. rewrite Hp in Hx. by apply elem_of_app in Hx. }
  assert (o ∈ chain2) as Ho by by apply last_Some_elem_of.
  assert (∀ x lx, layers2 !! x = Some lx → x ≠ o ∧ lx ≠ l) as Hold.
  { intros x lx Hx. split.
    - intros ->. apply (Hoal o); [by eexists|]. by apply Hsub.
    - intros ->. destruct (Hoa _ _ Hx) as [v Hv]. congruence. }
  assert (concat (chains ++ [chain2]) = concat chains ++ chain2) as Hcc.
  { rewrite concat_app. simpl. by rewrite app_nil_r. }
  split.
  - rewrite Hcc.
    assert (al2 ++ concat chains ++ chain2 ≡ₚ (chain2 ++ al2) ++ concat chains) as ->.
    { rewrite (Permutation_app_comm (concat chains) chain2), app_assoc.
      by rewrite (Permutation_app_comm al2 chain2). }
    by rewrite <- Hp.
  - intros x Hx. by apply Hald, Hsub2.
  - intros u d Hud. split; intros Hin.
    + assert (d ∈ lay :: al) as Hd by (apply (Hcl u d Hud); by apply Hsub2).
      destruct (Hsplit d Hd) as [Hdc|?]; [exfalso|done].
      destruct (linked_pred chain2 d Hlk Hdc) as [Hh|(p & Hpc & Hpd)].
      * by eapply Hhd.
      * rewrite (fusable_pred_unique _ _ _ Hud Hpd) in Hin. by eapply Hd12.
    + assert (u ∈ lay :: al) as Hu by (apply (Hcl u d Hud); by apply Hsub2).
      destruct (Hsplit u Hu) as [Huc|?]; [exfalso|done].
      destruct (linked_succ chain2 u Hlk Huc) as [Hl|(s & Hsc & Hus)].
      * rewrite Hlast in Hl. injection Hl as ->. by eapply Hns.
      * rewrite (fusable_succ_unique _ _ _ Hud Hus) in Hin. by eapply Hd12.
  - apply Forall_app. split; [done|]. by apply Forall_singleton.
  - intros c Hc. apply elem_of_app in Hc as [Hc|Hc]; [by apply Hmax|].
    apply list_elem_of_singleton in Hc as ->. split; [done|].
    intros o' Ho'. rewrite Hlast in Ho'. by injection Ho' as <-.
  - by etrans.
  - by rewrite Hdobjs.
  - intros x lx Hx. rewrite Hlobjs. destruct (decide (o = x)) as [<-|Hne].
    + rewrite lookup_insert_eq in Hx. injection Hx as <-.
      rewrite lookup_insert_eq. by eexists.
    + rewrite lookup_insert_ne in Hx by done.
      destruct (Hold _ _ Hx) as [_ Hll]. rewrite lookup_insert_ne by done.
      by eapply Hoa.
  - intros x Hx Hin. destruct (decide (o = x)) as [<-|Hne].
    + by eapply Hd12.
    + rewrite lookup_insert_ne in Hx by done. apply (Hoal x Hx). by apply Hsub2.
  - intros x lx Hx. destruct (decide (o = x)) as [<-|Hne].
    + rewrite lookup_insert_eq in Hx. injection Hx as <-. right.
      exists chain2, src. split_and!; try done.
      * apply elem_of_app. right. apply list_elem_of_here.
      * apply eq_None_not_Some. intros [v Hv]. apply eq_None_not_Some in Hfresh.
        apply Hfresh. exists v. by eapply lookup_weaken.
      * rewrite Hlobjs, lookup_insert_eq.
        destruct (Halloc _ _ Hsrc) as [v Hv]. rewrite Hv. f_equal.
        unfold layer_at. apply lookup_total_correct. by eapply lookup_weaken.
      * intros y Hy. destruct (decide (o = y)) as [|Hney]; [done|].
        rewrite lookup_insert_ne in Hy by done.
        by destruct (Hold _ _ Hy) as [_ ?].
    + rewrite lookup_insert_ne in Hx by done.
      destruct (Hold _ _ Hx) as [_ Hll].
      destruct (Hout x lx Hx)
        as [(Hxc & Hxl & Hxs & Hxp)|(c & l0 & Hc & Hlc & Hl0 & Hfr & Hcpy & Huniq)].
      * left. split_and!; try done. rewrite Hcc. intros Hin.
        apply elem_of_app in Hin as [?|Hin]; [done|].
        apply (Hoal x); [by eexists|]. by apply Hsub.
      * right. exists c, l0. split_and!; try done.
        -- apply elem_of_app. by left.
        -- rewrite Hlobjs, lookup_insert_ne by done. done.
        -- intros y Hy. destruct (decide (o = y)) as [<-|Hney].
           ++ rewrite lookup_insert_eq in Hy. by injection Hy as ->.
           ++ rewrite lookup_insert_ne in Hy by done. by apply Huniq.
  - intros c x Hc Hx. apply elem_of_app in Hc as [Hc|Hc].
    + rewrite lookup_insert_ne; [by eapply Hnl|]. intros <-.
      apply (Hd23 o); [apply elem_of_app; by left|].
      apply elem_of_concat. exists c. split; [done|].
      destruct (last c) as [oc|] eqn:Hoc.
      * by eapply removelast_elem.
      * apply last_None in Hoc. subst c. by apply elem_of_nil in Hx.
    + apply list_elem_of_singleton in Hc as ->.
      rewrite lookup_insert_ne.
      * apply eq_None_not_Some. intros Hs. apply (Hoal x Hs).
        apply Hsub. by eapply removelast_elem.
      * intros <-. by eapply (removelast_not_last chain2 o o).
  - intros c o' Hc Ho'. destruct (decide (o = o')) as [<-|Hne].
    + rewrite lookup_insert_eq. by eexists.
    + rewrite lookup_insert_ne by done.
      apply elem_of_app in Hc as [Hc|Hc]; [by eapply Hla|].
      apply list_elem_of_singleton in Hc as ->. congruence.
  - intros x Hx. rewrite Hcc. destruct (Hcov x Hx) as [Hin|[Hin|Hin]].
    + destruct (Hsplit x Hin) as [?|?]; [|by left].
      right. right. apply elem_of_app. by right.
    + right. left. destruct (decide (o = x)) as [<-|Hne].
      * rewrite lookup_insert_eq. by eexists.
      * by rewrite lookup_insert_ne.
    + right. right. apply elem_of_app. by left.
  - intros Hnil. by apply app_nil in Hnil as [_ ?].
Qed.

Lemma bind_Ok_l {A B} (a : A) (f : A → outcome B) : Ok a ≫= f = f a.
Proof. done. Qed.

Lemma not_blockwise_no_edge h lay val :
  layer_objs h0 ⊆ layer_objs h →
  layers dsk !! lay = Some val →
  isinstance_AwkwardBlockwiseLayer (layer_at h val) = false →
  (∀ s, ¬ F lay s) ∧ (∀ p, ¬ F p lay).
Proof.
  intros Hext Hval Bv.
  assert (¬ blockwise lay) as Hnb.
  { intros (v & Hv & Bt). apply (layer_of_at h Hext) in Hv as (l & Hl & <-).
    rewrite Hval in Hl. injection Hl as <-. congruence. }
  split; intros x Hx; apply fusable_blockwise in Hx as [? ?]; done.
Qed.

(** One iteration of the discovery loop succeeds and keeps the invariant. *)
Lemma visit_spec lay al chains layers2 h :
  disc_inv (lay :: al) chains layers2 h →
  ∃ al' chains' layers2' h',
    visit layer_len dsk lay al (chains, layers2, h)
      = Ok (al', (chains', layers2', h'))
    ∧ disc_inv al' chains' layers2' h' ∧ length al' ≤ length al.
Proof.
  intros Hinv. pose proof Hinv as [Hnd Hald Hcl _ _ Hly _ _ _ _ _ _ _ _].
  destruct (Hald lay) as [val Hval]; [apply list_elem_of_here|].
  apply NoDup_app in Hnd as (Hnd & _ & _).
  apply NoDup_cons in Hnd as [Hlay Hndal].
  unfold visit. rewrite (getitem_layers_Some _ _ Hval), bind_Ok_l.
  destruct (isinstance_AwkwardBlockwiseLayer (layer_at h val)) eqn:Bv; cbn [negb].
  2:{ exists al, chains, (<[lay := val]> layers2), h. split; [done|]. split; [|done].
      destruct (not_blockwise_no_edge h lay val Hly Hval Bv) as [Hns Hnp].
      by apply disc_inv_single with al. }
  assert (blockwise lay) as Blay.
  { destruct (Halloc _ _ Hval) as [v Hv]. exists v. split.
    - unfold layer_of. rewrite Hval. done.
    - rewrite <- Bv. f_equal. unfold layer_at. symmetry.
      apply lookup_total_correct. by eapply lookup_weaken. }
  destruct (proj2 (Hdom lay)) as [parents Hpar]; [by eexists|].
  assert (dependents dsk lay = Some (dependents_of (dependencies dsk) lay)) as Hdep.
  { apply dependents_of_key. by eexists. }
  unfold getitem_dependents. rewrite Hdep, bind_Ok_l.
  destruct (walk_forward_spec h Hly (S (length al)) lay
              (dependents_of (dependencies dsk) lay) [lay] al)
    as (chain1 & al1 & added1 & Hw1 & Hc1 & Hp1 & Hl1 & Hb1 & o & Ho & Hno);
    try done.
  { lia. }
  { by apply Forall_singleton. }
  { intros x Hx. by apply list_elem_of_singleton in Hx as ->. }
  { intros u d Hud Hu.
    assert (d ∈ lay :: al) as Hd.
    { apply (Hcl u d Hud). destruct Hu as [Hu|Hu].
      - apply list_elem_of_singleton in Hu as ->. apply list_elem_of_here.
      - by apply list_elem_of_further. }
    apply elem_of_cons in Hd as [->|Hd]; [left; apply list_elem_of_here|by right]. }
  rewrite Hw1, bind_Ok_l. cbv beta iota.
  unfold getitem_dependencies. rewrite Hpar, bind_Ok_l.
  assert (lay :: al ≡ₚ chain1 ++ al1) as P1.
  { rewrite Hc1. simpl. by rewrite Hp1. }
  assert (NoDup (chain1 ++ al1)) as Hnd1.
  { rewrite <- P1. by apply NoDup_cons. }
  apply NoDup_app in Hnd1 as (Hndc1 & Hd1 & Hndal1).
  destruct (walk_backward_spec h Hly (S (length al1)) lay parents chain1 al1)
    as (chain2 & al2 & added2 & Hw2 & Hc2 & Hp2 & Hl2 & Hb2 & hd & Hhd & Hnp);
    try done.
  { lia. }
  { by rewrite Hc1. }
  { intros u d Hud Hd.
    assert (u ∈ lay :: al) as Hu.
    { apply (Hcl u d Hud). rewrite P1. apply elem_of_app. done. }
    rewrite P1 in Hu. by apply elem_of_app in Hu. }
  rewrite Hw2, bind_Ok_l. cbv beta iota.
  assert (lay :: al ≡ₚ chain2 ++ al2) as P2.
  { rewrite P1, Hc2, Hp2. rewrite !app_assoc.
    by rewrite (Permutation_app_comm chain1 added2). }
  assert (last chain2 = Some o) as Ho2.
  { rewrite Hc2, last_app, Ho. done. }
  assert (length al2 ≤ length al) as Hlen2.
  { apply Permutation_length in P2. rewrite length_app in P2. simpl in P2.
    assert (0 < length chain2); [|lia].
    rewrite Hc2, Hc1, !length_app. simpl. lia. }
  destruct (1 <? length chain2) eqn:Hlong.
  - apply Nat.ltb_lt in Hlong. rewrite Ho2.
    assert (o ∈ lay :: al) as Hoin.
    { rewrite P2. apply elem_of_app. left. by apply last_Some_elem_of. }
    destruct (Hald o Hoin) as [src Hsrc].
    rewrite (getitem_layers_Some _ _ Hsrc), bind_Ok_l.
    destruct (copy_copy src h) as [l h'] eqn:Hcp.
    exists al2, (chains ++ [chain2]), (<[o := l]> layers2), h'.
    split; [done|]. split; [|done].
    apply (disc_inv_chain lay al al2 chain2 chains layers2 h o src l h' Hinv P2);
      try done.
    intros hd' Hhd'. rewrite Hhd in Hhd'. by injection Hhd' as <-.
  - apply Nat.ltb_ge in Hlong.
    assert (added1 = [] ∧ added2 = []) as [-> ->].
    { rewrite Hc2, Hc1, !length_app in Hlong. simpl in Hlong.
      split; apply length_zero_iff_nil; lia. }
    simpl in Hc1. subst chain1. simpl in Hc2. subst chain2.
    simpl in Ho, Hhd. injection Ho as <-. injection Hhd as <-.
    exists al2, chains, (<[lay := val]> layers2), h.
    split; [done|]. split; [|done].
    apply disc_inv_single with al; try done.
    simpl in Hp1, Hp2. by rewrite Hp1, Hp2.
Qed.

Lemma find_chains_spec fuel al chains layers2 h :
  length al < fuel →
  disc_inv al chains layers2 h →
  ∃ chains' layers2' h',
    find_chains layer_len fuel dsk al (chains, layers2, h)
      = Ok (chains', layers2', h')
    ∧ disc_inv [] chains' layers2' h'.
Proof.
  revert al chains layers2 h.
  induction fuel as [|fuel IH]; intros al chains layers2 h Hfuel Hinv; [lia|].
  cbn [find_chains]. destruct al as [|lay al]; [by exists chains, layers2, h|].
  destruct (visit_spec lay al chains layers2 h Hinv)
    as (al' & chains' & layers2' & h' & -> & Hinv' & Hlen).
  rewrite bind_Ok_l. cbv beta iota. apply IH; [|done]. simpl in Hfuel. lia.
Qed.

End wf_discovery.

Lemma discover_spec layer_len order dsk h (rank : string → nat) :
  NoDup order →
  (∀ x, x ∈ order ↔ is_Some (layers dsk !! x)) →
  (∀ x, is_Some (dependencies dsk !! x) ↔ is_Some (layers dsk !! x)) →
  (∀ d ds u, dependencies dsk !! d = Some ds → u ∈ ds → is_Some (layers dsk !! u)) →
  (∀ d ds u, dependencies dsk !! d = Some ds → u ∈ ds → rank u < rank d) →
  graph_allocated dsk h →
  ∃ chains layers2 h1,
    discover layer_len order dsk h = Ok (chains, layers2, h1)
    ∧ disc_inv layer_len dsk h [] chains layers2 h1.
Proof.
  intros Hnd Hod Hdd Hcl Hrank Hal.
  unfold discover.
  apply (find_chains_spec layer_len dsk h rank Hdd Hcl Hrank Hal); [lia|].
  split; try done.
  - simpl. by rewrite app_nil_r.
  - intros x Hx. by apply Hod.
  - intros u d Hud.
    destruct (fusable_in_graph layer_len dsk h u d Hud) as [Hu Hd].
    split; intros _; by apply Hod.
  - intros c Hc. by apply elem_of_nil in Hc.
  - intros x [l Hl]. by rewrite lookup_empty in Hl.
  - intros c o Hc. by apply elem_of_nil in Hc.
  - intros x Hx. left. by apply Hod.
Qed.

Lemma discover_wf layer_len order dsk h :
  well_formed order dsk h →
  ∃ chains layers2 h1,
    discover layer_len order dsk h = Ok (chains, layers2, h1)
    ∧ disc_inv layer_len dsk h [] chains layers2 h1.
Proof.
  intros [Hnd Hod Hdd Hcl [rank Hrank] Hal Hbw]. by eapply discover_spec.
Qed.

(** ** The rewrite of the chains *)

Lemma pop_all_spec members (deps : gmap string (gset string)) :
  NoDup members → (∀ x, x ∈ members → is_Some (deps !! x)) →
  ∃ deps', pop_all members deps = Ok deps'
    ∧ (∀ x, x ∈ members → deps' !! x = None)
    ∧ (∀ x, x ∉ members → deps' !! x = deps !! x).
Proof.
  revert deps. induction members as [|m members IH]; intros deps Hnd Hin; simpl.
  - exists deps. split_and!; [done| |done]. intros x Hx. by apply elem_of_nil in Hx.
  - apply NoDup_cons in Hnd as [Hm Hnd].
    destruct (Hin m) as [v Hv]; [apply list_elem_of_here|]. rewrite Hv.
    destruct (IH (delete m deps) Hnd) as (deps' & -> & Hl1 & Hl2).
    { intros x Hx. rewrite lookup_delete_ne; [apply Hin; by apply list_elem_of_further|].
      intros ->. done. }
    exists deps'. split_and!; [done| |].
    + intros x Hx. apply elem_of_cons in Hx as [->|Hx]; [|by apply Hl1].
      rewrite (Hl2 m Hm). apply lookup_delete_eq.
    + intros x Hx. apply not_elem_of_cons in Hx as [Hne Hx].
      rewrite (Hl2 x Hx). by apply lookup_delete_ne.
Qed.

Lemma dict_at_setitem d k v h d' k' :
  is_Some (dict_at h d' !! k') → is_Some (dict_at (dict_setitem d k v h) d' !! k').
Proof.
  unfold dict_at, dict_setitem. simpl. intros Hs.
  destruct (decide (d = d')) as [->|Hne].
  - destruct (dict_objs h !! d') as [m|] eqn:Hm.
    + rewrite (lookup_total_correct _ _ _ Hm) in Hs.
      erewrite lookup_total_correct; [|by rewrite lookup_alter_eq, Hm].
      destruct (decide (k = k')) as [->|?].
      * rewrite lookup_insert_eq. by eexists.
      * by rewrite lookup_insert_ne.
    + rewrite lookup_total_alter_eq, Hm. simpl.
      unfold lookup_total, map_lookup_total in Hs. by rewrite Hm in Hs.
  - by rewrite lookup_total_alter_ne.
Qed.

Lemma merge_io_deps_spec ks out_d member_d h :
  (∀ k, k ∈ ks → is_Some (dict_at h member_d !! k)) →
  ∃ h', merge_io_deps ks out_d member_d h = Ok h'
    ∧ layer_objs h' = layer_objs h
    ∧ ∀ d, d ≠ out_d → dict_objs h' !! d = dict_objs h !! d.
Proof.
  revert h. induction ks as [|k ks IH]; intros h Hk; simpl.
  - by exists h.
  - destruct (Hk k) as [v Hv]; [apply list_elem_of_here|]. rewrite Hv.
    destruct (IH (dict_setitem out_d k v h)) as (h' & -> & Hl & Hd).
    { intros k' Hk'. apply dict_at_setitem, Hk. by apply list_elem_of_further. }
    exists h'. split; [done|]. split; [done|].
    intros d Hne. rewrite (Hd d Hne). unfold dict_setitem. simpl.
    by rewrite lookup_alter_ne.
Qed.

Lemma lookup_update_layer_ne l l' f h :
  l ≠ l' → layer_objs (update_layer l f h) !! l' = layer_objs h !! l'.
Proof. intros. rewrite layer_objs_update. by apply lookup_alter_ne. Qed.

Lemma lookup_update_layer_eq l f h :
  layer_objs (update_layer l f h) !! l = f <$> layer_objs h !! l.
Proof. rewrite layer_objs_update. apply lookup_alter_eq. Qed.

Lemma layer_at_ext h h' l : layer_objs h' = layer_objs h → layer_at h' l = layer_at h l.
Proof. unfold layer_at. by intros ->. Qed.

Section wf_rewrite.

Variable dsk : HighLevelGraph.
Variable h0 : heap.
Variable layers2 : gmap string loc.

Hypothesis Halloc : graph_allocated dsk h0.
Hypothesis Hvalid :
  ∀ x v, layer_of dsk h0 x = Some v →
    isinstance_AwkwardBlockwiseLayer v = true → valid_blockwise x v.

Local Abbreviation blockwise := (is_blockwise dsk h0).

Lemma fuse_members_spec outlayer members st :
  layer_objs h0 ⊆ layer_objs (f_heap st) →
  Forall blockwise members →
  ∃ st', fuse_members dsk outlayer members st = Ok st'
    ∧ layer_objs (f_heap st') = layer_objs (f_heap st)
    ∧ ∀ d, d ≠ io_deps (layer_at (f_heap st) outlayer) →
        dict_objs (f_heap st') !! d = dict_objs (f_heap st) !! d.
Proof.
  revert st. induction members as [|m members IH]; intros st Hext Hb; simpl.
  - by exists st.
  - apply Forall_cons in Hb as [(v & Hv & Bv) Hb].
    pose proof (Hvalid m v Hv Bv) as [(func & args & Hdsk & Hargs) _].
    apply layer_of_Some in Hv as (lm & Hlm & Hvm).
    assert (layer_at (f_heap st) lm = v) as Hat.
    { unfold layer_at. apply lookup_total_correct. by eapply lookup_weaken. }
    unfold fuse_member. unfold getitem_layers. rewrite Hlm, bind_Ok_l. cbv zeta.
    rewrite Hat.
    destruct (merge_io_deps_spec
                (map fst (map_to_list (dict_at (f_heap st) (io_deps v))))
                (io_deps (layer_at (f_heap st) outlayer)) (io_deps v) (f_heap st))
      as (h' & -> & Hl & Hd).
    { intros k Hk. apply list_elem_of_fmap in Hk as ([k' x] & -> & Hk).
      apply elem_of_map_to_list in Hk. simpl. by eexists. }
    rewrite bind_Ok_l, Hdsk, lookup_singleton_eq.
    destruct (recursive_replace_total args v (f_parent st) (f_indices st) Hargs)
      as [[args2 ix'] ->].
    rewrite bind_Ok_l. cbv beta iota. rewrite bind_Ok_l.
    destruct (IH (mkFuse (<[m := func :: args2]> (f_subgraph st)) ix' m h'))
      as (st' & -> & Hl' & Hd'); simpl.
    + by rewrite Hl.
    + done.
    + exists st'. split; [done|]. simpl in Hl', Hd'. split; [by rewrite Hl'|].
      intros d Hne. rewrite Hd'; [by apply Hd|].
      by rewrite (layer_at_ext _ _ _ Hl).
Qed.

(** What the rewrite needs of a chain: distinct Blockwise members, at least
    two of them, and a copy of the last one in the output. *)
Definition chain_ready (h : heap) (c : list string) : Prop :=
  NoDup c ∧ Forall blockwise c ∧ 2 ≤ length c
  ∧ ∃ o l, last c = Some o ∧ layers2 !! o = Some l
      ∧ layer_objs h0 !! l = None ∧ is_Some (layer_objs h !! l).

Lemma rewrite_chain_spec chain deps h c0 d0 :
  layer_objs h0 ⊆ layer_objs h →
  chain_ready h chain →
  head chain = Some c0 →
  deps !! c0 = Some d0 →
  (∀ x, x ∈ chain → is_Some (deps !! x)) →
  ∃ deps' h' o l v0,
    rewrite_chain dsk layers2 chain (deps, h) = Ok (deps', h')
    ∧ last chain = Some o ∧ layers2 !! o = Some l
    ∧ layer_of dsk h0 c0 = Some v0
    ∧ deps' !! o = Some d0
    ∧ (∀ x, x ∈ removelast chain → deps' !! x = None)
    ∧ (∀ x, x ∉ chain → deps' !! x = deps !! x)
    ∧ (∀ l', l' ≠ l → layer_objs h' !! l' = layer_objs h !! l')
    ∧ (∀ v, layer_objs h !! l = Some v →
         ∃ v', layer_objs h' !! l = Some v'
           ∧ isinstance_AwkwardBlockwiseLayer v' = isinstance_AwkwardBlockwiseLayer v)
    ∧ (∀ d, d ≠ io_deps v0 → dict_objs h' !! d = dict_objs h !! d).
Proof.
  intros Hext (Hnd & Hb & Hlen & o & l & Hlast & Hl & Hfresh & [vl Hvl]) Hhd Hd0 Hin.
  destruct chain as [|c0' rest]; [done|]. simpl in Hhd. injection Hhd as ->.
  assert (blockwise c0) as (v0 & Hv0 & Bv0).
  { rewrite Forall_forall in Hb. apply Hb, list_elem_of_here. }
  pose proof (Hvalid c0 v0 Hv0 Bv0) as [_ (n & r & Hnb)].
  pose proof Hv0 as Hv0'.
  apply layer_of_Some in Hv0' as (l0 & Hl0 & Hvl0).
  assert (layer_at h l0 = v0) as Hat0.
  { unfold layer_at. apply lookup_total_correct. by eapply lookup_weaken. }
  pose proof Hlast as Hdecomp. apply last_Some in Hdecomp as [body Hbody].
  assert (removelast (c0 :: rest) = body) as Hrl.
  { rewrite Hbody. apply removelast_last. }
  assert (NoDup body ∧ o ∉ body) as [Hndb Hob].
  { rewrite Hbody in Hnd. apply NoDup_app in Hnd as (? & Hd & _). split; [done|].
    intros Ho. apply (Hd o Ho). apply list_elem_of_here. }
  destruct (pop_all_spec body (<[o := d0]> deps) Hndb) as (deps' & Hpop & Hp1 & Hp2).
  { intros x Hx. rewrite lookup_insert_ne by (intros <-; done).
    apply Hin. rewrite Hbody. apply elem_of_app. by left. }
  set (hst := update_layer l (set_io_deps (io_deps v0)) h).
  destruct (fuse_members_spec l rest (mkFuse (layer_dsk v0) (indices v0) c0 hst))
    as (st' & Hfm & Hfl & Hfd).
  { cbn [f_heap]. unfold hst. apply map_subseteq_spec. intros i x Hi.
    rewrite lookup_update_layer_ne by congruence. by eapply lookup_weaken. }
  { by apply Forall_cons in Hb as [_ ?]. }
  cbn [f_heap] in Hfl, Hfd.
  eexists deps', _, o, l, v0. split_and!.
  - unfold rewrite_chain. rewrite Hlast. unfold getitem_layers.
    rewrite Hl0, bind_Ok_l, Hl, Hat0. unfold first_numblocks. rewrite Hnb, !bind_Ok_l.
    rewrite Hd0, Hrl, Hpop, bind_Ok_l. cbn [tail]. fold hst. rewrite Hfm, bind_Ok_l.
    reflexivity.
  - done.
  - done.
  - done.
  - rewrite (Hp2 o Hob). apply lookup_insert_eq.
  - intros x Hx. rewrite Hrl in Hx. by apply Hp1.
  - intros x Hx. rewrite Hp2.
    + apply lookup_insert_ne. intros <-. apply Hx. by apply last_Some_elem_of.
    + intros Hxb. apply Hx. rewrite Hbody. apply elem_of_app. by left.
  - intros l' Hne. rewrite !lookup_update_layer_ne by done. rewrite Hfl.
    unfold hst. by rewrite lookup_update_layer_ne.
  - intros v Hv. rewrite !lookup_update_layer_eq, Hfl. unfold hst.
    rewrite lookup_update_layer_eq, Hv. simpl. eexists. split; reflexivity.
  - intros d Hne. rewrite !dict_objs_update. rewrite Hfd.
    + unfold hst. by rewrite dict_objs_update.
    + unfold hst. by rewrite (layer_at_update_eq _ _ _ _ Hvl).
Qed.

Lemma rewrite_chains_spec cs (deps0 deps : gmap string (gset string)) h :
  layer_objs h0 ⊆ layer_objs h →
  NoDup (concat cs) →
  (∀ c, c ∈ cs → chain_ready h c) →
  (∀ x, x ∈ concat cs → is_Some (deps0 !! x) ∧ deps !! x = deps0 !! x) →
  ∃ deps' h',
    rewrite_chains dsk layers2 cs (deps, h) = Ok (deps', h')
    ∧ (∀ c o c0, c ∈ cs → last c = Some o → head c = Some c0 →
         deps' !! o = deps0 !! c0)
    ∧ (∀ c x, c ∈ cs → x ∈ removelast c → deps' !! x = None)
    ∧ (∀ x, x ∉ concat cs → deps' !! x = deps !! x)
    ∧ (∀ l', (∀ c o, c ∈ cs → last c = Some o → layers2 !! o ≠ Some l') →
         layer_objs h' !! l' = layer_objs h !! l')
    ∧ (∀ l' v, layer_objs h !! l' = Some v →
         ∃ v', layer_objs h' !! l' = Some v'
           ∧ isinstance_AwkwardBlockwiseLayer v' = isinstance_AwkwardBlockwiseLayer v)
    ∧ (∀ d, (∀ c c0 v0, c ∈ cs → head c = Some c0 →
               layer_of dsk h0 c0 = Some v0 → d ≠ io_deps v0) →
         dict_objs h' !! d = dict_objs h !! d).
Proof.
  revert deps h. induction cs as [|c cs IH]; intros deps h Hext Hnd Hready Hdeps.
  - exists deps, h. simpl. split_and!; try done.
    + intros c o c0 Hc. by apply elem_of_nil in Hc.
    + intros c x Hc. by apply elem_of_nil in Hc.
    + intros l' v Hv. by exists v.
  - simpl in Hnd. apply NoDup_app in Hnd as (Hndc & Hdisj & Hndcs).
    pose proof (Hready c (list_elem_of_here _ _)) as Hrc.
    pose proof Hrc as (_ & _ & Hlen & _).
    destruct c as [|c0 rest] eqn:Hceq; [simpl in Hlen; lia|]. rewrite <- Hceq in *.
    assert (head c = Some c0) as Hhd by by rewrite Hceq.
    assert (c0 ∈ c) as Hc0 by (rewrite Hceq; apply list_elem_of_here).
    assert (∀ x, x ∈ c → x ∈ concat (c :: cs)) as Hcin.
    { intros x Hx. simpl. apply elem_of_app. by left. }
    assert (∀ x, x ∈ concat cs → x ∈ concat (c :: cs)) as Hcsin.
    { intros x Hx. simpl. apply elem_of_app. by right. }
    destruct (Hdeps c0 (Hcin _ Hc0)) as [[d0 Hd0] Hd0'].
    destruct (rewrite_chain_spec c deps h c0 d0 Hext Hrc Hhd)
      as (deps1 & h1 & o & l & v0 & Hrw & Hlast & Hl & Hv0 & Ho & Hrem & Hfr
          & Hlf & Hlk & Hdf).
    { by rewrite Hd0'. }
    { intros x Hx. destruct (Hdeps x (Hcin _ Hx)) as [Hs ->]. done. }
    pose proof Hrc as (_ & _ & _ & o' & l'' & Hlast' & Hl' & Hfresh & _).
    rewrite Hlast in Hlast'. injection Hlast' as <-.
    rewrite Hl in Hl'. injection Hl' as <-.
    destruct (IH deps1 h1) as (deps' & h' & Hrws & Ha & Hb & Hc & Hh1 & Hh2 & Hh3).
    + apply map_subseteq_spec. intros i x Hi. rewrite Hlf by congruence.
      by eapply lookup_weaken.
    + done.
    + intros c' Hc'.
      destruct (Hready c' (list_elem_of_further _ _ _ Hc'))
        as (? & ? & ? & oc & lc & ? & ? & ? & [vc Hvc]).
      split_and!; try done. exists oc, lc. split_and!; try done.
      destruct (decide (lc = l)) as [->|Hne].
      * destruct (Hlk _ Hvc) as (v' & -> & _). by eexists.
      * rewrite Hlf by done. by eexists.
    + intros x Hx. destruct (Hdeps x (Hcsin _ Hx)) as [Hs Heq]. split; [done|].
      rewrite Hfr; [done|]. intros Hxc. by eapply Hdisj.
    + exists deps', h'. split_and!.
      * cbn [rewrite_chains]. by rewrite Hrw, bind_Ok_l.
      * intros c' o' c0' Hc' Hlast' Hhd'.
        apply elem_of_cons in Hc' as [->|Hc']; [|by eapply Ha].
        rewrite Hlast in Hlast'. injection Hlast' as <-.
        rewrite Hhd in Hhd'. injection Hhd' as <-.
        rewrite Hc; [by rewrite Ho, Hd0|].
        apply Hdisj. by apply last_Some_elem_of.
      * intros c' x Hc' Hx.
        apply elem_of_cons in Hc' as [->|Hc']; [|by eapply Hb].
        rewrite Hc; [by apply Hrem|].
        apply Hdisj. by eapply removelast_elem.
      * intros x Hx. simpl in Hx. rewrite Hc, Hfr; [done| |].
        -- intros ?. apply Hx, elem_of_app. by left.
        -- intros ?. apply Hx, elem_of_app. by right.
      * intros l' Hnot. rewrite Hh1.
        -- apply Hlf. intros ->. by apply (Hnot c o (list_elem_of_here _ _) Hlast).
        -- intros c' o' Hc'. apply Hnot. by apply list_elem_of_further.
      * intros l' v Hv. destruct (decide (l' = l)) as [->|Hne].
        -- destruct (Hlk _ Hv) as (v1 & Hv1 & HB1).
           destruct (Hh2 _ _ Hv1) as (v' & Hv' & HB'). exists v'. split; [done|].
           congruence.
        -- apply Hh2. by rewrite Hlf.
      * intros d Hd. rewrite Hh3.
        -- apply Hdf. by apply (Hd c c0 v0 (list_elem_of_here _ _)).
        -- intros c' c0' v0' Hc'. apply Hd. by apply list_elem_of_further.
Qed.

End wf_rewrite.

Lemma NoDup_concat_elem {A} (cs : list (list A)) c :
  NoDup (concat cs) → c ∈ cs → NoDup c.
Proof.
  induction cs as [|c' cs IH]; intros Hnd Hc; [by apply elem_of_nil in Hc|].
  simpl in Hnd. apply NoDup_app in Hnd as (? & _ & ?).
  apply elem_of_cons in Hc as [->|Hc]; [done|by apply IH].
Qed.

(** ** The whole pass on a well-formed graph *)

Section whole_pass.

Variable layer_len : Layer → nat.
Variable order : list string.
Variable dsk : HighLevelGraph.
Variable h : heap.
Hypothesis Hwf : well_formed order dsk h.

(** The copy made for the last member of a chain. *)
Lemma chain_copy chains layers2 h1 c :
  disc_inv layer_len dsk h [] chains layers2 h1 →
  c ∈ chains →
  ∃ c0 o l l0,
    head c = Some c0 ∧ last c = Some o ∧ layers2 !! o = Some l
    ∧ layers dsk !! o = Some l0
    ∧ layer_objs h !! l = None
    ∧ layer_objs h1 !! l = layer_objs h !! l0
    ∧ ∀ y, layers2 !! y = Some l → y = o.
Proof.
  intros Hinv Hc. destruct Hinv as [_ _ _ Hg _ _ _ _ _ Hout _ Hla _ _].
  rewrite Forall_forall in Hg. destruct (Hg c Hc) as (Hlen & _ & _).
  destruct c as [|c0 rest] eqn:Hceq; [simpl in Hlen; lia|]. rewrite <- Hceq in *.
  destruct (last c) as [o|] eqn:Ho; [|apply last_None in Ho; congruence].
  destruct (Hla c o Hc Ho) as [l Hl].
  destruct (Hout o l Hl) as [(Hno & _)|(c' & l0 & Hc' & Hlc' & Hl0 & Hfr & Hcp & Hu)].
  - exfalso. apply Hno. apply elem_of_concat. exists c. split; [done|].
    by apply last_Some_elem_of.
  - exists c0, o, l, l0. split_and!; try done. by rewrite Hceq.
Qed.

Lemma rewrite_layer_chains_wf :
  ∃ chains layers2 h1 deps' h',
    discover layer_len order dsk h = Ok (chains, layers2, h1)
    ∧ disc_inv layer_len dsk h [] chains layers2 h1
    ∧ rewrite_layer_chains layer_len order dsk h = Ok (mkHLG layers2 deps', h')
    ∧ (∀ c o c0, c ∈ chains → last c = Some o → head c = Some c0 →
         deps' !! o = dependencies dsk !! c0)
    ∧ (∀ c x, c ∈ chains → x ∈ removelast c → deps' !! x = None)
    ∧ (∀ x, x ∉ concat chains → deps' !! x = dependencies dsk !! x)
    ∧ (∀ l', (∀ c o, c ∈ chains → last c = Some o → layers2 !! o ≠ Some l') →
         layer_objs h' !! l' = layer_objs h1 !! l')
    ∧ (∀ l' v, layer_objs h1 !! l' = Some v →
         ∃ v', layer_objs h' !! l' = Some v'
           ∧ isinstance_AwkwardBlockwiseLayer v' = isinstance_AwkwardBlockwiseLayer v)
    ∧ (∀ d, (∀ c c0 v0, c ∈ chains → head c = Some c0 →
               layer_of dsk h c0 = Some v0 → d ≠ io_deps v0) →
         dict_objs h' !! d = dict_objs h1 !! d).
Proof.
  destruct (discover_wf layer_len order dsk h Hwf)
    as (chains & layers2 & h1 & Hdisc & Hinv).
  pose proof Hwf as [_ _ Hdd _ _ Hal Hbw].
  pose proof Hinv as [Hnd _ _ Hg _ Hly _ Hoa _ _ _ _ _ _].
  simpl in Hnd. rewrite Forall_forall in Hg.
  destruct (rewrite_chains_spec dsk h layers2 Hbw chains
              (dependencies dsk) (dependencies dsk) h1 Hly Hnd)
    as (deps' & h' & Hrw & Hrest).
  - intros c Hc. destruct (Hg c Hc) as (Hlen & _ & Hb).
    destruct (chain_copy chains layers2 h1 c Hinv Hc)
      as (c0 & o & l & l0 & _ & Ho & Hl & _ & Hfr & _).
    split_and!; try done.
    + by eapply NoDup_concat_elem.
    + exists o, l. split_and!; try done. by eapply Hoa.
  - intros x Hx. split; [|done].
    apply elem_of_concat in Hx as (c & Hc & Hx).
    destruct (Hg c Hc) as (_ & _ & Hb). rewrite Forall_forall in Hb.
    apply Hdd. eapply blockwise_in_graph. by apply Hb.
  - exists chains, layers2, h1, deps', h'. split_and!; try done; try apply Hrest.
    unfold rewrite_layer_chains. rewrite Hdisc, bind_Ok_l. cbv beta iota.
    by rewrite Hrw, bind_Ok_l.
Qed.

End whole_pass.


(** ** Checking well-formedness by computation *)

Definition valid_blockwise_b (x : string) (v : Layer) : bool :=
  match map_to_list (layer_dsk v) with
  | [(k, _ :: args)] =>
      bool_decide (k = x) && forallb (valid_arg (layer_indices v)) args
  | _ => false
  end
  && match partitioned_counts (numblocks v) with
     | Ok (_ :: _) => true
     | _ => false
     end.

Definition wf_check (rank : string → nat) (order : list string)
    (dsk : HighLevelGraph) (h : heap) : bool :=
  bool_decide (NoDup order)
  && bool_decide (list_to_set order = dom (layers dsk))
  && bool_decide (dom (dependencies dsk) = dom (layers dsk))
  && bool_decide (referenced (dependencies dsk) ⊆ dom (layers dsk))
  && forallb (λ dd : string * gset string,
                forallb (λ u, rank u <? rank dd.1) (elements dd.2))
             (map_to_list (dependencies dsk))
  && forallb (λ xl : string * loc,
                match layer_objs h !! xl.2 with
                | Some v =>
                    implb (isinstance_AwkwardBlockwiseLayer v) (valid_blockwise_b xl.1 v)
                | None => false
                end)
             (map_to_list (layers dsk)).

Lemma valid_blockwise_b_sound x v : valid_blockwise_b x v = true → valid_blockwise x v.
Proof.
  unfold valid_blockwise_b. intros H. apply andb_true_iff in H as [Hd Hn]. split.
  - destruct (map_to_list (layer_dsk v)) as [|[k [|func args]] [|? ?]] eqn:Hm; try done.
    apply andb_true_iff in Hd as [Hk Ha]. apply bool_decide_eq_true in Hk as ->.
    exists func, args. split; [|done].
    rewrite <- (list_to_map_to_list (layer_dsk v)), Hm. simpl.
    by rewrite insert_empty.
  - destruct (partitioned_counts (numblocks v)) as [[|n r]| |]; try done. eauto.
Qed.

Lemma wf_check_sound rank order dsk h :
  wf_check rank order dsk h = true → well_formed order dsk h.
Proof.
  unfold wf_check. intros H.
  repeat (apply andb_true_iff in H as [H ?]).
  apply bool_decide_eq_true in H.
  repeat match goal with
         | Hb : bool_decide _ = true |- _ => apply bool_decide_eq_true in Hb
         end.
  match goal with Hr : forallb _ (map_to_list (dependencies dsk)) = true |- _ =>
    rename Hr into Hrank end.
  match goal with Hl : forallb _ (map_to_list (layers dsk)) = true |- _ =>
    rename Hl into Hlay end.
  rewrite forallb_forall in Hrank, Hlay.
  assert (∀ x l, layers dsk !! x = Some l →
            ∃ v, layer_objs h !! l = Some v
              ∧ (isinstance_AwkwardBlockwiseLayer v = true → valid_blockwise x v))
    as Hobj.
  { intros x l Hl. specialize (Hlay (x, l)). simpl in Hlay.
    destruct (layer_objs h !! l) as [v|].
    - exists v. split; [done|]. intros Bv. rewrite Bv in Hlay.
      apply valid_blockwise_b_sound, Hlay.
      by apply list_elem_of_In, elem_of_map_to_list.
    - discriminate Hlay. by apply list_elem_of_In, elem_of_map_to_list. }
  split.
  - done.
  - intros x. rewrite <- elem_of_dom.
    match goal with He : list_to_set order = _ |- _ => rewrite <- He end.
    by rewrite elem_of_list_to_set.
  - intros x. rewrite <- !elem_of_dom.
    match goal with He : dom (dependencies dsk) = _ |- _ => by rewrite He end.
  - intros d ds u Hd Hu. apply elem_of_dom.
    match goal with Hs : referenced _ ⊆ _ |- _ => apply Hs end.
    apply elem_of_referenced. eauto.
  - exists rank. intros d ds u Hd Hu.
    specialize (Hrank (d, ds)). simpl in Hrank.
    rewrite forallb_forall in Hrank. apply Nat.ltb_lt, Hrank.
    + by apply list_elem_of_In, elem_of_map_to_list.
    + by apply list_elem_of_In, elem_of_elements.
  - intros x l Hl. destruct (Hobj x l Hl) as (v & Hv & _). by eexists.
  - intros x v Hv Bv. unfold layer_of in Hv.
    destruct (layers dsk !! x) as [l|] eqn:Hl; [|done]. simpl in Hv.
    destruct (Hobj x l Hl) as (v' & Hv' & Hva). rewrite Hv in Hv'.
    injection Hv' as <-. by apply Hva.
Qed.


(** A chain head without any partitioned block count is outside the
    well-formed graphs: there the rewrite stops with an [IndexError]. *)
Example no_partitioned_input :
  rewrite_layer_chains Ex.len3 ["A"; "B"] Ex.g_chain Ex.h_lit
  = Raise (mk_exn IndexError "list index out of range").
Proof. vm_compute. reflexivity. Qed.



(** ** A second pass finds nothing to fuse *)


Lemma elem_last_or_removelast (c : list string) x :
  x ∈ c → last c = Some x ∨ x ∈ removelast c.
Proof.
  destruct c as [|o body _] using rev_ind; intros Hx; [by apply elem_of_nil in Hx|].
  rewrite last_snoc, removelast_last.
  apply elem_of_app in Hx as [Hx|Hx]; [by right|].
  apply list_elem_of_singleton in Hx as ->. by left.
Qed.


Section idempotence.

Variable layer_len : Layer → nat.
Variable order : list string.
Variable dsk : HighLevelGraph.
Variable h : heap.
Variable rank : string → nat.
Variables (chains : list (list string)) (layers2 : gmap string loc) (h1 : heap).
Variables (deps' : gmap string (gset string)) (h' : heap).

Hypothesis Hdom : ∀ x, is_Some (dependencies dsk !! x) ↔ is_Some (layers dsk !! x).
Hypothesis Hclosed :
  ∀ d ds u, dependencies dsk !! d = Some ds → u ∈ ds → is_Some (layers dsk !! u).
Hypothesis Hrank :
  ∀ d ds u, dependencies dsk !! d = Some ds → u ∈ ds → rank u < rank d.
Hypothesis Halloc : graph_allocated dsk h.
Hypothesis Hinv : disc_inv layer_len dsk h [] chains layers2 h1.
Hypothesis Hda :
  ∀ c o c0, c ∈ chains → last c = Some o → head c = Some c0 →
    deps' !! o = dependencies dsk !! c0.
Hypothesis Hdb : ∀ c x, c ∈ chains → x ∈ removelast c → deps' !! x = None.
Hypothesis Hdc : ∀ x, x ∉ concat chains → deps' !! x = dependencies dsk !! x.
Hypothesis Hh1 :
  ∀ l', (∀ c o, c ∈ chains → last c = Some o → layers2 !! o ≠ Some l') →
    layer_objs h' !! l' = layer_objs h1 !! l'.
Hypothesis Hh2 :
  ∀ l' v, layer_objs h1 !! l' = Some v →
    ∃ v', layer_objs h' !! l' = Some v'
      ∧ isinstance_AwkwardBlockwiseLayer v' = isinstance_AwkwardBlockwiseLayer v.
(** Fusion preserves the number of partitions: a layer of the output is as
    long as the input layer of the same name. *)
Hypothesis Hlen :
  ∀ x l l', layers dsk !! x = Some l → layers2 !! x = Some l' →
    layer_len (layer_at h' l') = layer_len (layer_at h l).

Local Abbreviation F := (fusable layer_len dsk h).
Local Abbreviation G' := (mkHLG layers2 deps').

(** The input layer whose dependencies an output layer inherits. *)
Definition rep (x y : string) : Prop :=
  ((x ∉ concat chains) ∧ y = x)
  ∨ ∃ c, c ∈ chains ∧ last c = Some x ∧ head c = Some y.


Lemma chain_good c : c ∈ chains → good_chain layer_len dsk h c.
Proof. intros Hc. destruct Hinv as [_ _ _ Hg]. rewrite Forall_forall in Hg. auto. Qed.


Lemma out_rep x :
  is_Some (layers2 !! x) →
  ∃ y, rep x y ∧ is_Some (layers dsk !! y) ∧ (∀ p, ¬ F p y)
       ∧ rank y ≤ rank x.
Proof.
  intros [l Hl]. destruct Hinv as [_ _ _ _ Hmax _ _ _ _ Hout _ _ _ _].
  destruct (Hout x l Hl) as [(Hx & Hlx & _ & Hp)|(c & l0 & Hc & Hla & _)].
  - exists x. split_and!; [by left|by eexists|done|lia].
  - destruct (chain_good c Hc) as (Hcl & Hlk & Hb).
    destruct c as [|c0 rest] eqn:Hceq; [simpl in Hcl; lia|]. rewrite <- Hceq in *.
    assert (head c = Some c0) as Hhd by by rewrite Hceq.
    assert (c0 ∈ c) as Hc0 by (rewrite Hceq; apply list_elem_of_here).
    exists c0. split_and!.
    + right. by exists c.
    + rewrite Forall_forall in Hb. eapply blockwise_in_graph. by apply Hb.
    + by apply (Hmax c Hc).
    + by eapply (chain_rank_last layer_len dsk h rank Hrank c).
Qed.

Lemma rep_deps x y : rep x y → deps' !! x = dependencies dsk !! y.
Proof.
  intros [[Hx ->]|(c & Hc & Hla & Hhd)]; [by apply Hdc|by eapply Hda].
Qed.



(** An output layer against the input layer of the same name: the object is
    allocated and of the same class. *)
Lemma out_layer x l' :
  layers2 !! x = Some l' →
  ∃ lx vx v',
    layers dsk !! x = Some lx ∧ layer_objs h !! lx = Some vx
    ∧ layer_objs h' !! l' = Some v'
    ∧ isinstance_AwkwardBlockwiseLayer v' = isinstance_AwkwardBlockwiseLayer vx.
Proof.
  intros Hl. destruct Hinv as [_ _ _ _ _ Hly _ Hoa _ Hout _ _ _ _].
  destruct (Hout x l' Hl)
    as [(_ & Hlx & _)|(c & l0 & Hc & Hla & Hl0 & Hfr & Hcp & _)].
  - destruct (Halloc _ _ Hlx) as [vx Hvx].
    destruct (Hh2 l' vx) as (v' & Hv' & HB); [by eapply lookup_weaken|].
    exists l', vx, v'. done.
  - destruct (Halloc _ _ Hl0) as [vx Hvx].
    destruct (Hh2 l' vx) as (v' & Hv' & HB); [by rewrite Hcp|].
    exists l0, vx, v'. done.
Qed.


Lemma out_in_chain_is_last c x :
  c ∈ chains → x ∈ c → is_Some (layers2 !! x) → last c = Some x.
Proof.
  intros Hc Hx [l Hl]. destruct Hinv as [_ _ _ _ _ _ _ _ _ _ Hnl _ _ _].
  destruct (elem_last_or_removelast c x Hx) as [?|Hr]; [done|].
  rewrite (Hnl c x Hc Hr) in Hl. done.
Qed.

Lemma out_deps_dom x : is_Some (deps' !! x) ↔ is_Some (layers2 !! x).
Proof.
  destruct Hinv as [_ _ _ _ _ _ _ _ _ _ _ Hla Hcov _]. split.
  - intros Hs. destruct (decide (x ∈ concat chains)) as [Hxc|Hxc].
    + apply elem_of_concat in Hxc as (c & Hc & Hxc).
      destruct (elem_last_or_removelast c x Hxc) as [Ho|Hr]; [by eapply Hla|].
      rewrite (Hdb c x Hc Hr) in Hs. by destruct Hs.
    + rewrite (Hdc x Hxc) in Hs. apply Hdom in Hs.
      destruct (Hcov x Hs) as [Hin|[?|?]]; [by apply elem_of_nil in Hin|done..].
  - intros Hs. destruct (out_rep x Hs) as (y & Hr & Hy & _).
    rewrite (rep_deps x y Hr). by apply Hdom.
Qed.

Lemma out_closed d ds u :
  deps' !! d = Some ds → u ∈ ds → is_Some (layers2 !! u).
Proof.
  intros Hd Hu. destruct Hinv as [_ _ _ _ _ _ _ _ _ _ _ Hla Hcov _].
  destruct (out_rep d) as (y & Hr & Hy & Hnp & _); [apply out_deps_dom; by eexists|].
  rewrite (rep_deps d y Hr) in Hd.
  pose proof (Hclosed _ _ _ Hd Hu) as Hug.
  destruct (Hcov u Hug) as [Hin|[?|Hin]]; [by apply elem_of_nil in Hin|done|].
  apply elem_of_concat in Hin as (c & Hc & Huc).
  destruct (chain_good c Hc) as (_ & Hlk & _).
  destruct (linked_succ layer_len dsk h c u Hlk Huc) as [Ho|(s & _ & Hs)];
    [by eapply Hla|].
  exfalso. apply (Hnp u).
  assert (y = s) as ->; [|done].
  destruct Hs as (Hdep & _). apply dependents_Some in Hdep as [Hdep _].
  assert (y ∈ dependents_of (dependencies dsk) u) as Hin.
  { apply elem_of_dependents_of. eauto. }
  rewrite <- Hdep in Hin. by apply elem_of_singleton in Hin.
Qed.

Lemma out_rank d ds u : deps' !! d = Some ds → u ∈ ds → rank u < rank d.
Proof.
  intros Hd Hu.
  destruct (out_rep d) as (y & Hr & _ & _ & Hle); [apply out_deps_dom; by eexists|].
  rewrite (rep_deps d y Hr) in Hd. pose proof (Hrank _ _ _ Hd Hu). lia.
Qed.

Lemma out_allocated : graph_allocated G' h'.
Proof.
  intros x l Hl. simpl in Hl.
  destruct (out_layer x l Hl) as (_ & _ & v' & _ & _ & Hv' & _). by eexists.
Qed.



End idempotence.






(** * Further properties *)


(** ** Reference tokens are read back as written *)

(** A character that [str(n)] produces: a digit, hence neither white space
    nor a sign. *)
Definition digit_char (a : Ascii.ascii) : Prop :=
  is_py_space a = false
  ∧ Ascii.eqb a (Ascii.ascii_of_nat 45) = false
  ∧ Ascii.eqb a (Ascii.ascii_of_nat 43) = false.

Lemma pretty_N_char_digit (x : N) : digit_char (pretty_N_char x).
Proof. unfold pretty_N_char. by repeat case_match. Qed.

Lemma digit_of_pretty_N_char (x : N) :
  (x < 10)%N → digit_of (pretty_N_char x) = Some (Z.of_N x).
Proof.
  intros Hx. replace x with (N.of_nat (N.to_nat x)) by lia.
  assert (N.to_nat x < 10) as Hn by lia. revert Hn.
  generalize (N.to_nat x). intros n Hn.
  do 10 (destruct n as [|n]; [reflexivity|]). lia.
Qed.

Lemma pretty_N_go_digits (x : N) (s : string) :
  Forall digit_char (String.list_ascii_of_string s) →
  Forall digit_char (String.list_ascii_of_string (pretty_N_go x s)).
Proof.
  revert s. induction (N.lt_wf_0 x) as [x _ IH]; intros s Hs.
  assert (x = 0 ∨ 0 < x)%N as [->|Hx] by lia; [by rewrite pretty_N_go_0|].
  rewrite pretty_N_go_step by done. apply IH; [by apply N.div_lt|].
  simpl. constructor; [apply pretty_N_char_digit|done].
Qed.

Lemma digits_val_pretty_N_go (x : N) (s : string) :
  (0 < x)%N →
  digits_val (String.list_ascii_of_string (pretty_N_go x s)) 0 false
  = digits_val (String.list_ascii_of_string s) (Z.of_N x) true.
Proof.
  revert s. induction (N.lt_wf_0 x) as [x _ IH]; intros s Hx.
  rewrite pretty_N_go_step by done.
  assert (x `mod` 10 < 10)%N as Hm by (apply N.mod_lt; lia).
  pose proof (N.div_mod x 10 ltac:(lia)) as Hdm.
  assert (x `div` 10 = 0 ∨ 0 < x `div` 10)%N as [Hq|Hq] by lia.
  - rewrite Hq, pretty_N_go_0. simpl. rewrite (digit_of_pretty_N_char _ Hm).
    f_equal. lia.
  - rewrite IH; [|by apply N.div_lt|done]. simpl.
    rewrite (digit_of_pretty_N_char _ Hm). f_equal. lia.
Qed.

Lemma lstrip_digits (l : list Ascii.ascii) : Forall digit_char l → lstrip l = l.
Proof. destruct 1 as [|a l (Ha & _) _]; simpl; [done|by rewrite Ha]. Qed.

Lemma strip_digits (l : list Ascii.ascii) : Forall digit_char l → strip l = l.
Proof.
  intros Hl. unfold strip. rewrite (lstrip_digits l Hl), lstrip_digits.
  - apply rev_involutive.
  - by apply Forall_rev.
Qed.

Lemma python_int_pretty (n : nat) : python_int (pretty n) = Some (Z.of_nat n).
Proof.
  unfold pretty, pretty_nat, pretty, pretty_N.
  case_decide as Hn; [by replace n with 0 by lia|].
  assert (0 < N.of_nat n)%N as Hpos by lia.
  pose proof (pretty_N_go_digits (N.of_nat n) "" (Forall_nil_2 _)) as Hd.
  pose proof (digits_val_pretty_N_go (N.of_nat n) "" Hpos) as Hv. simpl in Hv.
  unfold python_int. rewrite (strip_digits _ Hd).
  destruct (String.list_ascii_of_string (pretty_N_go (N.of_nat n) "")) as [|a r];
    [done|].
  apply Forall_cons in Hd as [(_ & -> & ->) _]. rewrite Hv. f_equal. lia.
Qed.

Lemma blockwise_token_prefix (n : nat) :
  startswith (blockwise_token n) TOKEN_PREFIX = true.
Proof.
  unfold startswith, blockwise_token, TOKEN_PREFIX. simpl.
  by destruct ("" +:+ pretty n).
Qed.

Lemma blockwise_token_suffix (n : nat) :
  python_int (string_drop 18 (blockwise_token n)) = Some (Z.of_nat n).
Proof. apply python_int_pretty. Qed.

(** The token [_recursive_replace] writes for position [n] (line 387) passes
    the test of line 376, and lines 376-377 read the position [n] back from
    it. *)
Theorem token_round_trip (n : nat) :
  startswith (blockwise_token n) TOKEN_PREFIX = true
  ∧ python_int (string_drop 18 (blockwise_token n)) = Some (Z.of_nat n).
Proof. split; [apply blockwise_token_prefix|apply blockwise_token_suffix]. Qed.

(** ** [_recursive_replace]: when it fails, and what it returns *)






(** A slot [_recursive_replace] may append: one of the layer's own slots,
    partitioned, and not the output of the preceding chain member. *)
Definition appended_slot (layer : Layer) (parent : string) (s : slot) : Prop :=
  s ∈ layer_indices layer ∧ is_Some s.2 ∧ key_is s.1 parent = false.

Lemma py_index_elem {A} (l : list A) (i : Z) (x : A) : py_index l i = Some x → x ∈ l.
Proof.
  unfold py_index. repeat case_match; try done; apply list_elem_of_lookup_2.
Qed.

Lemma replace_loop_shape layer parent (l : list pyarg) :
  Forall (λ a, ∀ ix a2 ix', _recursive_replace_arg layer parent a ix = Ok (a2, ix') →
                ∃ app, ix' = ix ++ app ∧ Forall (appended_slot layer parent) app) l →
  ∀ acc ix r ix', replace_loop layer parent l acc ix = Ok (r, ix') →
    length r = length acc + length l
    ∧ ∃ app, ix' = ix ++ app ∧ Forall (appended_slot layer parent) app.
Proof.
  induction 1 as [|a l Ha _ IH]; intros acc ix r ix' Hr; simpl in Hr.
  - injection Hr as <- <-. split; [simpl; lia|]. exists []. by rewrite app_nil_r.
  - apply bind_Ok in Hr as ([a2 i1] & Ea & Hr).
    destruct (Ha _ _ _ Ea) as (app1 & -> & Hf1).
    destruct (IH _ _ _ _ Hr) as (Hlen & app2 & -> & Hf2).
    split; [rewrite Hlen, length_app; simpl; lia|].
    exists (app1 ++ app2). split; [by rewrite app_assoc|by apply Forall_app].
Qed.

Lemma recursive_replace_arg_shape layer parent a :
  ∀ ix a2 ix', _recursive_replace_arg layer parent a ix = Ok (a2, ix') →
    ∃ app, ix' = ix ++ app ∧ Forall (appended_slot layer parent) app.
Proof.
  induction a as [s|l IH|l IH| | | |] using pyarg_nested_ind; intros ix a2 ix' Hr;
    try (injection Hr as <- <-; exists []; by rewrite app_nil_r).
  - rewrite recursive_replace_str in Hr.
    destruct (startswith s TOKEN_PREFIX);
      [|injection Hr as <- <-; exists []; by rewrite app_nil_r].
    destruct (python_int (string_drop 18 s)) as [ind|]; [|done].
    destruct (py_index (layer_indices layer) ind) as [[name [ax|]]|] eqn:Hi;
      [|injection Hr as <- <-; exists []; by rewrite app_nil_r|done].
    destruct (key_is name parent) eqn:Hk;
      [injection Hr as <- <-; exists []; by rewrite app_nil_r|].
    injection Hr as <- <-. exists [(name, Some ax)]. split; [done|].
    apply Forall_singleton. split_and!; [by eapply py_index_elem|by eexists|done].
  - rewrite recursive_replace_list in Hr. apply bind_Ok in Hr as ([l2 i'] & E & Hr).
    injection Hr as <- <-. by destruct (replace_loop_shape layer parent l IH _ _ _ _ E).
  - rewrite recursive_replace_tuple in Hr. apply bind_Ok in Hr as ([l2 i'] & E & Hr).
    injection Hr as <- <-. by destruct (replace_loop_shape layer parent l IH _ _ _ _ E).
Qed.

Lemma recursive_replace_appends_only_aux (args : list pyarg) (layer : Layer)
    (parent : string) (ix : list slot) (args2 : list pyarg) (ix' : list slot) :
  _recursive_replace args layer parent ix = Ok (args2, ix') →
  length args2 = length args
  ∧ ∃ app, ix' = ix ++ app ∧ Forall (appended_slot layer parent) app.
Proof.
  intros Hr. apply (replace_loop_shape layer parent args) in Hr; [done|].
  apply Forall_forall. intros a _. apply recursive_replace_arg_shape.
Qed.

(** [_recursive_replace] returns as many arguments as it was given, and only
    ever appends to the fused [indices]: the slots already there keep their
    positions, so tokens written earlier stay right. Every appended slot is a
    partitioned slot of the layer that does not name the preceding chain
    member. *)
Theorem recursive_replace_appends_only (args : list pyarg) (layer : Layer)
    (parent : string) (ix : list slot) (args2 : list pyarg) (ix' : list slot) :
  _recursive_replace args layer parent ix = Ok (args2, ix') →
  length args2 = length args
  ∧ ∃ app, ix' = ix ++ app ∧ Forall (appended_slot layer parent) app.
Proof.
  apply recursive_replace_appends_only_aux.
Qed.

Lemma recursive_replace_appends_only_example :
  ∃ app, [(KStr "src", Some ["i"]); (KStr "ext", Some ["i"])]
         = [(KStr "src", Some ["i"])] ++ app
       ∧ Forall (appended_slot Ex.LB "A") app.
Proof.
  eapply proj2.
  apply (recursive_replace_appends_only
           [Ex.tok 0; AList [Ex.tok 1; Ex.tok 2]; AStr "lit"] Ex.LB "A"
           [(KStr "src", Some ["i"])]
           [AStr "A"; AList [AObj 5; Ex.tok 1]; AStr "lit"]).
  reflexivity.
Defined.

(** ** Rewritten tokens are in range *)

Lemma py_index_app {A} (l app : list A) (i : Z) :
  is_Some (py_index l i) → is_Some (py_index (l ++ app) i).
Proof.
  unfold py_index. rewrite length_app.
  destruct (0 <=? i)%Z eqn:Hi.
  - intros [x Hx]. exists x. by apply lookup_app_l_Some.
  - destruct (- Z.of_nat (length l) <=? i)%Z eqn:Hn; [|by intros [? ?]].
    intros _. apply Z.leb_gt in Hi. apply Z.leb_le in Hn.
    rewrite (proj2 (Z.leb_le _ _)) by lia.
    apply lookup_lt_is_Some. rewrite length_app. lia.
Qed.

Lemma valid_arg_app (ix app : list slot) (a : pyarg) :
  valid_arg ix a = true → valid_arg (ix ++ app) a = true.
Proof.
  induction a as [s|l IH|l IH| | | |] using pyarg_nested_ind; try done.
  - rewrite !valid_arg_str. destruct (startswith s TOKEN_PREFIX); [|done].
    destruct (python_int (string_drop 18 s)) as [ind|]; [|done].
    intros Hv. apply bool_decide_eq_true in Hv. apply bool_decide_eq_true_2.
    by apply py_index_app.
  - simpl. rewrite !forallb_forall. intros Hv a Ha.
    rewrite Forall_forall in IH. apply IH; [by apply list_elem_of_In|by apply Hv].
  - simpl. rewrite !forallb_forall. intros Hv a Ha.
    rewrite Forall_forall in IH. apply IH; [by apply list_elem_of_In|by apply Hv].
Qed.

Lemma forallb_valid_app (ix app : list slot) (l : list pyarg) :
  forallb (valid_arg ix) l = true → forallb (valid_arg (ix ++ app)) l = true.
Proof.
  rewrite !forallb_forall. intros Hv a Ha. by apply valid_arg_app, Hv.
Qed.

Lemma valid_new_token (ix : list slot) (s : slot) :
  valid_arg (ix ++ [s]) (AStr (blockwise_token (length (ix ++ [s]) - 1))) = true.
Proof.
  rewrite valid_arg_str, blockwise_token_prefix, blockwise_token_suffix.
  apply bool_decide_eq_true_2. unfold py_index.
  rewrite (proj2 (Z.leb_le _ _)) by lia. rewrite Nat2Z.id, length_app. simpl.
  replace (length ix + 1 - 1) with (length ix) by lia.
  exists s. by apply list_lookup_middle.
Qed.

Section in_range.

Variable layer : Layer.
Variable parent : string.

(** Neither the name of the preceding chain member nor a literal string of
    the layer looks like a reference token. *)
Hypothesis Hparent : startswith parent TOKEN_PREFIX = false.
Hypothesis Hliteral :
  ∀ n, (KStr n, None) ∈ layer_indices layer → startswith n TOKEN_PREFIX = false.

Lemma replace_loop_in_range (l : list pyarg) :
  Forall (λ a, ∀ ix a2 ix', _recursive_replace_arg layer parent a ix = Ok (a2, ix') →
                valid_arg ix' a2 = true) l →
  ∀ acc ix r ix', replace_loop layer parent l acc ix = Ok (r, ix') →
    forallb (valid_arg ix) acc = true → forallb (valid_arg ix') r = true.
Proof.
  induction 1 as [|a l Ha _ IH]; intros acc ix r ix' Hr Hacc; simpl in Hr.
  - by injection Hr as <- <-.
  - apply bind_Ok in Hr as ([a2 i1] & Ea & Hr).
    destruct (recursive_replace_arg_shape _ _ _ _ _ _ Ea) as (app1 & -> & _).
    apply (IH _ _ _ _ Hr). rewrite forallb_app. apply andb_true_iff. split.
    + by apply forallb_valid_app.
    + simpl. by rewrite (Ha _ _ _ Ea).
Qed.

Lemma recursive_replace_arg_in_range a :
  ∀ ix a2 ix', _recursive_replace_arg layer parent a ix = Ok (a2, ix') →
    valid_arg ix' a2 = true.
Proof.
  induction a as [s|l IH|l IH| | | |] using pyarg_nested_ind; intros ix a2 ix' Hr;
    try (by injection Hr as <- <-).
  - rewrite recursive_replace_str in Hr.
    destruct (startswith s TOKEN_PREFIX) eqn:Hs.
    + destruct (python_int (string_drop 18 s)) as [ind|]; [|done].
      destruct (py_index (layer_indices layer) ind) as [[name [ax|]]|] eqn:Hi; [| |done].
      * destruct (key_is name parent).
        -- injection Hr as <- <-. by rewrite valid_arg_str, Hparent.
        -- injection Hr as <- <-. apply valid_new_token.
      * injection Hr as <- <-. destruct name as [n|n]; [|done]. cbn [arg_of_key].
        rewrite valid_arg_str, Hliteral; [done|]. by eapply py_index_elem.
    + injection Hr as <- <-. by rewrite valid_arg_str, Hs.
  - rewrite recursive_replace_list in Hr. apply bind_Ok in Hr as ([l2 i'] & E & Hr).
    injection Hr as <- <-. simpl. by eapply (replace_loop_in_range l IH [] ix).
  - rewrite recursive_replace_tuple in Hr. apply bind_Ok in Hr as ([l2 i'] & E & Hr).
    injection Hr as <- <-. simpl. by eapply (replace_loop_in_range l IH [] ix).
Qed.

End in_range.

Lemma recursive_replace_tokens_in_range_aux (args : list pyarg) (layer : Layer)
    (parent : string) (ix : list slot) (args2 : list pyarg) (ix' : list slot) :
  startswith parent TOKEN_PREFIX = false →
  (∀ n, (KStr n, None) ∈ layer_indices layer → startswith n TOKEN_PREFIX = false) →
  _recursive_replace args layer parent ix = Ok (args2, ix') →
  forallb (valid_arg ix') args2 = true.
Proof.
  intros Hp Hl Hr.
  eapply (replace_loop_in_range layer parent args); [|exact Hr|done].
  apply Forall_forall. intros a _. by apply recursive_replace_arg_in_range.
Qed.

(** No dangling reference: when neither the preceding member's name nor a
    literal string of the layer starts with the token prefix, every
    reference token among the arguments [_recursive_replace] returns, at any
    depth, indexes the [indices] list it returns. *)
Theorem recursive_replace_tokens_in_range (args : list pyarg) (layer : Layer)
    (parent : string) (ix : list slot) (args2 : list pyarg) (ix' : list slot) :
  startswith parent TOKEN_PREFIX = false →
  (∀ n, (KStr n, None) ∈ layer_indices layer → startswith n TOKEN_PREFIX = false) →
  _recursive_replace args layer parent ix = Ok (args2, ix') →
  forallb (valid_arg ix') args2 = true.
Proof.
  apply recursive_replace_tokens_in_range_aux.
Qed.

Lemma recursive_replace_tokens_in_range_example :
  forallb (valid_arg [(KStr "src", Some ["i"]); (KStr "ext", Some ["i"])])
          [AStr "A"; AList [AObj 5; Ex.tok 1]; AStr "lit"] = true.
Proof.
  apply (recursive_replace_tokens_in_range
           [Ex.tok 0; AList [Ex.tok 1; Ex.tok 2]; AStr "lit"] Ex.LB "A"
           [(KStr "src", Some ["i"])]).
  - reflexivity.
  - intros n Hn. vm_compute in Hn.
    repeat (apply elem_of_cons in Hn as [Hn|Hn]; [discriminate Hn|]).
    by apply elem_of_nil in Hn.
  - reflexivity.
Defined.

(** ** The chains found are maximal and disjoint *)

Lemma discover_maximal (layer_len : Layer → nat)
    (order : list string) (dsk : HighLevelGraph) (h : heap)
    (chains : list (list string)) (layers2 : gmap string loc) (h1 : heap) :
  well_formed order dsk h →
  discover layer_len order dsk h = Ok (chains, layers2, h1) →
  NoDup (concat chains)
  ∧ (∀ u d, fusable layer_len dsk h u d →
       ∃ c i, c ∈ chains ∧ c !! i = Some u ∧ c !! S i = Some d)
  ∧ (∀ x l, layers dsk !! x = Some l →
       x ∈ concat chains ∨ layers2 !! x = Some l).
Proof.
  intros Hwf Hd.
  destruct (discover_wf layer_len order dsk h Hwf) as (cs & l2 & h1' & Hd' & Hinv).
  rewrite Hd in Hd'. injection Hd' as <- <- <-.
  destruct Hwf as [_ _ Hdd Hcl [rank Hrank] Hal _].
  pose proof Hinv as [Hnd _ _ Hg Hmax _ _ _ _ Hout _ _ Hcov _].
  simpl in Hnd. rewrite Forall_forall in Hg.
  split_and!; [done| |].
  - intros u d Hud.
    destruct (fusable_in_graph layer_len dsk h u d Hud) as [Hu _].
    assert (u ∈ concat chains) as Huc.
    { destruct (Hcov u Hu) as [Hin|[[l Hl]|Hin]]; [by apply elem_of_nil in Hin| |done].
      destruct (Hout u l Hl) as [(_ & _ & Hs & _)|(c & l0 & Hc & Hla & _)].
      - by destruct (Hs d).
      - apply elem_of_concat. exists c. split; [done|]. by apply last_Some_elem_of. }
    apply elem_of_concat in Huc as (c & Hc & Huc).
    destruct (Hg c Hc) as (_ & Hlk & _).
    apply list_elem_of_lookup in Huc as [i Hi].
    exists c, i. split_and!; [done..|].
    destruct (c !! S i) as [s|] eqn:Hs.
    + f_equal.
      apply (fusable_succ_unique layer_len dsk h rank Hdd Hcl Hrank Hal u s d); [|done].
      by eapply linked_lookup.
    + exfalso. destruct (Hmax c Hc) as [_ Hlast]. refine (Hlast u _ d Hud).
      rewrite last_lookup. apply lookup_ge_None in Hs.
      apply lookup_lt_Some in Hi as Hlt.
      by replace (Init.Nat.pred (length c)) with i by lia.
  - intros x l Hl.
    destruct (Hcov x) as [Hin|[[l' Hl']|Hin]];
      [by eexists|by apply elem_of_nil in Hin| |by left].
    destruct (Hout x l' Hl') as [(_ & Hlx & _)|(c & l0 & Hc & Hla & _)].
    + right. congruence.
    + left. apply elem_of_concat. exists c. split; [done|]. by apply last_Some_elem_of.
Qed.

(** On a well-formed graph the chains found by the discovery loop are
    pairwise disjoint lists without repetition, every fusable edge of the
    graph joins two consecutive members of one of them, and every layer of
    the graph either is a member of a chain or passes through under its own
    name. *)
Theorem chains_are_maximal_and_disjoint (layer_len : Layer → nat)
    (order : list string) (dsk : HighLevelGraph) (h : heap)
    (chains : list (list string)) (layers2 : gmap string loc) (h1 : heap) :
  well_formed order dsk h →
  discover layer_len order dsk h = Ok (chains, layers2, h1) →
  NoDup (concat chains)
  ∧ (∀ u d, fusable layer_len dsk h u d →
       ∃ c i, c ∈ chains ∧ c !! i = Some u ∧ c !! S i = Some d)
  ∧ (∀ x l, layers dsk !! x = Some l →
       x ∈ concat chains ∨ layers2 !! x = Some l).
Proof. apply discover_maximal. Qed.

Lemma chains_are_maximal_and_disjoint_example :
  ∃ c i, c ∈ [["A"; "B"]] ∧ c !! i = Some "A" ∧ c !! S i = Some "B".
Proof.
  assert (well_formed ["B"; "A"] Ex.g_chain Ex.h_chain) as Hwf.
  { apply (wf_check_sound (λ x, if String.eqb x "A" then 0 else 1)).
    vm_compute. reflexivity. }
  destruct (chains_are_maximal_and_disjoint Ex.len3 ["B"; "A"] Ex.g_chain Ex.h_chain
              [["A"; "B"]] {[ "B" := 2 ]}
              (mkHeap (<[2 := Ex.LB]> (layer_objs Ex.h_chain)) (dict_objs Ex.h_chain))
              Hwf)
    as (_ & Hmax & _).
  - vm_compute. reflexivity.
  - apply Hmax. split_and!.
    + vm_compute. reflexivity.
    + reflexivity.
    + exists Ex.LA, Ex.LB. split_and!; reflexivity.
Defined.

(** ** The fused graph is a graph again *)

(** On a well-formed graph, the graph [rewrite_layer_chains] returns has a
    dependencies entry for exactly its layers, every dependency names one of
    its layers, it is acyclic, and each of its layers is an object of the
    returned store. *)
Theorem fused_graph_is_closed (layer_len : Layer → nat) (order : list string)
    (dsk : HighLevelGraph) (h : heap) (g' : HighLevelGraph) (h' : heap) :
  well_formed order dsk h →
  rewrite_layer_chains layer_len order dsk h = Ok (g', h') →
  (∀ x, is_Some (dependencies g' !! x) ↔ is_Some (layers g' !! x))
  ∧ (∀ d ds u, dependencies g' !! d = Some ds → u ∈ ds → is_Some (layers g' !! u))
  ∧ acyclic g'
  ∧ graph_allocated g' h'.
Proof.
  intros Hwf Hr.
  destruct (rewrite_layer_chains_wf layer_len order dsk h Hwf)
    as (chains & layers2 & h1 & deps' & h'' & Hd & Hinv & Hr'
        & Hda & Hdb & Hdc & Hh1 & Hh2 & Hh3).
  rewrite Hr in Hr'. injection Hr' as -> ->.
  destruct Hwf as [_ _ Hdd Hcl [rank Hrank] Hal _].
  split_and!.
  - by apply (out_deps_dom layer_len dsk h rank chains layers2 h1 deps').
  - by apply (out_closed layer_len dsk h rank chains layers2 h1 deps').
  - exists rank. by apply (out_rank layer_len dsk h rank chains layers2 h1 deps').
  - by apply (out_allocated layer_len dsk h chains layers2 h1 deps' h'').
Qed.

Lemma fused_graph_is_closed_example :
  match rewrite_layer_chains Ex.len3 ["A"; "B"] Ex.g_chain Ex.h_chain with
  | Ok (g', h') => acyclic g' ∧ graph_allocated g' h'
  | _ => False
  end.
Proof.
  destruct (rewrite_layer_chains Ex.len3 ["A"; "B"] Ex.g_chain Ex.h_chain)
    as [[g' h']|e|] eqn:Hr;
    [|vm_compute in Hr; discriminate Hr..].
  destruct (fused_graph_is_closed Ex.len3 ["A"; "B"] Ex.g_chain Ex.h_chain g' h')
    as (_ & _ & Hac & Hal).
  - apply (wf_check_sound (λ x, if String.eqb x "A" then 0 else 1)).
    vm_compute. reflexivity.
  - exact Hr.
  - by split.
Defined.

(** ** What fusion leaves alone *)



(** ** Fusion changes the graph exactly when an edge is fusable *)



(** ** The fused layer *)

Lemma merge_io_deps_layers ks o m h h' :
  merge_io_deps ks o m h = Ok h' → layer_objs h' = layer_objs h.
Proof.
  revert h. induction ks as [|k ks IH]; intros h; simpl; [by intros [= <-]|].
  destruct (dict_at h m !! k) as [v|]; [|done]. intros Hm.
  by rewrite (IH _ Hm).
Qed.

Lemma fuse_member_inv dsk outlayer m st st' :
  fuse_member dsk outlayer m st = Ok st' →
  layer_objs (f_heap st') = layer_objs (f_heap st)
  ∧ (∃ app, f_indices st' = f_indices st ++ app)
  ∧ (∃ t, f_subgraph st' = <[m := t]> (f_subgraph st)).
Proof.
  unfold fuse_member. intros H.
  apply bind_Ok in H as (lm & _ & H). apply bind_Ok in H as (hm & Em & H).
  destruct (layer_dsk (layer_at (f_heap st) lm) !! m) as [[|func args]|]; try done.
  apply bind_Ok in H as ([args2 ix'] & Er & H). injection H as <-. simpl.
  split_and!.
  - by eapply merge_io_deps_layers.
  - unfold _recursive_replace in Er.
    apply replace_loop_shape in Er as (_ & app & -> & _); [by exists app|].
    apply Forall_forall. intros a _. apply recursive_replace_arg_shape.
  - by eexists.
Qed.

Lemma fuse_members_inv dsk outlayer ms st st' :
  fuse_members dsk outlayer ms st = Ok st' →
  layer_objs (f_heap st') = layer_objs (f_heap st)
  ∧ (∃ app, f_indices st' = f_indices st ++ app)
  ∧ dom (f_subgraph st') = dom (f_subgraph st) ∪ list_to_set ms
  ∧ (∀ k, k ∉ ms → f_subgraph st' !! k = f_subgraph st !! k).
Proof.
  revert st. induction ms as [|m ms IH]; intros st; simpl.
  - intros [= <-]. split_and!; [done|exists []; by rewrite app_nil_r| |done].
    simpl. by rewrite (right_id_L ∅ (∪)).
  - intros H. apply bind_Ok in H as (st1 & E1 & H).
    apply fuse_member_inv in E1 as (Hl1 & (app1 & Hi1) & (t & Hs1)).
    destruct (IH _ H) as (Hl & (app & Hi) & Hdom & Hk).
    split_and!.
    + by rewrite Hl.
    + exists (app1 ++ app). by rewrite Hi, Hi1, app_assoc.
    + rewrite Hdom, Hs1, dom_insert_L. simpl.
      rewrite (comm_L (∪) {[m]} (dom (f_subgraph st))). by rewrite !(assoc_L (∪)).
    + intros k Hn. apply not_elem_of_cons in Hn as [Hne Hn].
      rewrite (Hk k Hn), Hs1. by apply lookup_insert_ne.
Qed.

(** The layer object an output copy [v] becomes when its chain is
    rewritten: class, flags and annotations of the copy, the rest set by
    lines 350-369 from the first member [layer0], its first partitioned
    block count [nb] and the state [st] reached by the loop over the other
    members. *)
Definition fused_layer (layer0 : Layer) (nb : nat) (st : fuse_state) (v : Layer) : Layer :=
  mkLayer (isinstance_AwkwardInputLayer v) (isinstance_AwkwardBlockwiseLayer v)
    (is_projectable v) (has_mock v) (has_opt_touch_all v) (annotations v)
    (fused_indices (f_indices st)) (fused_numblocks nb (f_indices st))
    (io_deps layer0) (f_subgraph st) [".0"] (Some (default [] (inputs layer0)))
    None None.

Lemma rewrite_chain_inv dsk layers2 chain deps h deps' h' :
  rewrite_chain dsk layers2 chain (deps, h) = Ok (deps', h') →
  ∃ c0 o l0 l nb st,
    head chain = Some c0 ∧ last chain = Some o
    ∧ layers dsk !! c0 = Some l0 ∧ layers2 !! o = Some l
    ∧ first_numblocks (numblocks (layer_at h l0)) = Ok nb
    ∧ fuse_members dsk l (tail chain)
        (mkFuse (layer_dsk (layer_at h l0)) (indices (layer_at h l0)) c0
           (update_layer l (set_io_deps (io_deps (layer_at h l0))) h)) = Ok st
    ∧ (∀ l', l' ≠ l → layer_objs h' !! l' = layer_objs h !! l')
    ∧ layer_objs h' !! l = fused_layer (layer_at h l0) nb st <$> layer_objs h !! l.
Proof.
  unfold rewrite_chain. destruct (last chain) as [o|] eqn:Ho; [|done].
  destruct chain as [|c0 rest]; [done|].
  intros H. apply bind_Ok in H as (l0 & E0 & H).
  unfold getitem_layers in E0. destruct (layers dsk !! c0) as [l0'|] eqn:Hl0; [|done].
  injection E0 as ->.
  destruct (layers2 !! o) as [l|] eqn:Hl; [|done].
  apply bind_Ok in H as (nb & Enb & H).
  destruct (deps !! c0) as [d0|]; [|done].
  apply bind_Ok in H as (deps1 & Ed & H). apply bind_Ok in H as (st & Est & H).
  injection H as <- <-.
  exists c0, o, l0, l, nb, st. split_and!; try done.
  - intros l' Hne. rewrite !(lookup_update_layer_ne l l') by congruence.
    destruct (fuse_members_inv _ _ _ _ _ Est) as (-> & _). cbn [f_heap].
    by rewrite (lookup_update_layer_ne l l') by congruence.
  - rewrite !lookup_update_layer_eq.
    destruct (fuse_members_inv _ _ _ _ _ Est) as (-> & _). cbn [f_heap].
    rewrite lookup_update_layer_eq. by destruct (layer_objs h !! l).
Qed.

Lemma rewrite_chains_frame dsk layers2 cs deps h deps' h' l :
  rewrite_chains dsk layers2 cs (deps, h) = Ok (deps', h') →
  (∀ c o, c ∈ cs → last c = Some o → layers2 !! o ≠ Some l) →
  layer_objs h' !! l = layer_objs h !! l.
Proof.
  revert deps h. induction cs as [|c cs IH]; intros deps h; simpl.
  - by intros [= <- <-].
  - intros H Hno. apply bind_Ok in H as ([d1 h1] & E1 & H).
    rewrite (IH _ _ H); [|intros c' o Hc'; apply Hno; by apply list_elem_of_further].
    apply rewrite_chain_inv in E1 as (c0 & o & l0 & lo & nb & st & _ & Ho & _ & Hlo & _
                                      & _ & Hfr & _).
    apply Hfr. intros ->. by apply (Hno c o (list_elem_of_here _ _) Ho).
Qed.

Lemma rewrite_chains_app dsk layers2 pre c post acc r :
  rewrite_chains dsk layers2 (pre ++ c :: post) acc = Ok r →
  ∃ a b, rewrite_chains dsk layers2 pre acc = Ok a
       ∧ rewrite_chain dsk layers2 c a = Ok b
       ∧ rewrite_chains dsk layers2 post b = Ok r.
Proof.
  revert acc. induction pre as [|p pre IH]; intros acc; simpl.
  - intros H. apply bind_Ok in H as (b & Eb & H). by exists acc, b.
  - intros H. apply bind_Ok in H as (a1 & E1 & H).
    destruct (IH _ H) as (a & b & Ha & Hb & Hr). exists a, b. by rewrite E1.
Qed.

Lemma concat_split_disjoint {A} (pre post : list (list A)) (c : list A) x :
  NoDup (concat (pre ++ c :: post)) → x ∈ c →
  ∀ c', c' ∈ pre ∨ c' ∈ post → x ∉ c'.
Proof.
  rewrite concat_app. simpl. intros Hnd Hx c' Hc' Hx'.
  apply NoDup_app in Hnd as (_ & Hd1 & Hnd).
  apply NoDup_app in Hnd as (_ & Hd2 & _).
  destruct Hc' as [Hc'|Hc'].
  - apply (Hd1 x); [apply elem_of_concat; by exists c'|]. apply elem_of_app. by left.
  - apply (Hd2 x Hx). apply elem_of_concat. by exists c'.
Qed.

Lemma fused_layer_in_store (layer_len : Layer → nat) (order : list string)
    (dsk : HighLevelGraph) (h : heap)
    (chains : list (list string)) (layers2 : gmap string loc) (h1 : heap)
    (g' : HighLevelGraph) (h' : heap) (chain : list string) :
  well_formed order dsk h →
  discover layer_len order dsk h = Ok (chains, layers2, h1) →
  rewrite_layer_chains layer_len order dsk h = Ok (g', h') →
  chain ∈ chains →
  ∃ c0 o l v0 vo nb st,
    head chain = Some c0 ∧ last chain = Some o
    ∧ layer_of dsk h c0 = Some v0 ∧ layer_of dsk h o = Some vo
    ∧ layers g' !! o = Some l
    ∧ first_numblocks (numblocks v0) = Ok nb
    ∧ layer_objs h' !! l = Some (fused_layer v0 nb st vo)
    ∧ (∃ app, f_indices st = indices v0 ++ app)
    ∧ dom (f_subgraph st) = dom (layer_dsk v0) ∪ list_to_set (tail chain)
    ∧ (∀ k, k ∉ tail chain → f_subgraph st !! k = layer_dsk v0 !! k)
    ∧ ∃ hst,
        fuse_members dsk l (tail chain)
          (mkFuse (layer_dsk v0) (indices v0) c0 hst) = Ok st
        ∧ ∀ l' w, layer_objs h !! l' = Some w → layer_objs hst !! l' = Some w.
Proof.
  intros Hwf Hd Hr Hc.
  destruct (discover_wf layer_len order dsk h Hwf) as (cs & l2 & h1' & Hd' & Hinv).
  rewrite Hd in Hd'. injection Hd' as <- <- <-.
  unfold rewrite_layer_chains in Hr. rewrite Hd, bind_Ok_l in Hr. cbv beta iota in Hr.
  apply bind_Ok in Hr as ([deps' h2] & Hrw & Hr). injection Hr as <- <-.
  pose proof Hinv as [Hnd _ _ Hg _ Hly _ _ _ _ _ _ _ _].
  simpl in Hnd. rewrite Forall_forall in Hg.
  destruct (chain_copy layer_len dsk h chains layers2 h1 chain Hinv Hc)
    as (c0 & o & l & lo & Hhd & Hla & Hl & Hlo & Hfr & Hcp & Huniq).
  destruct (Hg chain Hc) as (_ & _ & Hb). rewrite Forall_forall in Hb.
  destruct (Hb c0 (head_Some_elem_of _ _ Hhd)) as (v0 & Hv0 & _).
  destruct (Hb o (last_Some_elem_of _ _ Hla)) as (vo & Hvo & _).
  pose proof Hv0 as Hv0'. apply layer_of_Some in Hv0' as (l0 & Hl0 & Hlv0).
  pose proof Hvo as Hvo'. apply layer_of_Some in Hvo' as (lo' & Hlo' & Hlvo).
  rewrite Hlo in Hlo'. injection Hlo' as <-.
  destruct (list_elem_of_split _ _ Hc) as (pre & post & ->).
  apply rewrite_chains_app in Hrw as ([da ha] & [db hb] & Hpre & Hch & Hpost).
  (* the copies made for the other chains are other objects *)
  assert (∀ c' o', c' ∈ pre ∨ c' ∈ post → last c' = Some o' → layers2 !! o' ≠ Some l)
    as Hother.
  { intros c' o' Hc' Ho' Hl'. apply Huniq in Hl' as ->.
    apply (concat_split_disjoint pre post chain o Hnd (last_Some_elem_of _ _ Hla) c' Hc').
    by apply last_Some_elem_of. }
  assert (∀ l', is_Some (layer_objs h !! l') →
            layer_objs ha !! l' = layer_objs h !! l') as Hold.
  { intros l' [v Hv].
    rewrite (rewrite_chains_frame _ _ _ _ _ _ _ l' Hpre).
    - rewrite Hv. by eapply lookup_weaken.
    - intros c' o' Hc' Ho' Hl'.
      destruct (chain_copy layer_len dsk h (pre ++ chain :: post) layers2 h1 c' Hinv)
        as (_ & o'' & l'' & _ & _ & Ho'' & Hl'' & _ & Hfr'' & _).
      { apply elem_of_app. by left. }
      rewrite Ho' in Ho''. injection Ho'' as <-. congruence. }
  assert (layer_objs ha !! l = Some vo) as Hla_.
  { rewrite (rewrite_chains_frame _ _ _ _ _ _ _ l Hpre).
    - by rewrite Hcp.
    - intros c' o' Hc'. apply Hother. by left. }
  assert (layer_at ha l0 = v0) as Hat0.
  { unfold layer_at. apply lookup_total_correct. rewrite Hold; [done|by eexists]. }
  apply rewrite_chain_inv in Hch
    as (c0' & o' & l0' & l' & nb & st & Hhd' & Hla' & Hl0' & Hl' & Hnb & Hfm & _ & Hnew).
  rewrite Hhd in Hhd'. injection Hhd' as <-.
  rewrite Hla in Hla'. injection Hla' as <-.
  rewrite Hl0 in Hl0'. injection Hl0' as <-.
  rewrite Hl in Hl'. injection Hl' as <-.
  rewrite Hat0 in Hnb, Hfm, Hnew. rewrite Hla_ in Hnew. simpl in Hnew.
  pose proof Hfm as Hfm'.
  apply fuse_members_inv in Hfm as (_ & Hix & Hdom & Hkeep). simpl in Hix, Hdom, Hkeep.
  exists c0, o, l, v0, vo, nb, st. split_and!; try done.
  - rewrite (rewrite_chains_frame _ _ _ _ _ _ _ l Hpost); [done|].
    intros c' o' Hc'. apply Hother. by right.
  - eexists. split; [exact Hfm'|]. intros l' w Hw.
    rewrite lookup_update_layer_ne by congruence.
    rewrite Hold; [done|by eexists].
Qed.

(** For every chain found on a well-formed graph, the layer stored under
    the name of the chain's last member is of the class of that last member
    and keeps its annotations; its [io_deps] is the dict of the first member
    (the same object); its [output_indices] are [(".0",)]; [inputs] are those
    of the first member (empty when it has none); the cached [_dims] and
    [_cached_dict] are gone; its [indices] are those of the first member
    followed by appended slots, all with block index [".0"]; its [numblocks]
    give the first partitioned block count of the first member to every
    partitioned slot; and its task dict holds the tasks of the first member
    plus one task for each other member. *)
Theorem fused_layer_attributes (layer_len : Layer → nat) (order : list string)
    (dsk : HighLevelGraph) (h : heap)
    (chains : list (list string)) (layers2 : gmap string loc) (h1 : heap)
    (g' : HighLevelGraph) (h' : heap) (chain : list string) :
  well_formed order dsk h →
  discover layer_len order dsk h = Ok (chains, layers2, h1) →
  rewrite_layer_chains layer_len order dsk h = Ok (g', h') →
  chain ∈ chains →
  ∃ c0 o l v0 vo v' nb app,
    head chain = Some c0 ∧ last chain = Some o
    ∧ layer_of dsk h c0 = Some v0 ∧ layer_of dsk h o = Some vo
    ∧ layers g' !! o = Some l ∧ layer_objs h' !! l = Some v'
    ∧ isinstance_AwkwardBlockwiseLayer v' = isinstance_AwkwardBlockwiseLayer vo
    ∧ isinstance_AwkwardInputLayer v' = isinstance_AwkwardInputLayer vo
    ∧ annotations v' = annotations vo
    ∧ io_deps v' = io_deps v0
    ∧ output_indices v' = [".0"]
    ∧ inputs v' = Some (default [] (inputs v0))
    ∧ _dims v' = None ∧ _cached_dict v' = None
    ∧ first_numblocks (numblocks v0) = Ok nb
    ∧ indices v' = fused_indices (indices v0 ++ app)
    ∧ numblocks v' = fused_numblocks nb (indices v0 ++ app)
    ∧ dom (layer_dsk v') = dom (layer_dsk v0) ∪ list_to_set (tail chain)
    ∧ (∀ k, k ∉ tail chain → layer_dsk v' !! k = layer_dsk v0 !! k).
Proof.
  intros Hwf Hd Hr Hc.
  destruct (fused_layer_in_store layer_len order dsk h chains layers2 h1 g' h' chain
              Hwf Hd Hr Hc)
    as (c0 & o & l & v0 & vo & nb & st & Hhd & Hla & Hv0 & Hvo & Hl & Hnb & Hv'
        & (app & Hix) & Hdom & Hkeep & _).
  exists c0, o, l, v0, vo, (fused_layer v0 nb st vo), nb, app.
  unfold fused_layer. simpl. rewrite <- Hix. split_and!; done.
Qed.

Lemma fused_layer_attributes_example :
  ∃ l v',
    match rewrite_layer_chains Ex.len3 ["A"; "B"] Ex.g_chain Ex.h_chain with
    | Ok (g', h') =>
        layers g' !! "B" = Some l ∧ layer_objs h' !! l = Some v'
        ∧ io_deps v' = io_deps Ex.LA ∧ output_indices v' = [".0"]
        ∧ dom (layer_dsk v') = {[ "A"; "B" ]}
    | _ => False
    end.
Proof.
  assert (well_formed ["A"; "B"] Ex.g_chain Ex.h_chain) as Hwf.
  { apply (wf_check_sound (λ x, if String.eqb x "A" then 0 else 1)).
    vm_compute. reflexivity. }
  destruct (discover Ex.len3 ["A"; "B"] Ex.g_chain Ex.h_chain)
    as [[[chains layers2] h1]|e|] eqn:Hd;
    [|vm_compute in Hd; discriminate Hd..].
  destruct (rewrite_layer_chains Ex.len3 ["A"; "B"] Ex.g_chain Ex.h_chain)
    as [[g' h']|e|] eqn:Hr;
    [|vm_compute in Hr; discriminate Hr..].
  assert (chains = [["A"; "B"]]) as ->.
  { revert Hd. vm_compute. by intros [= <- _ _]. }
  destruct (fused_layer_attributes Ex.len3 ["A"; "B"] Ex.g_chain Ex.h_chain
              [["A"; "B"]] layers2 h1 g' h' ["A"; "B"] Hwf Hd Hr)
    as (c0 & o & l & v0 & vo & v' & nb & app & Hhd & Hla & Hv0 & Hvo & Hl & Hv'
        & _ & _ & _ & Hio & Hoi & _ & _ & _ & _ & _ & _ & Hdom & _);
    [apply list_elem_of_here|].
  simpl in Hhd, Hla. injection Hhd as <-. injection Hla as <-.
  assert (v0 = Ex.LA) as -> by (revert Hv0; vm_compute; congruence).
  exists l, v'. split_and!; done.
Defined.

(** ** Block counts of the fused layer *)

Lemma dict_set_fst {V} (k : key) (v : V) (d : list (key * V)) :
  NoDup (map fst d) →
  NoDup (map fst (dict_set k v d))
  ∧ ∀ k' v', (k', v') ∈ dict_set k v d
      ↔ (k' = k ∧ v' = v) ∨ (k' ≠ k ∧ (k', v') ∈ d).
Proof.
  induction d as [|[k0 v0] d IH]; simpl; intros Hnd.
  - split; [apply NoDup_singleton|]. intros k' v'.
    rewrite list_elem_of_singleton. split.
    + intros [= -> ->]. by left.
    + intros [[-> ->]|[_ Hin]]; [done|by apply elem_of_nil in Hin].
  - apply NoDup_cons in Hnd as [Hk0 Hnd]. destruct (IH Hnd) as [IH1 IH2].
    case_decide as Hk; [subst k0|].
    + split; [simpl; by apply NoDup_cons|]. intros k' v'.
      rewrite !elem_of_cons. split.
      * intros [[= -> ->]|Hin]; [by left|]. right. split; [|by right].
        intros ->. apply Hk0. apply list_elem_of_fmap. by exists (k, v').
      * intros [[-> ->]|[Hne [[= ? ?]|Hin]]]; [by left|done|by right].
    + split.
      * simpl. apply NoDup_cons. split; [|done].
        intros Hin. apply list_elem_of_fmap in Hin as ([k1 v1] & Hk1 & Hin).
        simpl in Hk1. subst k1. apply IH2 in Hin as [[? _]|[_ Hin]]; [done|].
        apply Hk0. apply list_elem_of_fmap. by exists (k0, v1).
      * intros k' v'. rewrite !elem_of_cons, IH2. split.
        -- intros [[= -> ->]|[?|[? ?]]]; [right; split; [done|by left]|by left|].
           right. split; [done|by right].
        -- intros [?|[Hne [[= -> ->]|Hin]]]; [right; by left|by left|].
           right. right. done.
Qed.

Lemma fused_numblocks_inv (n : nat) (ix : list slot) :
  NoDup (map fst (fused_numblocks n ix))
  ∧ ∀ k v, (k, v) ∈ fused_numblocks n ix ↔ v = [Some n] ∧ ∃ ax, (k, Some ax) ∈ ix.
Proof.
  unfold fused_numblocks.
  induction ix as [|[k0 a0] ix [IH1 IH2]] using rev_ind; simpl.
  - split; [apply NoDup_nil_2|]. intros k v. split.
    + intros Hin. by apply elem_of_nil in Hin.
    + intros (_ & ax & Hin). by apply elem_of_nil in Hin.
  - rewrite foldl_app. simpl. destruct a0 as [ax0|].
    + destruct (dict_set_fst k0 [Some n] _ IH1) as [Hnd Hel]. split; [done|].
      intros k v. rewrite Hel, IH2. split.
      * intros [[-> ->]|(Hne & -> & ax & Hin)].
        -- split; [done|]. exists ax0. apply elem_of_app. right. apply list_elem_of_here.
        -- split; [done|]. exists ax. apply elem_of_app. by left.
      * intros (-> & ax & Hin). destruct (decide (k = k0)) as [->|Hne]; [by left|].
        right. split; [done|]. split; [done|]. exists ax.
        apply elem_of_app in Hin as [Hin|Hin]; [done|].
        apply list_elem_of_singleton in Hin. congruence.
    + split; [done|]. intros k v. rewrite IH2. split.
      * intros (-> & ax & Hin). split; [done|]. exists ax. apply elem_of_app. by left.
      * intros (-> & ax & Hin). split; [done|]. exists ax.
        apply elem_of_app in Hin as [Hin|Hin]; [done|].
        by apply list_elem_of_singleton in Hin.
Qed.

(** The [numblocks] dict written for a fused layer (line 359) has one entry
    for each name that occurs in a partitioned slot of the fused indices, no
    name twice, and every entry is the one-tuple of the chain's partition
    count; the [indices] written (lines 363-365) keep the names and the
    literal slots and give every partitioned slot the block index [".0"]. *)
Theorem fused_numblocks_and_indices (n : nat) (ix : list slot) :
  NoDup (map fst (fused_numblocks n ix))
  ∧ (∀ k v, (k, v) ∈ fused_numblocks n ix
       ↔ v = [Some n] ∧ ∃ ax, (k, Some ax) ∈ ix)
  ∧ map fst (fused_indices ix) = map fst ix
  ∧ (∀ i k, fused_indices ix !! i = Some (k, None) ↔ ix !! i = Some (k, None))
  ∧ (∀ i k ax, fused_indices ix !! i = Some (k, Some ax)
       ↔ ax = [".0"] ∧ ∃ ax0, ix !! i = Some (k, Some ax0)).
Proof.
  destruct (fused_numblocks_inv n ix) as [H1 H2]. split_and!; [done..| | |].
  - unfold fused_indices. rewrite map_map. by apply map_ext.
  - intros i k. unfold fused_indices. rewrite list_lookup_fmap.
    destruct (ix !! i) as [[k' [ax'|]]|]; simpl; split; intros [= <-]; done.
  - intros i k ax. unfold fused_indices. rewrite list_lookup_fmap.
    destruct (ix !! i) as [[k' [ax'|]]|]; simpl; split.
    + intros [= <- <-]. split; [done|by exists ax'].
    + intros (-> & ax0 & [= <- <-]). done.
    + done.
    + by intros (_ & ax0 & ?).
    + done.
    + by intros (_ & ax0 & ?).
Qed.

(** ** The partition count of a chain *)

Lemma partitioned_counts_Ok nbs l :
  partitioned_counts nbs = Ok l →
  match l with
  | [] => ∀ p, p ∈ nbs → head p.2 = Some None
  | n :: _ =>
      ∃ pre k tl post, nbs = pre ++ (k, Some n :: tl) :: post
        ∧ Forall (λ p : key * list (option nat), head p.2 = Some None) pre
  end.
Proof.
  revert l. induction nbs as [|[k nb] nbs IH]; simpl; intros l.
  - intros [= <-]. intros p Hp. by apply elem_of_nil in Hp.
  - destruct nb as [|[n|] tl]; [done| |].
    + intros H. apply bind_Ok in H as (r & _ & H). injection H as <-.
      exists [], k, tl, nbs. by split.
    + intros H. specialize (IH l H). destruct l as [|n r].
      * intros p Hp. apply elem_of_cons in Hp as [->|Hp]; [done|by apply IH].
      * destruct IH as (pre & k' & tl' & post & -> & Hpre).
        exists ((k, None :: tl) :: pre), k', tl', post. split; [done|].
        by apply Forall_cons.
Qed.

Lemma partitioned_counts_raises nbs e :
  partitioned_counts nbs = Raise e → exn_type e = IndexError.
Proof.
  induction nbs as [|[k nb] nbs IH]; simpl; [done|].
  destruct nb as [|[n|] tl]; [by intros [= <-]| |done].
  destruct (partitioned_counts nbs) as [r| |]; simpl; [done| |done].
  intros [= <-]. by apply IH.
Qed.

Lemma partitioned_counts_fuel nbs : partitioned_counts nbs ≠ OutOfFuel.
Proof.
  induction nbs as [|[k nb] nbs IH]; simpl; [done|].
  destruct nb as [|[n|] tl]; [done| |done].
  by destruct (partitioned_counts nbs).
Qed.

(** The partition count taken for a chain (line 342) is the first element
    of the first block-count tuple of the first member that does not start
    with [None]. When every tuple starts with [None], or there is none, the
    lookup raises [IndexError]; it raises nothing else. *)
Theorem first_numblocks_is_first_partitioned_count
    (nbs : list (key * list (option nat))) :
  (∀ n, first_numblocks nbs = Ok n →
     ∃ pre k tl post, nbs = pre ++ (k, Some n :: tl) :: post
       ∧ Forall (λ p : key * list (option nat), head p.2 = Some None) pre)
  ∧ ((∀ p, p ∈ nbs → head p.2 = Some None) →
       first_numblocks nbs = raise IndexError "list index out of range")
  ∧ match first_numblocks nbs with
    | Ok _ => True
    | Raise e => exn_type e = IndexError
    | OutOfFuel => False
    end.
Proof.
  unfold first_numblocks. split_and!.
  - intros n H. apply bind_Ok in H as (l & El & H).
    apply partitioned_counts_Ok in El. destruct l as [|n' r]; [done|].
    by injection H as <-.
  - intros Hall. induction nbs as [|[k nb] nbs IH]; [done|]. simpl.
    pose proof (Hall (k, nb) (list_elem_of_here _ _)) as Hh. simpl in Hh.
    destruct nb as [|[n|] tl]; try done. apply IH.
    intros p Hp. apply Hall. by apply list_elem_of_further.
  - pose proof (partitioned_counts_raises nbs) as Hr.
    pose proof (partitioned_counts_fuel nbs) as Hf.
    destruct (partitioned_counts nbs) as [[|n r]|e|]; simpl; try done.
    by apply Hr.
Qed.

(** ** Merging [io_deps] *)

Lemma dict_at_setitem_eq d k v h :
  is_Some (dict_objs h !! d) → dict_at (dict_setitem d k v h) d = <[k := v]> (dict_at h d).
Proof.
  intros [m Hm]. unfold dict_at, dict_setitem. simpl.
  rewrite (lookup_total_correct _ _ _ Hm).
  apply lookup_total_correct. by rewrite lookup_alter_eq, Hm.
Qed.

Lemma dict_at_setitem_ne d d' k v h :
  d ≠ d' → dict_at (dict_setitem d k v h) d' = dict_at h d'.
Proof. intros. unfold dict_at, dict_setitem. simpl. by apply lookup_total_alter_ne. Qed.

Lemma dict_setitem_alloc d d' k v h :
  is_Some (dict_objs h !! d') → is_Some (dict_objs (dict_setitem d k v h) !! d').
Proof.
  intros [m Hm]. unfold dict_setitem. simpl. destruct (decide (d = d')) as [->|Hne].
  - rewrite lookup_alter_eq, Hm. by eexists.
  - rewrite lookup_alter_ne by done. by eexists.
Qed.

Lemma merge_io_deps_lookup ks out_d member_d h h' :
  is_Some (dict_objs h !! out_d) →
  merge_io_deps ks out_d member_d h = Ok h' →
  ∀ k, dict_at h' out_d !! k =
    if decide (k ∈ ks) then dict_at h member_d !! k else dict_at h out_d !! k.
Proof.
  revert h. induction ks as [|k0 ks IH]; intros h Ho Hm k; simpl in Hm.
  - injection Hm as <-. case_decide as Hk; [by apply elem_of_nil in Hk|done].
  - destruct (dict_at h member_d !! k0) as [v|] eqn:Hv; [|done].
    pose proof (IH _ (dict_setitem_alloc out_d out_d k0 v h Ho) Hm k) as IHo.
    assert (dict_at (dict_setitem out_d k0 v h) member_d = dict_at h member_d) as Hsame.
    { destruct (decide (out_d = member_d)) as [->|Hne].
      - rewrite dict_at_setitem_eq by done. by apply insert_id.
      - by apply dict_at_setitem_ne. }
    rewrite Hsame, (dict_at_setitem_eq _ _ _ _ Ho) in IHo. rewrite IHo.
    destruct (decide (k = k0)) as [->|Hne].
    + rewrite lookup_insert_eq, Hv.
      case_decide; case_decide as Hc; try done;
        exfalso; apply Hc, list_elem_of_here.
    + rewrite lookup_insert_ne by done.
      case_decide as H1; case_decide as H2; try done.
      * exfalso. apply H2. by apply list_elem_of_further.
      * exfalso. apply elem_of_cons in H2 as [?|?]; done.
Qed.

(** Copying the [io_deps] of a chain member into the fused layer's dict
    (lines 353-354) never fails; afterwards that dict holds every entry of
    the member's dict, and besides them the entries it had under other keys:
    on a shared key the member's value wins. No layer and no other dict
    changes. *)
Theorem merge_io_deps_later_member_wins (out_d member_d : loc) (h : heap) :
  is_Some (dict_objs h !! out_d) →
  ∃ h', merge_io_deps (map fst (map_to_list (dict_at h member_d))) out_d member_d h
          = Ok h'
    ∧ dict_at h' out_d = dict_at h member_d ∪ dict_at h out_d
    ∧ layer_objs h' = layer_objs h
    ∧ ∀ d, d ≠ out_d → dict_objs h' !! d = dict_objs h !! d.
Proof.
  intros Ho.
  destruct (merge_io_deps_spec (map fst (map_to_list (dict_at h member_d)))
              out_d member_d h) as (h' & Hm & Hl & Hd).
  { intros k Hk. apply list_elem_of_fmap in Hk as ([k' x] & -> & Hk).
    apply elem_of_map_to_list in Hk. by eexists. }
  exists h'. split_and!; try done.
  pose proof (merge_io_deps_lookup _ _ _ _ _ Ho Hm) as Hlk.
  apply map_eq. intros k. rewrite Hlk, lookup_union.
  case_decide as Hk.
  - apply list_elem_of_fmap in Hk as ([k' x] & -> & Hk).
    apply elem_of_map_to_list in Hk. simpl. rewrite Hk.
    by destruct (dict_at h out_d !! k').
  - destruct (dict_at h member_d !! k) as [v|] eqn:Hv.
    + exfalso. apply Hk. apply list_elem_of_fmap. exists (k, v). split; [done|].
      by apply elem_of_map_to_list.
    + by destruct (dict_at h out_d !! k).
Qed.

Lemma merge_io_deps_later_member_wins_example :
  ∃ h', merge_io_deps (map fst (map_to_list (dict_at Ex.h_chain 1))) 0 1 Ex.h_chain
          = Ok h'
    ∧ dict_at h' 0 = dict_at Ex.h_chain 1 ∪ dict_at Ex.h_chain 0
    ∧ layer_objs h' = layer_objs Ex.h_chain
    ∧ ∀ d, d ≠ 0 → dict_objs h' !! d = dict_objs Ex.h_chain !! d.
Proof.
  apply (merge_io_deps_later_member_wins 0 1 Ex.h_chain).
  vm_compute. by eexists.
Defined.

(** ** The fused tasks have no dangling token *)

(** A task whose reference tokens, at any depth, index the slots [ix]. *)
Definition valid_task (ix : list slot) (t : task) : bool :=
  forallb (valid_arg ix) (tail t).

Lemma py_index_length {A B} (l : list A) (l2 : list B) (i : Z) :
  length l = length l2 → is_Some (py_index l i) → is_Some (py_index l2 i).
Proof.
  intros Hlen. unfold py_index. rewrite Hlen.
  repeat case_match; try done; rewrite !lookup_lt_is_Some; lia.
Qed.

Lemma valid_arg_length (ix ix2 : list slot) (a : pyarg) :
  length ix = length ix2 → valid_arg ix a = true → valid_arg ix2 a = true.
Proof.
  intros Hlen.
  induction a as [s|l IH|l IH| | | |] using pyarg_nested_ind; try done.
  - rewrite !valid_arg_str. destruct (startswith s TOKEN_PREFIX); [|done].
    destruct (python_int (string_drop 18 s)) as [ind|]; [|done].
    intros Hv. apply bool_decide_eq_true in Hv. apply bool_decide_eq_true_2.
    by eapply py_index_length.
  - simpl. rewrite !forallb_forall. intros Hv a Ha.
    rewrite Forall_forall in IH. apply IH; [by apply list_elem_of_In|by apply Hv].
  - simpl. rewrite !forallb_forall. intros Hv a Ha.
    rewrite Forall_forall in IH. apply IH; [by apply list_elem_of_In|by apply Hv].
Qed.

Lemma fuse_member_inv_full dsk outlayer m st st' :
  fuse_member dsk outlayer m st = Ok st' →
  ∃ lm func args args2,
    layers dsk !! m = Some lm
    ∧ layer_dsk (layer_at (f_heap st) lm) !! m = Some (func :: args)
    ∧ _recursive_replace args (layer_at (f_heap st) lm) (f_parent st) (f_indices st)
      = Ok (args2, f_indices st')
    ∧ f_subgraph st' = <[m := func :: args2]> (f_subgraph st)
    ∧ f_parent st' = m
    ∧ layer_objs (f_heap st') = layer_objs (f_heap st).
Proof.
  unfold fuse_member. intros H.
  apply bind_Ok in H as (lm' & E & H). unfold getitem_layers in E.
  destruct (layers dsk !! m) as [lm|] eqn:Hl; [|done]. injection E as <-.
  apply bind_Ok in H as (hm & Em & H).
  destruct (layer_dsk (layer_at (f_heap st) lm) !! m) as [[|func args]|] eqn:Hd;
    try done.
  apply bind_Ok in H as ([args2 i'] & E2 & H). injection H as <-.
  exists lm, func, args, args2. simpl. split_and!; try done.
  by eapply merge_io_deps_layers.
Qed.

Lemma fuse_members_in_range dsk h outlayer members st st' :
  (∀ l' w, layer_objs h !! l' = Some w → layer_objs (f_heap st) !! l' = Some w) →
  graph_allocated dsk h →
  startswith (f_parent st) TOKEN_PREFIX = false →
  (∀ m, m ∈ members → startswith m TOKEN_PREFIX = false) →
  (∀ m v n, m ∈ members → layer_of dsk h m = Some v →
     (KStr n, None) ∈ layer_indices v → startswith n TOKEN_PREFIX = false) →
  map_Forall (λ _ t, valid_task (f_indices st) t = true) (f_subgraph st) →
  fuse_members dsk outlayer members st = Ok st' →
  map_Forall (λ _ t, valid_task (f_indices st') t = true) (f_subgraph st').
Proof.
  intros Hold Hal. revert st Hold.
  induction members as [|m members IH]; intros st Hold Hpar Hnames Hlit Hvalid; simpl.
  - by intros [= <-].
  - intros H. apply bind_Ok in H as (st1 & E1 & H).
    apply fuse_member_inv_full in E1
      as (lm & func & args & args2 & Hlm & Hd & Hrr & Hsub & Hp1 & Hobj).
    destruct (Hal _ _ Hlm) as [v Hv].
    assert (layer_at (f_heap st) lm = v) as Hat.
    { unfold layer_at. apply lookup_total_correct. by apply Hold. }
    rewrite Hat in Hrr.
    assert (layer_of dsk h m = Some v) as Hof by (unfold layer_of; by rewrite Hlm).
    pose proof (recursive_replace_appends_only_aux _ _ _ _ _ _ Hrr)
      as (_ & app & Happ & _).
    apply (IH st1); try done.
    + intros l' w Hw. rewrite Hobj. by apply Hold.
    + rewrite Hp1. apply Hnames, list_elem_of_here.
    + intros m' Hm'. apply Hnames. by apply list_elem_of_further.
    + intros m' v' n Hm'. apply Hlit. by apply list_elem_of_further.
    + rewrite Hsub. apply map_Forall_insert_2.
      * unfold valid_task. simpl.
        eapply (recursive_replace_tokens_in_range_aux args v (f_parent st));
          [done| |exact Hrr].
        intros n Hn. eapply (Hlit m v n); [apply list_elem_of_here|done..].
      * intros k t Hk. specialize (Hvalid k t Hk). simpl in Hvalid.
        unfold valid_task in *. rewrite Happ. by apply forallb_valid_app.
Qed.

(** On a well-formed graph, when no member of a chain has a name that
    starts with the token prefix, and no member has a literal string slot
    that does, every reference token in the tasks of the fused layer, at any
    depth, indexes the fused layer's [indices]: fusion leaves no dangling
    reference. *)
Theorem fused_tasks_have_no_dangling_token (layer_len : Layer → nat)
    (order : list string) (dsk : HighLevelGraph) (h : heap)
    (chains : list (list string)) (layers2 : gmap string loc) (h1 : heap)
    (g' : HighLevelGraph) (h' : heap) (chain : list string) :
  well_formed order dsk h →
  discover layer_len order dsk h = Ok (chains, layers2, h1) →
  rewrite_layer_chains layer_len order dsk h = Ok (g', h') →
  chain ∈ chains →
  (∀ m, m ∈ chain → startswith m TOKEN_PREFIX = false) →
  (∀ m v n, m ∈ chain → layer_of dsk h m = Some v →
     (KStr n, None) ∈ layer_indices v → startswith n TOKEN_PREFIX = false) →
  ∃ o l v',
    last chain = Some o ∧ layers g' !! o = Some l ∧ layer_objs h' !! l = Some v'
    ∧ ∀ k t, layer_dsk v' !! k = Some t → valid_task (layer_indices v') t = true.
Proof.
  intros Hwf Hd Hr Hc Hnames Hlit.
  destruct (fused_layer_in_store layer_len order dsk h chains layers2 h1 g' h' chain
              Hwf Hd Hr Hc)
    as (c0 & o & l & v0 & vo & nb & st & Hhd & Hla & Hv0 & Hvo & Hl & Hnb & Hv'
        & _ & _ & _ & hst & Hfm & Hold).
  exists o, l, (fused_layer v0 nb st vo). split_and!; try done.
  destruct chain as [|c0' rest]; [done|]. simpl in Hhd. injection Hhd as ->.
  pose proof Hwf as [_ _ _ _ _ Hal Hbw].
  assert (map_Forall (λ _ t, valid_task (f_indices st) t = true) (f_subgraph st))
    as Hall.
  { eapply (fuse_members_in_range dsk h l rest); [| | | | | |exact Hfm]; try done.
    - cbn [f_parent]. apply Hnames, list_elem_of_here.
    - intros m Hm. apply Hnames. by apply list_elem_of_further.
    - intros m v n Hm. apply Hlit. by apply list_elem_of_further.
    - cbn [f_indices f_subgraph].
      destruct (Hbw c0 v0 Hv0) as [(func & args & Hdsk & Hargs) _].
      { pose proof (discover_wf layer_len order dsk h Hwf)
          as (cs & l2 & hx & Hd' & Hinv).
        rewrite Hd in Hd'. injection Hd' as <- <- <-.
        destruct Hinv as [_ _ _ Hg _ _ _ _ _ _ _ _ _ _].
        rewrite Forall_forall in Hg. destruct (Hg _ Hc) as (_ & _ & Hb).
        rewrite Forall_forall in Hb.
        destruct (Hb c0 (list_elem_of_here _ _)) as (v0' & Hv0' & B0). congruence. }
      rewrite Hdsk. intros k t Hk.
      apply lookup_singleton_Some in Hk as [_ <-]. done. }
  intros k t Hk. unfold fused_layer, layer_dsk, layer_indices in *. simpl in *.
  specialize (Hall k t Hk). simpl in Hall. unfold valid_task in *.
  rewrite forallb_forall in Hall. apply forallb_forall. intros a Ha.
  apply (valid_arg_length (f_indices st)); [|by apply Hall].
  unfold fused_indices. by rewrite length_map.
Qed.

Lemma fused_tasks_have_no_dangling_token_example :
  ∃ o l v',
    last ["A"; "B"] = Some o
    ∧ match rewrite_layer_chains Ex.len3 ["A"; "B"] Ex.g_chain Ex.h_chain with
      | Ok (g', h') =>
          layers g' !! o = Some l ∧ layer_objs h' !! l = Some v'
          ∧ ∀ k t, layer_dsk v' !! k = Some t → valid_task (layer_indices v') t = true
      | _ => False
      end.
Proof.
  assert (well_formed ["A"; "B"] Ex.g_chain Ex.h_chain) as Hwf.
  { apply (wf_check_sound (λ x, if String.eqb x "A" then 0 else 1)).
    vm_compute. reflexivity. }
  destruct (discover Ex.len3 ["A"; "B"] Ex.g_chain Ex.h_chain)
    as [[[chains layers2] h1]|e|] eqn:Hd;
    [|vm_compute in Hd; discriminate Hd..].
  destruct (rewrite_layer_chains Ex.len3 ["A"; "B"] Ex.g_chain Ex.h_chain)
    as [[g' h']|e|] eqn:Hr;
    [|vm_compute in Hr; discriminate Hr..].
  assert (chains = [["A"; "B"]]) as ->.
  { revert Hd. vm_compute. by intros [= <- _ _]. }
  apply (fused_tasks_have_no_dangling_token Ex.len3 ["A"; "B"] Ex.g_chain Ex.h_chain
           [["A"; "B"]] layers2 h1 g' h' ["A"; "B"] Hwf Hd Hr).
  - apply list_elem_of_here.
  - intros m Hm.
    repeat (apply elem_of_cons in Hm as [->|Hm]; [reflexivity|]).
    by apply elem_of_nil in Hm.
  - intros m v n Hm Hv Hn.
    repeat (apply elem_of_cons in Hm as [->|Hm];
            [vm_compute in Hv; injection Hv as <-; vm_compute in Hn;
             repeat (apply elem_of_cons in Hn as [Hn|Hn]; [discriminate Hn|]);
             by apply elem_of_nil in Hn|]).
    by apply elem_of_nil in Hm.
Defined.

(** ** The name lists of the projection pass *)

Lemma elem_of_names (P : Layer → bool) (dsk : HighLevelGraph) (h : heap) (n : string) :
  n ∈ map fst (filter (λ nv : string * loc, P (layer_at h nv.2) = true)
                      (map_to_list (layers dsk)))
  ↔ ∃ l, layers dsk !! n = Some l ∧ P (layer_at h l) = true.
Proof.
  split.
  - intros Hin. apply list_elem_of_fmap in Hin as ([n' l] & -> & Hin).
    apply list_elem_of_filter in Hin as [Hp Hin].
    apply elem_of_map_to_list in Hin. by exists l.
  - intros (l & Hl & Hp). apply list_elem_of_fmap. exists (n, l). split; [done|].
    apply list_elem_of_filter. split; [done|]. by apply elem_of_map_to_list.
Qed.

Lemma name_lists_of_the_projection_pass_aux (dsk : HighLevelGraph) (h : heap) :
  (_has_projectable_awkward_io_layer dsk h = true
     ↔ _projectable_input_layer_names dsk h ≠ [])
  ∧ (∀ n, n ∈ _projectable_input_layer_names dsk h
       ↔ ∃ l, layers dsk !! n = Some l
            ∧ isinstance_AwkwardInputLayer (layer_at h l) = true
            ∧ is_projectable (layer_at h l) = true)
  ∧ (∀ n, n ∈ _ak_output_layer_names dsk h
       ↔ ∃ l m, layers dsk !! n = Some l
            ∧ annotations (layer_at h l) = Some m ∧ m !! "ak_output" = Some true)
  ∧ (∀ n, n ∈ _opt_touch_all_layer_names dsk h
       ↔ ∃ l, layers dsk !! n = Some l ∧ has_opt_touch_all (layer_at h l) = true)
  ∧ NoDup (_projectable_input_layer_names dsk h)
  ∧ NoDup (_ak_output_layer_names dsk h)
  ∧ NoDup (_opt_touch_all_layer_names dsk h).
Proof.
  assert (∀ n, n ∈ _projectable_input_layer_names dsk h
            ↔ ∃ l, layers dsk !! n = Some l
                 ∧ isinstance_AwkwardInputLayer (layer_at h l) = true
                 ∧ is_projectable (layer_at h l) = true) as Hproj.
  { intros n. unfold _projectable_input_layer_names.
    rewrite (elem_of_names is_projectable_input). unfold is_projectable_input.
    by setoid_rewrite andb_true_iff. }
  split_and!.
  - split.
    + intros Hex Hnil. unfold _has_projectable_awkward_io_layer in Hex.
      apply existsb_exists in Hex as ([n l] & Hin & Hp).
      apply list_elem_of_In, elem_of_map_to_list in Hin. simpl in Hp.
      assert (n ∈ _projectable_input_layer_names dsk h) as Hn.
      { apply Hproj. exists l. split; [done|].
        unfold is_projectable_input in Hp. by apply andb_true_iff in Hp. }
      rewrite Hnil in Hn. by apply elem_of_nil in Hn.
    + intros Hne. destruct (_projectable_input_layer_names dsk h) as [|n r] eqn:Hn;
        [done|].
      destruct (proj1 (Hproj n) (list_elem_of_here _ _)) as (l & Hl & Hi & Hp).
      apply existsb_exists. exists (n, l). split.
      * by apply list_elem_of_In, elem_of_map_to_list.
      * unfold is_projectable_input. simpl. by rewrite Hi, Hp.
  - done.
  - intros n. unfold _ak_output_layer_names, _layers_with_annotation.
    rewrite (elem_of_names (λ v, annotation_truthy v "ak_output")).
    unfold annotation_truthy. split.
    + intros (l & Hl & Ha).
      destruct (annotations (layer_at h l)) as [m|] eqn:Hann; [|done].
      destruct (m !! "ak_output") as [[|]|] eqn:Hm; try done. by exists l, m.
    + intros (l & m & Hl & Ha & Hm). exists l. by rewrite Ha, Hm.
  - intros n. unfold _opt_touch_all_layer_names. apply (elem_of_names has_opt_touch_all).
  - apply NoDup_fst_filter, NoDup_fst_map_to_list.
  - apply ak_output_names_NoDup.
  - apply NoDup_fst_filter, NoDup_fst_map_to_list.
Qed.

(** The helper that tests for a projectable input layer agrees with the
    helper that lists them: the test holds exactly when the list is not
    empty. Each list of names (projectable inputs, annotated outputs,
    touch-all layers) has no name twice and holds exactly the names of the
    layers with the property looked for. *)
Theorem name_lists_of_the_projection_pass (dsk : HighLevelGraph) (h : heap) :
  (_has_projectable_awkward_io_layer dsk h = true
     ↔ _projectable_input_layer_names dsk h ≠ [])
  ∧ (∀ n, n ∈ _projectable_input_layer_names dsk h
       ↔ ∃ l, layers dsk !! n = Some l
            ∧ isinstance_AwkwardInputLayer (layer_at h l) = true
            ∧ is_projectable (layer_at h l) = true)
  ∧ (∀ n, n ∈ _ak_output_layer_names dsk h
       ↔ ∃ l m, layers dsk !! n = Some l
            ∧ annotations (layer_at h l) = Some m ∧ m !! "ak_output" = Some true)
  ∧ (∀ n, n ∈ _opt_touch_all_layer_names dsk h
       ↔ ∃ l, layers dsk !! n = Some l ∧ has_opt_touch_all (layer_at h l) = true)
  ∧ NoDup (_projectable_input_layer_names dsk h)
  ∧ NoDup (_ak_output_layer_names dsk h)
  ∧ NoDup (_opt_touch_all_layer_names dsk h).
Proof. apply name_lists_of_the_projection_pass_aux. Qed.

(** ** What [optimize_columns] returns and what it leaves alone *)

Lemma project_layers_spec C report items lys h lys' h' :
  project_layers C report items lys h = Ok (lys', h') →
  heap_ext h h'
  ∧ dom lys' = dom lys
  ∧ (∀ name, name ∉ map fst items → lys' !! name = lys !! name).
Proof.
  revert lys h. induction items as [|[name state] items IH]; intros lys h; simpl.
  - by intros [= <- <-].
  - destruct (lys !! name) as [l|] eqn:Hl; [|done]. intros H.
    apply bind_Ok in H as (p & Ep & H).
    destruct (IH _ _ H) as (He & Hdom & Hkeep). split_and!.
    + etrans; [exact (alloc_layer_ext p h _ _ eq_refl)|done].
    + rewrite Hdom. apply dom_insert_lookup_L. by eexists.
    + intros n Hn. apply not_elem_of_cons in Hn as [Hne Hn].
      rewrite (Hkeep n Hn). by apply lookup_insert_ne.
Qed.

Lemma mock_layers_states_dom C proj items pl states h pl' states' h' n :
  mock_layers C proj items (pl, states, h) = Ok (pl', states', h') →
  is_Some (states' !! n) → is_Some (states !! n) ∨ n ∈ proj.
Proof.
  revert pl states h. induction items as [|[name lay] items IH]; intros pl states h; simpl.
  - intros [= <- <- <-]. by left.
  - case_bool_decide as Hp.
    + intros Hm Hs. apply bind_Ok in Hm as ([m s] & E & Hm).
      destruct (IH _ _ _ Hm Hs) as [Hin|Hin]; [|by right].
      destruct (decide (n = name)) as [->|Hne]; [by right|].
      left. by rewrite lookup_insert_ne in Hin.
    + destruct (has_mock (layer_at h lay)); [|by apply IH].
      intros Hm Hs. apply bind_Ok in Hm as (m & E & Hm). by eapply IH.
Qed.

Lemma build_tracer_graph_states C dsk h hlg states h1 n :
  build_tracer_graph C dsk h = Ok (hlg, states, h1) →
  is_Some (states !! n) → n ∈ _projectable_input_layer_names dsk h.
Proof.
  unfold build_tracer_graph. intros H Hs.
  apply bind_Ok in H as ([[pl1 st1] h1'] & E1 & H).
  apply bind_Ok in H as ([pl2 h2] & E2 & H).
  apply bind_Ok in H as ([pl3 h3] & E3 & H).
  injection H as <- <- <-.
  destruct (mock_layers_states_dom _ _ _ _ _ _ _ _ _ n E1 Hs) as [[x Hx]|Hin]; [|done].
  by rewrite lookup_empty in Hx.
Qed.

(** Whenever [optimize_columns] returns a graph, that graph has the
    dependencies of the given graph and the same layer names, and under
    every name that is not a projectable input layer it holds the very
    object the given graph holds. *)
Theorem optimize_columns_replaces_only_projectable_inputs (C : collaborators)
    (on_fail : string) (dsk : HighLevelGraph) (st : run_state)
    (g' : HighLevelGraph) (st' : run_state) :
  optimize_columns C on_fail dsk st = (Ok g', st') →
  dependencies g' = dependencies dsk
  ∧ dom (layers g') = dom (layers dsk)
  ∧ (∀ name, name ∉ _projectable_input_layer_names dsk (st_heap st) →
       layers g' !! name = layers dsk !! name).
Proof.
  unfold optimize_columns.
  destruct (_has_projectable_awkward_io_layer dsk (st_heap st)); cbn [negb];
    [|by intros [= <- <-]].
  destruct (build_tracer_graph C dsk (st_heap st)) as [[[hlg states] h1]| |] eqn:Hb;
    [|done..].
  destruct (try_body C hlg (leaf_layers_keys dsk) h1) as [h2 r].
  destruct r as [report|err|].
  - destruct (project_layers C report (map_to_list states) (layers dsk) h2)
      as [[lys h3]| |] eqn:Hp; [|done..].
    intros [= <- <-]. simpl.
    apply project_layers_spec in Hp as (_ & Hdom & Hkeep).
    split_and!; [done..|]. intros name Hn. apply Hkeep. intros Hin.
    apply Hn. eapply build_tracer_graph_states; [exact Hb|].
    apply list_elem_of_fmap in Hin as ([n s] & -> & Hin).
    apply elem_of_map_to_list in Hin. by eexists.
  - destruct (is_Exception err); [|done]. unfold on_failure.
    repeat case_match; by intros [= <- <-].
  - done.
Qed.

Lemma optimize_columns_replaces_only_projectable_inputs_example :
  layers (mkHLG (<["src" := 4]> (layers Ex.g_io)) (dependencies Ex.g_io)) !! "out"
  = layers Ex.g_io !! "out".
Proof.
  eapply (optimize_columns_replaces_only_projectable_inputs
            Ex.C_ok "warn" Ex.g_io (Ex.run0 Ex.h_io)).
  - vm_compute. reflexivity.
  - vm_compute. intros Hin. apply list_elem_of_singleton in Hin. discriminate Hin.
Defined.



(** ** Projectable input layers are replaced by their projection *)

Lemma mock_layers_states_notin C proj items pl states h pl' states' h' n :
  n ∉ map fst items →
  mock_layers C proj items (pl, states, h) = Ok (pl', states', h') →
  states' !! n = states !! n.
Proof.
  revert pl states h. induction items as [|[name lay] items IH]; intros pl states h Hn;
    simpl.
  - by intros [= <- <- <-].
  - simpl in Hn. apply not_elem_of_cons in Hn as [Hne Hn]. case_bool_decide as Hp.
    + intros Hm. apply bind_Ok in Hm as ([m s] & E & Hm).
      rewrite (IH _ _ _ Hn Hm). by apply lookup_insert_ne.
    + destruct (has_mock (layer_at h lay)); [|by apply IH].
      intros Hm. apply bind_Ok in Hm as (m & E & Hm). by apply (IH _ _ _ Hn Hm).
Qed.

Lemma mock_layers_state_of C proj items pl states h pl' states' h' name lay v :
  NoDup (map fst items) → (name, lay) ∈ items → name ∈ proj →
  layer_objs h !! lay = Some v →
  mock_layers C proj items (pl, states, h) = Ok (pl', states', h') →
  ∃ m s, mock_input C v = Ok (m, s) ∧ states' !! name = Some s.
Proof.
  revert pl states h.
  induction items as [|[name0 lay0] items IH]; intros pl states h Hnd Hin Hp Hv; simpl.
  - by apply elem_of_nil in Hin.
  - simpl in Hnd. apply NoDup_cons in Hnd as [Hn0 Hnd].
    apply elem_of_cons in Hin as [[= <- <-]|Hin].
    + rewrite bool_decide_eq_true_2 by done. intros Hm.
      apply bind_Ok in Hm as ([m s] & E & Hm).
      assert (layer_at h lay = v) as Hat by by apply lookup_total_correct.
      rewrite Hat in E. exists m, s. split; [done|].
      rewrite (mock_layers_states_notin _ _ _ _ _ _ _ _ _ name Hn0 Hm).
      apply lookup_insert_eq.
    + case_bool_decide as Hp0.
      * intros Hm. apply bind_Ok in Hm as ([m s] & E & Hm).
        eapply (IH _ _ _ Hnd Hin Hp); [|exact Hm].
        destruct (alloc_layer_ext m h _ _ eq_refl) as [Hs _].
        by eapply lookup_weaken.
      * destruct (has_mock (layer_at h lay0)); [|by apply IH].
        intros Hm. apply bind_Ok in Hm as (m & E & Hm).
        eapply (IH _ _ _ Hnd Hin Hp); [|exact Hm].
        destruct (alloc_layer_ext m h _ _ eq_refl) as [Hs _].
        by eapply lookup_weaken.
Qed.

Lemma project_layers_in C report items lys h lys' h' name s :
  NoDup (map fst items) → (name, s) ∈ items →
  project_layers C report items lys h = Ok (lys', h') →
  ∃ l hcur p l',
    lys !! name = Some l ∧ heap_ext h hcur
    ∧ project C (layer_at hcur l) s report = Ok p
    ∧ layer_objs hcur !! l' = None
    ∧ lys' !! name = Some l' ∧ layer_objs h' !! l' = Some p.
Proof.
  revert lys h. induction items as [|[n0 s0] items IH]; intros lys h Hnd Hin; simpl.
  - by apply elem_of_nil in Hin.
  - simpl in Hnd. apply NoDup_cons in Hnd as [Hn0 Hnd].
    destruct (lys !! n0) as [l0|] eqn:Hl0; [|done]. intros H.
    apply bind_Ok in H as (p & Ep & H).
    pose proof (alloc_layer_fresh p h _ _ eq_refl) as (Hfr & Hobj & _).
    pose proof (alloc_layer_ext p h _ _ eq_refl) as Hext.
    apply elem_of_cons in Hin as [[= <- <-]|Hin].
    + exists l0, h, p, (alloc_layer p h).1. split_and!; try done.
      * destruct (project_layers_spec _ _ _ _ _ _ _ H) as (_ & _ & Hkeep).
        rewrite (Hkeep name Hn0). apply lookup_insert_eq.
      * destruct (project_layers_spec _ _ _ _ _ _ _ H) as ([Hs _] & _).
        eapply lookup_weaken; [|exact Hs]. rewrite Hobj. apply lookup_insert_eq.
    + destruct (IH _ _ Hnd Hin H) as (l & hcur & p' & l' & Hl & He & Hp & Hfr' & Hl' & Hv').
      exists l, hcur, p', l'. split_and!; try done.
      * rewrite lookup_insert_ne in Hl; [done|]. intros <-. apply Hn0.
        apply list_elem_of_fmap. by exists (n0, s).
      * by etrans.
Qed.

(** When the evaluation succeeds and [optimize_columns] returns a graph,
    every projectable input layer of the given graph has been replaced by a
    new object: the result of the layer's own [project], applied to the
    state its [mock] recorded and to the report of the evaluation. The
    layer [project] is applied to is the given one, at most without its
    cached task dictionary. *)
Theorem projectable_inputs_are_projected (C : collaborators) (on_fail : string)
    (dsk : HighLevelGraph) (st : run_state) (g' : HighLevelGraph) (st' : run_state)
    hlg states h1 (report : list nat) (name : string) :
  graph_allocated dsk (st_heap st) →
  build_tracer_graph C dsk (st_heap st) = Ok (hlg, states, h1) →
  (try_body C hlg (leaf_layers_keys dsk) h1).2 = Ok report →
  optimize_columns C on_fail dsk st = (Ok g', st') →
  name ∈ _projectable_input_layer_names dsk (st_heap st) →
  ∃ l v v2 m s p l',
    layers dsk !! name = Some l ∧ layer_objs (st_heap st) !! l = Some v
    ∧ mock_input C v = Ok (m, s)
    ∧ (v2 = v ∨ v2 = del_cached_dict v)
    ∧ project C v2 s report = Ok p
    ∧ layers g' !! name = Some l'
    ∧ layer_objs (st_heap st) !! l' = None
    ∧ layer_objs (st_heap st') !! l' = Some p.
Proof.
  intros Hal Hb Ht Ho Hname.
  destruct (name_lists_of_the_projection_pass_aux dsk (st_heap st)) as (Hhas & Hproj).
  pose proof (proj2 Hhas) as Hp.
  assert (_has_projectable_awkward_io_layer dsk (st_heap st) = true) as Hp'.
  { apply Hp. intros Hnil. rewrite Hnil in Hname. by apply elem_of_nil in Hname. }
  rewrite (optimize_columns_built C on_fail dsk st hlg states h1 Hp' Hb) in Ho.
  cbv zeta in Ho. rewrite Ht in Ho.
  pose proof (λ l v, try_body_frame C dsk (st_heap st) hlg states h1 l v Hb) as Hfr.
  cbv zeta in Hfr.
  set (h2 := (try_body C hlg (leaf_layers_keys dsk) h1).1) in *.
  destruct (project_layers C report (map_to_list states) (layers dsk) h2)
    as [[lys h3]| |] eqn:Hpl; [|done..].
  injection Ho as <- <-. simpl.
  apply Hproj in Hname as Hn. destruct Hn as (l & Hl & _).
  destruct (Hal _ _ Hl) as [v Hv].
  pose proof Hb as Hb'. unfold build_tracer_graph in Hb'.
  apply bind_Ok in Hb' as ([[pl1 st1] h1'] & E1 & Hb').
  apply bind_Ok in Hb' as ([pl2 h2'] & E2 & Hb').
  apply bind_Ok in Hb' as ([pl3 h3'] & E3 & Hb').
  injection Hb' as _ -> _.
  destruct (mock_layers_state_of _ _ _ _ _ _ _ _ _ name l v
              (NoDup_fst_map_to_list _) (proj2 (elem_of_map_to_list _ _ _) Hl)
              Hname Hv E1) as (m & s & Hm & Hs).
  destruct (project_layers_in C report (map_to_list states) (layers dsk) h2 lys h3
              name s (NoDup_fst_map_to_list _)
              (proj2 (elem_of_map_to_list _ _ _) Hs) Hpl)
    as (l0 & hcur & p & l' & Hl0 & [Hel _] & Hpr & Hfresh & Hl' & Hv').
  rewrite Hl in Hl0. injection Hl0 as <-.
  exists l, v, (layer_at hcur l), m, s, p, l'. split_and!; try done.
  - destruct (Hfr l v Hv) as [[H2|H2] _]; [left|right];
      apply lookup_total_correct; by eapply lookup_weaken.
  - destruct (layer_objs (st_heap st) !! l') as [w|] eqn:Hw; [|done].
    destruct (Hfr l' w Hw) as [[H2|H2] _];
      pose proof (lookup_weaken _ _ _ _ H2 Hel); congruence.
Qed.

Lemma projectable_inputs_are_projected_example :
  ∃ g' st' l',
    optimize_columns Ex.C_ok "warn" Ex.g_io (Ex.run0 Ex.h_io) = (Ok g', st')
    ∧ layers g' !! "src" = Some l'
    ∧ layer_objs Ex.h_io !! l' = None
    ∧ is_Some (layer_objs (st_heap st') !! l').
Proof.
  destruct (optimize_columns Ex.C_ok "warn" Ex.g_io (Ex.run0 Ex.h_io))
    as [[g'|e|] st'] eqn:Ho;
    [|vm_compute in Ho; discriminate Ho..].
  destruct (build_tracer_graph Ex.C_ok Ex.g_io Ex.h_io)
    as [[[hlg states] h1]|e|] eqn:Hb;
    [|vm_compute in Hb; discriminate Hb..].
  destruct (projectable_inputs_are_projected Ex.C_ok "warn" Ex.g_io (Ex.run0 Ex.h_io)
              g' st' hlg states h1 [1] "src")
    as (l & v & v2 & m & s & p & l' & _ & _ & _ & _ & _ & Hl' & Hfr & Hp).
  - intros x l Hl. unfold Ex.g_io in Hl. simpl in Hl.
    apply lookup_insert_Some in Hl as [[_ <-]|[_ Hl]]; [by eexists|].
    apply lookup_insert_Some in Hl as [[_ <-]|[_ Hl]]; [by eexists|].
    by rewrite lookup_empty in Hl.
  - exact Hb.
  - reflexivity.
  - exact Ho.
  - vm_compute. apply list_elem_of_here.
  - exists g', st', l'. split_and!; try done; by eexists.
Defined.

(** ** The wrappers copy the layer they wrap *)

Lemma wrapper_spec (f : task → task) l h l' h' :
  (if negb (Nat.eqb (size (layer_dsk (layer_at h l))) 1)
   then raise AssertionError ""
   else
     let '(new_layer, h1) := deepcopy l h in
     let mp := f <$> layer_dsk (layer_at h1 new_layer) in
     Ok (new_layer, update_layer new_layer (set_dsk mp) h1)) = Ok (l', h') →
  size (layer_dsk (layer_at h l)) = 1
  ∧ heap_ext h h'
  ∧ layer_objs h !! l' = None
  ∧ ∃ d, dict_objs h !! d = None
       ∧ dict_objs h' !! d = Some (dict_at h (io_deps (layer_at h l)))
       ∧ layer_objs h' !! l'
         = Some (set_dsk (f <$> layer_dsk (layer_at h l)) (set_io_deps d (layer_at h l))).
Proof.
  destruct (size (layer_dsk (layer_at h l)) =? 1)%nat eqn:Hs; cbn [negb]; [|done].
  destruct (deepcopy l h) as [nl h1] eqn:Hd. intros [= <- <-].
  pose proof (deepcopy_ext _ _ _ _ Hd) as [He Hf].
  apply deepcopy_spec in Hd as (d & Hdf & Hnl & Hdd).
  split_and!.
  - by apply Nat.eqb_eq.
  - by apply update_layer_ext_fresh.
  - done.
  - exists d. split_and!; [done|by rewrite dict_objs_update|].
    rewrite lookup_update_layer_eq, Hnl. simpl. do 2 f_equal.
    unfold layer_at at 1. by rewrite (lookup_total_correct _ _ _ Hnl).
Qed.

(** [_mock_output] and [_touch_and_call] return exactly when the layer holds
    one task, and raise an [AssertionError] otherwise. What they return is a
    new layer object with a new [io_deps] dict of the same content (a deep
    copy: neither the given layer nor its dict is shared or changed), whose
    tasks are the given ones with [_touch_all_data] in place of the callable,
    respectively with [_touch_and_call_fn] put in front; every other
    attribute is the given layer's. *)
Theorem wrappers_return_deep_copies (l : loc) (h : heap) :
  (size (layer_dsk (layer_at h l)) ≠ 1 →
     _mock_output l h = raise AssertionError ""
     ∧ _touch_and_call l h = raise AssertionError "")
  ∧ (∀ l' h', _mock_output l h = Ok (l', h') →
       size (layer_dsk (layer_at h l)) = 1
       ∧ heap_ext h h' ∧ layer_objs h !! l' = None
       ∧ ∃ d, dict_objs h !! d = None
            ∧ dict_objs h' !! d = Some (dict_at h (io_deps (layer_at h l)))
            ∧ layer_objs h' !! l'
              = Some (set_dsk ((λ t : task, AFunc Fn_touch_all_data :: tail t)
                                 <$> layer_dsk (layer_at h l))
                        (set_io_deps d (layer_at h l))))
  ∧ (∀ l' h', _touch_and_call l h = Ok (l', h') →
       size (layer_dsk (layer_at h l)) = 1
       ∧ heap_ext h h' ∧ layer_objs h !! l' = None
       ∧ ∃ d, dict_objs h !! d = None
            ∧ dict_objs h' !! d = Some (dict_at h (io_deps (layer_at h l)))
            ∧ layer_objs h' !! l'
              = Some (set_dsk ((λ t : task, AFunc Fn_touch_and_call_fn :: t)
                                 <$> layer_dsk (layer_at h l))
                        (set_io_deps d (layer_at h l)))).
Proof.
  split_and!.
  - intros Hne. unfold _mock_output, _touch_and_call.
    apply Nat.eqb_neq in Hne. by rewrite Hne.
  - intros l' h'. apply wrapper_spec.
  - intros l' h'. apply wrapper_spec.
Qed.

(** ** Touch-all layers in the tracer graph *)

Lemma opt_touch_all_names_NoDup dsk h : NoDup (_opt_touch_all_layer_names dsk h).
Proof. apply NoDup_fst_filter, NoDup_fst_map_to_list. Qed.

(** For every layer that carries the touch-all marker, the tracer graph
    holds, under the same name, a new copy of the layer as it was after the
    earlier steps (mocking, output wrapping); the layer held exactly one
    task, and the copy's task is that task with [_touch_and_call_fn] put in
    front. Running it touches each argument of the task and then runs the
    task as it was. *)
Theorem touch_all_layer_touches_then_calls (C : collaborators)
    (dsk : HighLevelGraph) (h : heap) hlg states h' (name : string) :
  build_tracer_graph C dsk h = Ok (hlg, states, h') →
  name ∈ _opt_touch_all_layer_names dsk h →
  ∃ pl1 st1 h1 pl2 h2 l ha l',
    mock_layers C (_projectable_input_layer_names dsk h)
      (map_to_list (layers dsk)) (layers dsk, ∅, h) = Ok (pl1, st1, h1)
    ∧ wrap_layers _mock_output (_ak_output_layer_names dsk h) pl1 h1 = Ok (pl2, h2)
    ∧ pl2 !! name = Some l
    ∧ heap_ext h2 ha ∧ heap_ext ha h'
    ∧ layers hlg !! name = Some l'
    ∧ layer_objs ha !! l' = None
    ∧ size (layer_dsk (layer_at ha l)) = 1
    ∧ ∀ k t, layer_dsk (layer_at ha l) !! k = Some t →
        layer_dsk (layer_at h' l') !! k = Some (AFunc Fn_touch_and_call_fn :: t)
        ∧ run_task (AFunc Fn_touch_and_call_fn :: t) = map Touch (tail t) ++ run_task t.
Proof.
  unfold build_tracer_graph. intros H Hta.
  apply bind_Ok in H as ([[pl1 st1] h1] & E1 & H).
  apply bind_Ok in H as ([pl2 h2] & E2 & H).
  apply bind_Ok in H as ([pl3 h3] & E3 & H).
  injection H as <- <- <-.
  destruct (wrap_layers_in _ _ _ _ _ _ name touch_and_call_ext
              (opt_touch_all_names_NoDup dsk h) Hta E3)
    as (l & ha & l' & hb & Hl & Hea & Hwr & Heb & Hl').
  exists pl1, st1, h1, pl2, h2, l, ha, l'.
  pose proof (touch_and_call_ext _ _ _ _ Hwr) as Hab.
  apply wrapper_spec in Hwr as (Hsz & _ & Hfresh & d & _ & _ & Hv).
  split_and!; try done.
  - by etrans.
  - intros k t Hk. split; [|done].
    rewrite (heap_ext_layer_at hb h3 l' _ Heb Hv). unfold layer_dsk at 1. simpl.
    fold (layer_dsk (layer_at ha l)). by rewrite lookup_fmap, Hk.
Qed.

Module Ex2.

(** A layer with the touch-all marker reading the projectable input [src]. *)
Definition L_touch : Layer :=
  mkLayer false true false false true None
    [(KStr "src", Some ["i"])] [(KStr "src", [Some 3])] 1
    {[ "t" := [AFunc (Fn_user 8); Ex.tok 0] ]} ["i"] None None None.

Definition g_touch : HighLevelGraph :=
  mkHLG (<["src" := 0]> (<["t" := 1]> ∅)) (<["src" := ∅]> (<["t" := {["src"]}]> ∅)).

Definition h_touch : heap :=
  mkHeap (<[0 := Ex.L_src]> (<[1 := L_touch]> ∅)) (<[0 := ∅]> (<[1 := ∅]> ∅)).

End Ex2.

Lemma touch_all_layer_touches_then_calls_example :
  ∃ hlg states h' l',
    build_tracer_graph Ex.C_ok Ex2.g_touch Ex2.h_touch = Ok (hlg, states, h')
    ∧ layers hlg !! "t" = Some l'
    ∧ layer_objs Ex2.h_touch !! l' = None.
Proof.
  destruct (build_tracer_graph Ex.C_ok Ex2.g_touch Ex2.h_touch)
    as [[[hlg states] h']|e|] eqn:Hb;
    [|vm_compute in Hb; discriminate Hb..].
  destruct (touch_all_layer_touches_then_calls Ex.C_ok Ex2.g_touch Ex2.h_touch
              hlg states h' "t" Hb)
    as (pl1 & st1 & h1 & pl2 & h2 & l & ha & l' & Hm & Hw & _ & [H2a _] & _ & Hl' & Hfr & _).
  - vm_compute. apply list_elem_of_here.
  - exists hlg, states, h', l'. split; [reflexivity|]. split; [exact Hl'|].
    apply mock_layers_ext in Hm as [Hs1 _].
    apply (wrap_layers_ext _ _ _ _ _ _ mock_output_ext) in Hw as [Hs2 _].
    destruct (layer_objs Ex2.h_touch !! l') as [w|] eqn:Hw'; [|done].
    pose proof (lookup_weaken _ _ _ _ Hw' Hs1) as H1.
    pose proof (lookup_weaken _ _ _ _ H1 Hs2) as H2.
    pose proof (lookup_weaken _ _ _ _ H2 H2a). congruence.
Defined.

(** ** The keys evaluated *)

(** The keys handed to the evaluator (lines 144-146) are partition [0] of
    exactly the names that have a dependents entry which is empty: the
    layers with a dependencies entry that no dependencies entry mentions.
    No key is listed twice. *)
Theorem leaf_keys_are_the_sinks (dsk : HighLevelGraph) :
  NoDup (leaf_layers_keys dsk)
  ∧ (∀ k i, (k, i) ∈ leaf_layers_keys dsk ↔ i = 0 ∧ dependents dsk k = Some ∅)
  ∧ (∀ k i, (k, i) ∈ leaf_layers_keys dsk
       ↔ i = 0 ∧ is_Some (dependencies dsk !! k)
         ∧ ∀ d ds, dependencies dsk !! d = Some ds → k ∉ ds).
Proof.
  assert (∀ k i, (k, i) ∈ leaf_layers_keys dsk ↔ i = 0 ∧ dependents dsk k = Some ∅)
    as Hchar.
  { intros k i. unfold leaf_layers_keys. rewrite list_elem_of_fmap. split.
    - intros (k' & [= -> ->] & Hin). split; [done|].
      apply list_elem_of_filter in Hin as [He Hin]. apply elem_of_elements in Hin.
      unfold dependents. rewrite decide_True by done. by rewrite He.
    - intros (-> & Hd). exists k. split; [done|].
      apply dependents_Some in Hd as [He Hin].
      apply list_elem_of_filter. split; [done|].
      apply elem_of_elements, elem_of_union. done. }
  split_and!; [|done|].
  - unfold leaf_layers_keys. apply NoDup_fmap_2; [by intros ? ? [= ->]|].
    apply NoDup_filter, NoDup_elements.
  - intros k i. rewrite Hchar. split.
    + intros (-> & Hd). apply dependents_Some in Hd as [He Hin].
      assert (∀ d ds, dependencies dsk !! d = Some ds → k ∉ ds) as Hno.
      { intros d ds Hds Hk.
        assert (d ∈ dependents_of (dependencies dsk) k) as Hd'
          by (apply elem_of_dependents_of; eauto).
        rewrite <- He in Hd'. by apply elem_of_empty in Hd'. }
      split_and!; [done| |done].
      destruct Hin as [Hin|Hin]; [by apply elem_of_dom|].
      apply elem_of_referenced in Hin as (d & vs & Hd' & Hk). by destruct (Hno d vs).
    + intros (-> & Hk & Hno). split; [done|].
      rewrite (dependents_of_key dsk k Hk). f_equal.
      apply set_eq. intros d. rewrite elem_of_dependents_of. split.
      * intros (vs & Hvs & Hin). by destruct (Hno d vs).
      * intros Hd. by apply elem_of_empty in Hd.
Qed.

(** ** Cached task dictionaries *)

Lemma pop_cached_lookup (items : list (string * loc)) (h : heap) (l : loc) :
  dict_objs (foldl (λ h (nv : string * loc), update_layer nv.2 del_cached_dict h) h items)
  = dict_objs h
  ∧ layer_objs (foldl (λ h (nv : string * loc), update_layer nv.2 del_cached_dict h)
                  h items) !! l
    = if decide (l ∈ map snd items) then del_cached_dict <$> layer_objs h !! l
      else layer_objs h !! l.
Proof.
  induction items as [|[n l0] items [IH1 IH2]] using rev_ind.
  - split; [done|]. case_decide as Hin; [by apply elem_of_nil in Hin|done].
  - rewrite foldl_app. cbn [foldl]. split; [by rewrite dict_objs_update|].
    rewrite map_app. cbn [map snd]. destruct (decide (l = l0)) as [->|Hne].
    + rewrite lookup_update_layer_eq, IH2.
      case_decide as H1; case_decide as H2.
      * destruct (layer_objs h !! l0); simpl; [|done]. by rewrite del_cached_dict_idemp.
      * exfalso. apply H2. apply elem_of_app. by left.
      * done.
      * exfalso. apply H2. apply elem_of_app. right. apply list_elem_of_here.
    + rewrite lookup_update_layer_ne by done. rewrite IH2.
      case_decide as H1; case_decide as H2; try done.
      * exfalso. apply H2. apply elem_of_app. by left.
      * exfalso. apply elem_of_app in H2 as [H2|H2]; [done|].
        by apply list_elem_of_singleton in H2.
Qed.

(** Before the evaluation (lines 153-154) the cached task dictionary is
    dropped from every layer object of the tracer graph, in place; no other
    attribute of these objects changes, and no other object and no dict
    changes at all. *)
Theorem cached_dicts_are_dropped_from_graph_layers (hlg : HighLevelGraph) (h : heap) :
  dict_objs (pop_cached_dicts hlg h) = dict_objs h
  ∧ (∀ name l, layers hlg !! name = Some l →
       layer_objs (pop_cached_dicts hlg h) !! l = del_cached_dict <$> layer_objs h !! l)
  ∧ (∀ l, (∀ name, layers hlg !! name ≠ Some l) →
       layer_objs (pop_cached_dicts hlg h) !! l = layer_objs h !! l).
Proof.
  unfold pop_cached_dicts. split_and!.
  - apply (pop_cached_lookup _ h 0).
  - intros name l Hl. destruct (pop_cached_lookup (map_to_list (layers hlg)) h l)
      as [_ ->].
    rewrite decide_True; [done|]. apply list_elem_of_fmap. exists (name, l).
    split; [done|]. by apply elem_of_map_to_list.
  - intros l Hno. destruct (pop_cached_lookup (map_to_list (layers hlg)) h l)
      as [_ ->].
    rewrite decide_False; [done|]. intros Hin.
    apply list_elem_of_fmap in Hin as ([n l'] & -> & Hin).
    apply elem_of_map_to_list in Hin. by apply (Hno n).
Qed.

(** ** An output layer with several tasks *)

Lemma mock_layers_keeps C proj items pl states h pl' states' h' name :
  name ∉ proj →
  (∀ lay, (name, lay) ∈ items → ∃ v, layer_objs h !! lay = Some v ∧ has_mock v = false) →
  mock_layers C proj items (pl, states, h) = Ok (pl', states', h') →
  pl' !! name = pl !! name.
Proof.
  intros Hnp. revert pl states h.
  induction items as [|[n0 lay0] items IH]; intros pl states h Hno; simpl.
  - by intros [= <- <- <-].
  - assert (∀ m (lay : loc), (name, lay) ∈ items →
              ∃ v, layer_objs (alloc_layer m h).2 !! lay = Some v ∧ has_mock v = false)
      as Hnext.
    { intros m lay Hin. destruct (Hno lay) as (v & Hv & Hm);
        [by apply list_elem_of_further|].
      exists v. split; [|done].
      destruct (alloc_layer_ext m h _ _ eq_refl) as [Hs _]. by eapply lookup_weaken. }
    case_bool_decide as Hp.
    + intros Hm. apply bind_Ok in Hm as ([m s] & E & Hm).
      rewrite (IH _ _ _ (Hnext m) Hm). apply lookup_insert_ne. by intros ->.
    + destruct (has_mock (layer_at h lay0)) eqn:Hhm.
      * intros Hm. apply bind_Ok in Hm as (m & E & Hm).
        rewrite (IH _ _ _ (Hnext m) Hm). apply lookup_insert_ne. intros ->.
        destruct (Hno lay0) as (v & Hv & Hmv); [apply list_elem_of_here|].
        unfold layer_at in Hhm. rewrite (lookup_total_correct _ _ _ Hv) in Hhm.
        congruence.
      * apply IH. intros lay Hin. apply Hno. by apply list_elem_of_further.
Qed.

Lemma mock_layers_dom C proj items pl states h pl' states' h' n :
  mock_layers C proj items (pl, states, h) = Ok (pl', states', h') →
  is_Some (pl !! n) → is_Some (pl' !! n).
Proof.
  revert pl states h. induction items as [|[n0 lay0] items IH]; intros pl states h; simpl.
  - by intros [= <- <- <-].
  - assert (∀ l1, is_Some (pl !! n) → is_Some (<[n0 := l1]> pl !! n)) as Hins.
    { intros l1 Hs. destruct (decide (n0 = n)) as [->|Hne].
      - rewrite lookup_insert_eq. by eexists.
      - by rewrite lookup_insert_ne. }
    case_bool_decide as Hp.
    + intros Hm Hs. apply bind_Ok in Hm as ([m s] & E & Hm).
      eapply IH; [exact Hm|]. by apply Hins.
    + destruct (has_mock (layer_at h lay0)); [|by apply IH].
      intros Hm Hs. apply bind_Ok in Hm as (m & E & Hm).
      eapply IH; [exact Hm|]. by apply Hins.
Qed.

Lemma wrap_mock_output_raises names pl h name l v :
  (∀ n, n ∈ names → is_Some (pl !! n)) →
  name ∈ names → pl !! name = Some l → layer_objs h !! l = Some v →
  size (layer_dsk v) ≠ 1 →
  wrap_layers _mock_output names pl h = raise AssertionError "".
Proof.
  revert pl h. induction names as [|n0 names IH]; intros pl h Hall Hin Hl Hv Hsz; simpl.
  - by apply elem_of_nil in Hin.
  - destruct (Hall n0 (list_elem_of_here _ _)) as [l0 Hl0]. rewrite Hl0.
    destruct (_mock_output l0 h) as [[l1 h1]|e|] eqn:Hm; simpl.
    + pose proof (mock_output_ext _ _ _ _ Hm) as [Hs _].
      apply mock_output_spec in Hm as (_ & _ & Hsz0 & _).
      destruct (decide (n0 = name)) as [->|Hne].
      { rewrite Hl in Hl0. injection Hl0 as <-.
        unfold layer_at in Hsz0. rewrite (lookup_total_correct _ _ _ Hv) in Hsz0. done. }
      apply IH; try done.
      * intros n Hn. destruct (decide (n0 = n)) as [->|Hne'].
        -- rewrite lookup_insert_eq. by eexists.
        -- rewrite lookup_insert_ne by done. apply Hall. by apply list_elem_of_further.
      * apply elem_of_cons in Hin as [?|?]; [congruence|done].
      * by rewrite lookup_insert_ne.
      * by eapply lookup_weaken.
    + unfold _mock_output in Hm. case_match; [by injection Hm as <-|].
      by destruct (deepcopy l0 h).
    + unfold _mock_output in Hm. case_match; [done|]. by destruct (deepcopy l0 h).
Qed.

(** When mocking succeeds but a layer annotated as output (one that is
    neither mocked nor a projectable input) holds a number of tasks other
    than one, [optimize_columns] raises an [AssertionError], whatever the
    on-fail policy: no warning is issued, nothing is logged, the evaluator
    is not called. *)
Theorem output_layer_with_several_tasks_fails (C : collaborators) (on_fail : string)
    (dsk : HighLevelGraph) (st : run_state) pl1 st1 h1 (name : string) (l : loc)
    (v : Layer) :
  _has_projectable_awkward_io_layer dsk (st_heap st) = true →
  mock_layers C (_projectable_input_layer_names dsk (st_heap st))
    (map_to_list (layers dsk)) (layers dsk, ∅, st_heap st) = Ok (pl1, st1, h1) →
  name ∈ _ak_output_layer_names dsk (st_heap st) →
  name ∉ _projectable_input_layer_names dsk (st_heap st) →
  layers dsk !! name = Some l →
  layer_objs (st_heap st) !! l = Some v →
  has_mock v = false →
  size (layer_dsk v) ≠ 1 →
  optimize_columns C on_fail dsk st = (Raise (mk_exn AssertionError ""), st).
Proof.
  intros Hp Hm Hout Hnp Hl Hv Hnm Hsz.
  unfold optimize_columns, build_tracer_graph. rewrite Hp, Hm. cbn [negb].
  rewrite bind_Ok_l. cbv beta iota.
  rewrite (wrap_mock_output_raises (_ak_output_layer_names dsk (st_heap st))
             pl1 h1 name l v); try done.
  - intros n Hn. eapply mock_layers_dom; [exact Hm|].
    unfold _ak_output_layer_names, _layers_with_annotation in Hn.
    apply (elem_of_names (λ v, annotation_truthy v "ak_output")) in Hn as (l' & -> & _).
    by eexists.
  - erewrite (mock_layers_keeps _ _ _ _ _ _ _ _ _ name Hnp); [done| |exact Hm].
    intros lay Hin. apply elem_of_map_to_list in Hin. exists v. split; [congruence|done].
  - apply mock_layers_ext in Hm as [Hs _]. by eapply lookup_weaken.
Qed.

Lemma output_layer_with_several_tasks_fails_example :
  optimize_columns Ex.C_ok "pass" Ex.g_io (Ex.run0 Ex.h_io2)
  = (Raise (mk_exn AssertionError ""), Ex.run0 Ex.h_io2).
Proof.
  destruct (mock_layers Ex.C_ok (_projectable_input_layer_names Ex.g_io Ex.h_io2)
              (map_to_list (layers Ex.g_io)) (layers Ex.g_io, ∅, Ex.h_io2))
    as [[[pl1 st1] h1]|e|] eqn:Hm;
    [|vm_compute in Hm; discriminate Hm..].
  apply (output_layer_with_several_tasks_fails Ex.C_ok "pass" Ex.g_io
           (Ex.run0 Ex.h_io2) pl1 st1 h1 "out" 1 Ex.L_out2).
  - vm_compute. reflexivity.
  - exact Hm.
  - vm_compute. apply list_elem_of_here.
  - vm_compute. intros Hin. apply list_elem_of_singleton in Hin. discriminate Hin.
  - reflexivity.
  - reflexivity.
  - reflexivity.
  - vm_compute. discriminate.
Defined.

(** ** The order of the visit does not matter *)

(** Two paths of fusable edges that start at the same layer and both end
    at a layer without a fusable successor are the same path. *)
Lemma linked_same_head layer_len dsk h (c c2 : list string) u :
  (∀ u d d', fusable layer_len dsk h u d → fusable layer_len dsk h u d' → d = d') →
  linked layer_len dsk h c → linked layer_len dsk h c2 →
  head c = Some u → head c2 = Some u →
  (∀ o, last c = Some o → ∀ s, ¬ fusable layer_len dsk h o s) →
  (∀ o, last c2 = Some o → ∀ s, ¬ fusable layer_len dsk h o s) →
  c = c2.
Proof.
  intros Huniq. revert c2 u.
  induction c as [|a [|b r] IH]; intros c2 u Hl Hl2 Hh Hh2 Hlast Hlast2; [done| |].
  - simpl in Hh. injection Hh as ->.
    destruct c2 as [|a2 [|b2 r2]]; [done| |].
    + simpl in Hh2. by injection Hh2 as ->.
    + simpl in Hh2. injection Hh2 as ->. destruct Hl2 as [Hf _].
      by destruct (Hlast u eq_refl b2).
  - simpl in Hh. injection Hh as ->.
    destruct c2 as [|a2 [|b2 r2]]; [done| |].
    + simpl in Hh2. injection Hh2 as ->. destruct Hl as [Hf _].
      by destruct (Hlast2 u eq_refl b).
    + simpl in Hh2. injection Hh2 as ->.
      destruct Hl as [Hf Hl]. destruct Hl2 as [Hf2 Hl2].
      pose proof (Huniq _ _ _ Hf Hf2) as <-. f_equal.
      by apply (IH (b :: r2) b).
Qed.

Lemma chain_found_in_any_order layer_len dsk h order1 order2
    chains1 layers1 h1 chains2 layers2 h2 c :
  well_formed order1 dsk h → well_formed order2 dsk h →
  discover layer_len order1 dsk h = Ok (chains1, layers1, h1) →
  discover layer_len order2 dsk h = Ok (chains2, layers2, h2) →
  c ∈ chains1 → c ∈ chains2.
Proof.
  intros Hwf1 Hwf2 Hd1 Hd2 Hc.
  destruct (discover_wf layer_len order1 dsk h Hwf1) as (cs1 & l1 & h1' & Hd1' & Hinv1).
  rewrite Hd1 in Hd1'. injection Hd1' as <- <- <-.
  destruct (discover_wf layer_len order2 dsk h Hwf2) as (cs2 & l2 & h2' & Hd2' & Hinv2).
  rewrite Hd2 in Hd2'. injection Hd2' as <- <- <-.
  destruct (discover_maximal layer_len order2 dsk h chains2 layers2 h2 Hwf2 Hd2)
    as (_ & Hmax2 & _).
  destruct Hwf1 as [_ _ Hdd Hcl [rank Hrank] Hal _].
  pose proof Hinv1 as [_ _ _ Hg1 Hm1 _ _ _ _ _ _ _ _ _].
  pose proof Hinv2 as [_ _ _ Hg2 Hm2 _ _ _ _ _ _ _ _ _].
  rewrite Forall_forall in Hg1, Hg2.
  destruct (Hg1 c Hc) as (Hlen & Hlk & _).
  destruct c as [|u0 [|u1 r]] eqn:Hceq; simpl in Hlen; try lia. rewrite <- Hceq in *.
  assert (fusable layer_len dsk h u0 u1) as Hf by (rewrite Hceq in Hlk; apply Hlk).
  destruct (Hmax2 u0 u1 Hf) as (c2 & i & Hc2 & Hi & Hsi).
  destruct (Hg2 c2 Hc2) as (_ & Hlk2 & _).
  assert (i = 0) as ->.
  { destruct i as [|i]; [done|]. exfalso.
    destruct (lookup_lt_is_Some_2 c2 i) as [p Hp]; [apply lookup_lt_Some in Hi; lia|].
    destruct (Hm1 c Hc) as [Hhd _]. apply (Hhd u0 ltac:(by rewrite Hceq) p).
    by eapply linked_lookup. }
  assert (c = c2) as ->; [|done].
  apply (linked_same_head layer_len dsk h c c2 u0); try done.
  - apply (fusable_succ_unique layer_len dsk h rank Hdd Hcl Hrank Hal).
  - by rewrite Hceq.
  - by rewrite head_lookup.
  - by apply (Hm1 c Hc).
  - by apply (Hm2 c2 Hc2).
Qed.

(** The order in which the set of layers is visited does not change what is
    fused: on a well-formed graph, two runs of [rewrite_layer_chains] that
    visit the layers in different orders find the same chains, and return
    graphs with the same layer names and the same dependencies. *)
Theorem fusion_does_not_depend_on_the_visiting_order (layer_len : Layer → nat)
    (order1 order2 : list string) (dsk : HighLevelGraph) (h : heap)
    chains1 layers1 h1 chains2 layers2 h2 g1 h1' g2 h2' :
  well_formed order1 dsk h →
  well_formed order2 dsk h →
  discover layer_len order1 dsk h = Ok (chains1, layers1, h1) →
  discover layer_len order2 dsk h = Ok (chains2, layers2, h2) →
  rewrite_layer_chains layer_len order1 dsk h = Ok (g1, h1') →
  rewrite_layer_chains layer_len order2 dsk h = Ok (g2, h2') →
  (∀ c, c ∈ chains1 ↔ c ∈ chains2)
  ∧ dependencies g1 = dependencies g2
  ∧ dom (layers g1) = dom (layers g2).
Proof.
  intros Hwf1 Hwf2 Hd1 Hd2 Hr1 Hr2.
  assert (∀ c, c ∈ chains1 ↔ c ∈ chains2) as Hsame.
  { intros c. split.
    - apply (chain_found_in_any_order layer_len dsk h order1 order2
               chains1 layers1 h1 chains2 layers2 h2 c Hwf1 Hwf2 Hd1 Hd2).
    - apply (chain_found_in_any_order layer_len dsk h order2 order1
               chains2 layers2 h2 chains1 layers1 h1 c Hwf2 Hwf1 Hd2 Hd1). }
  destruct (rewrite_layer_chains_wf layer_len order1 dsk h Hwf1)
    as (cs1 & l1 & h1x & deps1 & h1y & Hd1' & Hinv1 & Hr1'
        & Hda1 & Hdb1 & Hdc1 & _).
  rewrite Hd1 in Hd1'. injection Hd1' as <- <- <-.
  rewrite Hr1 in Hr1'. injection Hr1' as -> <-.
  destruct (rewrite_layer_chains_wf layer_len order2 dsk h Hwf2)
    as (cs2 & l2 & h2x & deps2 & h2y & Hd2' & Hinv2 & Hr2'
        & Hda2 & Hdb2 & Hdc2 & _).
  rewrite Hd2 in Hd2'. injection Hd2' as <- <- <-.
  rewrite Hr2 in Hr2'. injection Hr2' as -> <-.
  assert (deps1 = deps2) as Hdeps.
  { apply map_eq. intros x.
    destruct (decide (x ∈ concat chains1)) as [Hx|Hx].
    - apply elem_of_concat in Hx as (c & Hc & Hx).
      pose proof (proj1 (Hsame c) Hc) as Hc2.
      destruct (elem_last_or_removelast c x Hx) as [Hla|Hrl].
      + destruct c as [|c0 r] eqn:Hceq; [done|]. rewrite <- Hceq in *.
        assert (head c = Some c0) as Hhd by by rewrite Hceq.
        by rewrite (Hda1 c x c0 Hc Hla Hhd), (Hda2 c x c0 Hc2 Hla Hhd).
      + by rewrite (Hdb1 c x Hc Hrl), (Hdb2 c x Hc2 Hrl).
    - assert (x ∉ concat chains2) as Hx2.
      { intros Hin. apply Hx. apply elem_of_concat in Hin as (c & Hc & Hin).
        apply elem_of_concat. exists c. split; [by apply Hsame|done]. }
      by rewrite (Hdc1 x Hx), (Hdc2 x Hx2). }
  split_and!; [done|by simpl|]. simpl.
  destruct Hwf1 as [_ _ Hdd Hcl [rank Hrank] Hal _].
  apply set_eq. intros x. rewrite !elem_of_dom.
  rewrite <- (out_deps_dom layer_len dsk h rank chains1 layers1 h1 deps1
                Hdd Hrank Hinv1 Hda1 Hdb1 Hdc1 x).
  rewrite <- (out_deps_dom layer_len dsk h rank chains2 layers2 h2 deps2
                Hdd Hrank Hinv2 Hda2 Hdb2 Hdc2 x).
  by rewrite Hdeps.
Qed.

Lemma fusion_does_not_depend_on_the_visiting_order_example :
  match rewrite_layer_chains Ex.len3 ["A"; "B"] Ex.g_chain Ex.h_chain,
        rewrite_layer_chains Ex.len3 ["B"; "A"] Ex.g_chain Ex.h_chain with
  | Ok (g1, _), Ok (g2, _) =>
      dependencies g1 = dependencies g2 ∧ dom (layers g1) = dom (layers g2)
  | _, _ => False
  end.
Proof.
  assert (∀ order, order = ["A"; "B"] ∨ order = ["B"; "A"] →
            well_formed order Ex.g_chain Ex.h_chain) as Hwf.
  { intros order [-> | ->];
      apply (wf_check_sound (λ x, if String.eqb x "A" then 0 else 1));
      vm_compute; reflexivity. }
  destruct (discover Ex.len3 ["A"; "B"] Ex.g_chain Ex.h_chain)
    as [[[chains1 layers1] h1]|e|] eqn:Hd1;
    [|vm_compute in Hd1; discriminate Hd1..].
  destruct (discover Ex.len3 ["B"; "A"] Ex.g_chain Ex.h_chain)
    as [[[chains2 layers2] h2]|e|] eqn:Hd2;
    [|vm_compute in Hd2; discriminate Hd2..].
  destruct (rewrite_layer_chains Ex.len3 ["A"; "B"] Ex.g_chain Ex.h_chain)
    as [[g1 h1']|e|] eqn:Hr1;
    [|vm_compute in Hr1; discriminate Hr1..].
  destruct (rewrite_layer_chains Ex.len3 ["B"; "A"] Ex.g_chain Ex.h_chain)
    as [[g2 h2']|e|] eqn:Hr2;
    [|vm_compute in Hr2; discriminate Hr2..].
  eapply proj2.
  exact (fusion_does_not_depend_on_the_visiting_order Ex.len3 ["A"; "B"] ["B"; "A"]
           Ex.g_chain Ex.h_chain chains1 layers1 h1 chains2 layers2 h2 g1 h1' g2 h2'
           (Hwf _ (or_introl eq_refl)) (Hwf _ (or_intror eq_refl)) Hd1 Hd2 Hr1 Hr2).
Defined.

(** ** The dispatcher *)

(** When the optimizations are disabled, or when the configured list names
    neither ['columns'] nor ['layer-chains'], [optimize] returns the graph
    it was given and has no effect at all; names it does not know are
    ignored without any error. *)
Theorem optimize_disabled_or_unknown_is_noop (C : collaborators)
    (layer_len : Layer → nat) (pop_order : HighLevelGraph → list string)
    (cfg : config) (dsk : HighLevelGraph) (st : run_state) :
  cfg_enabled cfg = false
  ∨ (("columns" ∉ cfg_which cfg) ∧ ("layer-chains" ∉ cfg_which cfg)) →
  optimize C layer_len pop_order cfg dsk st = (Ok dsk, st).
Proof.
  unfold optimize. intros [->|[Hc Hl]]; [done|].
  destruct (cfg_enabled cfg); [|done].
  by rewrite !bool_decide_eq_false_2.
Qed.

Lemma optimize_disabled_or_unknown_is_noop_example :
  optimize Ex.C_fail Ex.len3 (λ _, ["A"; "B"]) (mkConfig true ["colums"] "raise")
    Ex.g_chain (Ex.run0 Ex.h_chain)
  = (Ok Ex.g_chain, Ex.run0 Ex.h_chain).
Proof.
  apply optimize_disabled_or_unknown_is_noop. right. simpl.
  split; intros Hin; apply list_elem_of_singleton in Hin; discriminate Hin.
Defined.

(** With both passes enabled, column projection runs first and fusion runs
    on what it returns. When the evaluation of the tracer graph fails with
    an [Exception]: under ['raise'] that exception leaves [optimize] and
    fusion does not run; under ['warn'] and ['pass'] the chains of the given
    graph are fused all the same, in the store left by the projection
    attempt. *)
Theorem optimize_after_failed_projection (C : collaborators)
    (layer_len : Layer → nat) (pop_order : HighLevelGraph → list string)
    (cfg : config) (dsk : HighLevelGraph) (st : run_state)
    hlg states h1 (err : exn) :
  cfg_enabled cfg = true →
  "columns" ∈ cfg_which cfg →
  "layer-chains" ∈ cfg_which cfg →
  _has_projectable_awkward_io_layer dsk (st_heap st) = true →
  build_tracer_graph C dsk (st_heap st) = Ok (hlg, states, h1) →
  (try_body C hlg (leaf_layers_keys dsk) h1).2 = Raise err →
  is_Exception err = true →
  (cfg_on_fail cfg = "raise" →
     (optimize C layer_len pop_order cfg dsk st).1 = Raise err)
  ∧ (cfg_on_fail cfg = "warn" ∨ cfg_on_fail cfg = "pass" →
       (optimize C layer_len pop_order cfg dsk st).1
       = match rewrite_layer_chains layer_len (pop_order dsk) dsk
                 (try_body C hlg (leaf_layers_keys dsk) h1).1 with
         | Ok (g, _) => Ok g
         | Raise e => Raise e
         | OutOfFuel => OutOfFuel
         end).
Proof.
  intros He Hc Hl Hp Hb Ht Hex.
  unfold optimize. rewrite He, !bool_decide_eq_true_2 by done.
  rewrite (optimize_columns_built C (cfg_on_fail cfg) dsk st hlg states h1 Hp Hb).
  cbv zeta. rewrite Ht, Hex. split.
  - intros ->. done.
  - intros [-> | ->]; simpl;
      by destruct (rewrite_layer_chains _ _ _ _) as [[g h2]| |].
Qed.

Lemma optimize_after_failed_projection_example :
  (optimize Ex.C_fail Ex.len3 (λ _, ["src"; "out"])
     (mkConfig true ["columns"; "layer-chains"] "raise")
     Ex.g_io (Ex.run0 Ex.h_io)).1
  = Raise Ex.boom.
Proof.
  destruct (build_tracer_graph Ex.C_fail Ex.g_io Ex.h_io)
    as [[[hlg states] h1]|e|] eqn:Hb;
    [|vm_compute in Hb; discriminate Hb..].
  apply (optimize_after_failed_projection Ex.C_fail Ex.len3 (λ _, ["src"; "out"])
           (mkConfig true ["columns"; "layer-chains"] "raise")
           Ex.g_io (Ex.run0 Ex.h_io) hlg states h1 Ex.boom).
  - reflexivity.
  - simpl. apply list_elem_of_here.
  - simpl. apply list_elem_of_further, list_elem_of_here.
  - vm_compute. reflexivity.
  - exact Hb.
  - reflexivity.
  - reflexivity.
  - reflexivity.
Defined.



(** ** Buffer keys of a layer *)

(** [_buffer_keys_for_layer] returns the known keys among the given ones:
    a key is in the result exactly when it is given and known. So the result
    is a subset of the known keys, duplicates and the order of the given
    keys do not matter, and filtering the result again changes nothing. *)
Theorem buffer_keys_for_layer_is_intersection (buffer_keys : list string)
    (known_buffer_keys : gset string) :
  (∀ k, k ∈ _buffer_keys_for_layer buffer_keys known_buffer_keys
     ↔ k ∈ buffer_keys ∧ k ∈ known_buffer_keys)
  ∧ _buffer_keys_for_layer buffer_keys known_buffer_keys
    = list_to_set buffer_keys ∩ known_buffer_keys
  ∧ _buffer_keys_for_layer buffer_keys known_buffer_keys ⊆ known_buffer_keys
  ∧ (∀ buffer_keys', (∀ k, k ∈ buffer_keys ↔ k ∈ buffer_keys') →
       _buffer_keys_for_layer buffer_keys' known_buffer_keys
       = _buffer_keys_for_layer buffer_keys known_buffer_keys)
  ∧ _buffer_keys_for_layer
      (elements (_buffer_keys_for_layer buffer_keys known_buffer_keys))
      known_buffer_keys
    = _buffer_keys_for_layer buffer_keys known_buffer_keys.
Proof.
  assert (∀ bk k, k ∈ _buffer_keys_for_layer bk known_buffer_keys
            ↔ k ∈ bk ∧ k ∈ known_buffer_keys) as Hchar.
  { intros bk k. unfold _buffer_keys_for_layer.
    rewrite elem_of_list_to_set, list_elem_of_filter. tauto. }
  split_and!.
  - apply Hchar.
  - apply set_eq. intros k.
    rewrite Hchar, elem_of_intersection, elem_of_list_to_set. tauto.
  - intros k Hk. by apply Hchar in Hk as [_ ?].
  - intros bk' Hsame. apply set_eq. intros k. rewrite !Hchar, Hsame. tauto.
  - apply set_eq. intros k. rewrite !Hchar, elem_of_elements, Hchar. tauto.
Qed.
